(** * mermaid2img: a shallow embedding of [src/main.ts]

    The program scans markdown documents for fenced mermaid blocks with one
    regular expression, renders every block in a shared browser page and
    splices the rendered text back into the document.

    Layout of the development:
    - [JSString]: JavaScript strings as lists of UTF-16 code units, with the
      string methods the program calls;
    - [RegExp]: a backtracking matcher written after the ECMAScript
      specification, [MERMAID_RE] and [matchAll];
    - [Path], [Base64], [Scale]: the runtime's [path] functions, the
      [Buffer] encoding, and [parseInt] with the clamp of the scale;
    - [Effects], [Program]: the world, the trace of a run, and
      [renderDiagram], [processFile], [collectMarkdownFiles] and [main];
    - the vocabulary of the statements: spans and their replacement,
      readings of a trace, matches of a pattern, runs of the program, and
      the numbers that a value of [--scale] may denote;
    - the facts, module by module, and the theorems about the program. *)

From Stdlib Require Import String Ascii.
From Stdlib Require DecimalString DecimalNat.
From Stdlib Require QArith Qreduction.
From Stdlib Require Import List NArith ZArith Lia Bool Arith.
Import Corelib.Init.Datatypes.
Import ListNotations.

Set Implicit Arguments.
Set Warnings "-register-all".

(* ================================================================== *)
(** * JavaScript strings *)
(* ================================================================== *)

Module JSString.

(** A string is a sequence of UTF-16 code units. *)
Definition char := N.
Definition str := list char.

(** String literals of the source are written as Rocq strings. *)
Definition lit (s : string) : str := map N_of_ascii (list_ascii_of_string s).
Arguments lit s%_string_scope.

Definition LF : char := 10%N.
Definition CR : char := 13%N.

Definition char_eqb (a b : char) : bool := N.eqb a b.

Fixpoint str_eqb (a b : str) : bool :=
  match a, b with
  | [], [] => true
  | x :: a', y :: b' => char_eqb x y && str_eqb a' b'
  | _, _ => false
  end.

(** ECMAScript [LineTerminator]: LF, CR, LS, PS. *)
Definition isLineTerminator (c : char) : bool :=
  (c =? 10)%N || (c =? 13)%N || (c =? 0x2028)%N || (c =? 0x2029)%N.

(** ECMAScript [WhiteSpace]: TAB, VT, FF, ZWNBSP and the space separators. *)
Definition isWhiteSpace (c : char) : bool :=
  (c =? 9)%N || (c =? 11)%N || (c =? 12)%N || (c =? 32)%N || (c =? 160)%N
  || (c =? 0x1680)%N || ((0x2000 <=? c)%N && (c <=? 0x200A)%N)
  || (c =? 0x202F)%N || (c =? 0x205F)%N || (c =? 0x3000)%N || (c =? 0xFEFF)%N.

(** The set behind [\s] in a pattern and behind [String.prototype.trim]. *)
Definition isSpace (c : char) : bool := isWhiteSpace c || isLineTerminator c.

(** [s.slice(a, b)] and [s.slice(a)] for non-negative arguments; indices
    past the end are clamped to the length. *)
Definition slice (s : str) (a b : nat) : str := firstn (b - a) (skipn a s).
Definition slice_from (s : str) (a : nat) : str := skipn a s.

Fixpoint trimStart (s : str) : str :=
  match s with
  | c :: s' => if isSpace c then trimStart s' else s
  | [] => []
  end.

Definition trimEnd (s : str) : str := rev (trimStart (rev s)).

(** [s.trim()] *)
Definition trim (s : str) : str := trimEnd (trimStart s).

(** [s.startsWith(p)] *)
Fixpoint startsWith (s p : str) {struct p} : bool :=
  match p, s with
  | [], _ => true
  | x :: p', y :: s' => char_eqb x y && startsWith s' p'
  | _ :: _, [] => false
  end.

(** [s.endsWith(p)] *)
Definition endsWith (s p : str) : bool := startsWith (rev s) (rev p).

(** [s.includes(p)] *)
Fixpoint includes (s p : str) : bool :=
  startsWith s p ||
  match s with
  | [] => false
  | _ :: s' => includes s' p
  end.

(** Decimal rendering of a non-negative integer inside a template literal. *)
Definition ofNat (n : nat) : str := lit (DecimalString.NilZero.string_of_uint (Nat.to_uint n)).

(** [s.split(sep)] for a separator of one code unit. *)
Fixpoint splitOn (sep : char) (s : str) : list str :=
  match s with
  | [] => [[]]
  | c :: s' =>
      if char_eqb c sep then [] :: splitOn sep s'
      else match splitOn sep s' with
           | h :: t => (c :: h) :: t
           | [] => [[c]]
           end
  end.

(** [a.join(sep)] *)
Fixpoint join (sep : str) (l : list str) : str :=
  match l with
  | [] => []
  | [x] => x
  | x :: l' => x ++ sep ++ join sep l'
  end.

End JSString.
Import JSString.

(* ================================================================== *)
(** * Regular expressions *)
(* ================================================================== *)

Module RegExp.

(** The pattern constructs [MERMAID_RE] is built from.  [LineStart] and
    [LineEnd] are [^] and [$] under the [m] flag. *)
Inductive regex : Type :=
| Empty : regex
| Lit : char -> regex
| Class : (char -> bool) -> regex
| LineStart : regex
| LineEnd : regex
| Seq : regex -> regex -> regex
| Star : bool -> regex -> regex          (* [true]: greedy [*]; [false]: lazy [*?] *)
| Group : nat -> regex -> regex.

(** A match state: the end index and the captures found so far, each a pair
    of indices into the input. *)
Record MatchState : Type := mkState {
  endIndex : nat;
  captures : list (nat * (nat * nat))
}.

Definition Continuation := MatchState -> option MatchState.

Fixpoint groupsOf (r : regex) : list nat :=
  match r with
  | Seq r1 r2 => groupsOf r1 ++ groupsOf r2
  | Star _ r' => groupsOf r'
  | Group n r' => n :: groupsOf r'
  | _ => []
  end.

Definition memNat (n : nat) (l : list nat) : bool := existsb (Nat.eqb n) l.

Definition clearCaptures (gs : list nat) (x : MatchState) : MatchState :=
  mkState (endIndex x) (filter (fun p => negb (memNat (fst p) gs)) (captures x)).

Definition setCapture (n : nat) (v : nat * nat) (y : MatchState) : MatchState :=
  mkState (endIndex y)
          ((n, v) :: filter (fun p => negb (Nat.eqb (fst p) n)) (captures y)).

Fixpoint getCapture (n : nat) (caps : list (nat * (nat * nat))) : option (nat * nat) :=
  match caps with
  | [] => None
  | (k, v) :: caps' => if Nat.eqb k n then Some v else getCapture n caps'
  end.

(** The assertions [^] and [$] in multiline mode. *)
Definition atLineStart (input : str) (e : nat) : bool :=
  match e with
  | 0 => true
  | S e' => match nth_error input e' with
            | Some c => isLineTerminator c
            | None => false
            end
  end.

Definition atLineEnd (input : str) (e : nat) : bool :=
  if Nat.eqb e (length input) then true
  else match nth_error input e with
       | Some c => isLineTerminator c
       | None => false
       end.

(** One character against a predicate (CharacterSetMatcher). *)
Definition charMatcher (input : str) (p : char -> bool)
           (x : MatchState) (c : Continuation) : option MatchState :=
  match nth_error input (endIndex x) with
  | Some ch => if p ch then c (mkState (S (endIndex x)) (captures x)) else None
  | None => None
  end.

(** [RepeatMatcher] for [*] and [*?] over the matcher [m] of the quantified
    atom, whose capture groups are [gs].  An iteration that consumes nothing
    is rejected, so every further iteration starts strictly to the right
    and [fuel], the number of characters left plus one, is never exhausted
    (see [repeatMatcher_fuel] below). *)
Fixpoint repeatMatcher (m : MatchState -> Continuation -> option MatchState)
         (greedy : bool) (gs : list nat) (c : Continuation)
         (fuel : nat) (x : MatchState) {struct fuel} : option MatchState :=
  match fuel with
  | 0 => None
  | S fuel' =>
      let d : Continuation := fun y =>
        if Nat.eqb (endIndex y) (endIndex x) then None
        else repeatMatcher m greedy gs c fuel' y in
      let xr := clearCaptures gs x in
      if greedy then
        match m xr d with
        | Some z => Some z
        | None => c x
        end
      else
        match c x with
        | Some z => Some z
        | None => m xr d
        end
  end.

(** The backtracking matcher of a pattern: from state [x], with [c] the
    continuation that matches the rest of the pattern. *)
Fixpoint matcher (input : str) (r : regex) (x : MatchState) (c : Continuation)
  {struct r} : option MatchState :=
  match r with
  | Empty => c x
  | Lit ch => charMatcher input (char_eqb ch) x c
  | Class p => charMatcher input p x c
  | LineStart => if atLineStart input (endIndex x) then c x else None
  | LineEnd => if atLineEnd input (endIndex x) then c x else None
  | Seq r1 r2 => matcher input r1 x (fun y => matcher input r2 y c)
  | Group n r' =>
      matcher input r' x
              (fun y => c (setCapture n (endIndex x, endIndex y) y))
  | Star greedy r' =>
      repeatMatcher (matcher input r') greedy (groupsOf r') c
                    (S (length input - endIndex x)) x
  end.

(** The result array of a successful match: [index], [match[0]] and
    [match[1]]. *)
Record RegExpMatch : Type := mkMatch {
  m_index : nat;
  m_0 : str;
  m_1 : option str
}.

(** [RegExpBuiltinExec] for a global pattern: the first index from
    [lastIndex] on at which the pattern matches.  [n] counts the start
    positions still to try. *)
Fixpoint searchFrom (input : str) (r : regex) (n : nat) (lastIndex : nat)
  : option (nat * MatchState) :=
  match n with
  | 0 => None
  | S n' =>
      match matcher input r (mkState lastIndex []) (fun y => Some y) with
      | Some y => Some (lastIndex, y)
      | None => searchFrom input r n' (S lastIndex)
      end
  end.

Definition regExpExec (input : str) (r : regex) (lastIndex : nat)
  : option (nat * MatchState) :=
  searchFrom input r (S (length input) - lastIndex) lastIndex.

Definition toMatch (input : str) (i : nat) (y : MatchState) : RegExpMatch :=
  mkMatch i (slice input i (endIndex y))
          (match getCapture 1 (captures y) with
           | Some (a, b) => Some (slice input a b)
           | None => None
           end).

(** The iterator behind [matchAll]: after a match [lastIndex] is its end,
    advanced by one when the match is empty. *)
Fixpoint matchAllFrom (input : str) (r : regex) (fuel : nat) (lastIndex : nat)
  : list (nat * MatchState) :=
  match fuel with
  | 0 => []
  | S fuel' =>
      match regExpExec input r lastIndex with
      | None => []
      | Some (i, y) =>
          let e := endIndex y in
          (i, y) :: matchAllFrom input r fuel' (if Nat.eqb e i then S e else e)
      end
  end.

Definition matchStates (input : str) (r : regex) : list (nat * MatchState) :=
  matchAllFrom input r (S (length input)) 0.

(** [[...input.matchAll(r)]] *)
Definition matchAll (input : str) (r : regex) : list RegExpMatch :=
  map (fun p => toMatch input (fst p) (snd p)) (matchStates input r).

Definition seqOf (rs : list regex) : regex := fold_right Seq Empty rs.
Definition lits (s : str) : regex := seqOf (map Lit s).

End RegExp.
Import RegExp.

(** [/^```mermaid[^\n]*\n([\s\S]*?)^```\s*$/gm] *)
Definition MERMAID_RE : regex :=
  seqOf [ LineStart;
          lits (lit "```mermaid");
          Star true (Class (fun c => negb (char_eqb c LF)));
          Lit LF;
          Group 1 (Star false (Class (fun c => isSpace c || negb (isSpace c))));
          LineStart;
          lits (lit "```");
          Star true (Class isSpace);
          LineEnd ].

(* ================================================================== *)
(** * The runtime's [path] module (POSIX flavour) *)
(* ================================================================== *)

(** The program imports [join], [dirname], [basename] and [extname] from the
    runtime; they are modelled here after their documented behaviour, on the
    path component structure rather than on character indices. *)
Module Path.

Definition SLASH : char := 47%N.
Definition DOT : char := 46%N.
Definition isSlash (c : char) : bool := char_eqb c SLASH.
Definition notSlash (c : char) : bool := negb (isSlash c).
Definition notDot (c : char) : bool := negb (char_eqb c DOT).

Fixpoint dropWhile (p : char -> bool) (s : str) : str :=
  match s with
  | c :: s' => if p c then dropWhile p s' else s
  | [] => []
  end.

Fixpoint takeWhile (p : char -> bool) (s : str) : str :=
  match s with
  | c :: s' => if p c then c :: takeWhile p s' else []
  | [] => []
  end.

(** The segments between separators. *)
Definition split (s : str) : list str := splitOn SLASH s.

(** [normalizeString]: drops empty and [.] segments and resolves [..]
    against the segment before it; [acc] holds the segments kept so far,
    last one first. *)
Fixpoint normalizeSegments (allowAboveRoot : bool) (segs acc : list str) : list str :=
  match segs with
  | [] => rev acc
  | seg :: segs' =>
      if str_eqb seg [] || str_eqb seg [DOT] then
        normalizeSegments allowAboveRoot segs' acc
      else if str_eqb seg [DOT; DOT] then
        match acc with
        | top :: acc' =>
            if str_eqb top [DOT; DOT] then
              normalizeSegments allowAboveRoot segs'
                                (if allowAboveRoot then seg :: acc else acc)
            else normalizeSegments allowAboveRoot segs' acc'
        | [] =>
            normalizeSegments allowAboveRoot segs'
                              (if allowAboveRoot then [seg] else [])
        end
      else normalizeSegments allowAboveRoot segs' (seg :: acc)
  end.

Definition lastChar (s : str) : option char := hd_error (rev s).

(** [path.normalize] *)
Definition normalize (path : str) : str :=
  match path with
  | [] => [DOT]
  | c0 :: _ =>
      let isAbsolute := isSlash c0 in
      let trailingSeparator :=
        match lastChar path with Some c => isSlash c | None => false end in
      let res := JSString.join [SLASH]
                   (normalizeSegments (negb isAbsolute) (split path) []) in
      match res with
      | [] => if isAbsolute then [SLASH]
              else if trailingSeparator then [DOT; SLASH] else [DOT]
      | _ :: _ =>
          let res' := if trailingSeparator then res ++ [SLASH] else res in
          if isAbsolute then SLASH :: res' else res'
      end
  end.

(** [path.join(a, b)] *)
Definition join (a b : str) : str :=
  match filter (fun s => negb (str_eqb s [])) [a; b] with
  | [] => [DOT]
  | parts => normalize (JSString.join [SLASH] parts)
  end.

(** [path.dirname] *)
Definition dirname (path : str) : str :=
  match path with
  | [] => [DOT]
  | c0 :: body =>
      match dropWhile notSlash (dropWhile isSlash (rev body)) with
      | [] => if isSlash c0 then [SLASH] else [DOT]
      | _ :: pre =>
          if isSlash c0 && Nat.eqb (length pre) 0 then [SLASH; SLASH]
          else c0 :: rev pre
      end
  end.

(** The last component of a path, trailing separators ignored. *)
Definition lastComponent (path : str) : str :=
  rev (takeWhile notSlash (dropWhile isSlash (rev path))).

(** [path.basename(path)] and [path.basename(path, suffix)] *)
Definition basename (path : str) (suffix : option str) : str :=
  let comp := lastComponent path in
  match suffix with
  | Some suf =>
      if negb (str_eqb suf []) && endsWith comp suf && negb (str_eqb comp suf)
      then firstn (length comp - length suf) comp
      else comp
  | None => comp
  end.

(** [path.extname]: from the last dot of the last component on, unless that
    dot opens the component or the component is [..]. *)
Definition extname (path : str) : str :=
  let comp := lastComponent path in
  match dropWhile notDot (rev comp) with
  | [] => []
  | _ :: pre =>
      if Nat.eqb (length pre) 0 || str_eqb comp [DOT; DOT] then []
      else DOT :: rev (takeWhile notDot (rev comp))
  end.

End Path.

(* ================================================================== *)
(** * [Buffer] and its base64 rendering *)
(* ================================================================== *)

Module Base64.

Definition Buffer := list Byte.byte.

Definition alphabet : str :=
  lit "ABCDEFGHIJKLMNOPQRSTUVWXYZabcdefghijklmnopqrstuvwxyz0123456789+/".

Definition digit (n : N) : char := nth (N.to_nat n) alphabet 0%N.
Definition PAD : char := 61%N.

(** [buf.toString("base64")] *)
Fixpoint encode (bs : Buffer) : str :=
  match bs with
  | [] => []
  | [a] =>
      let a := Byte.to_N a in
      [digit (a / 4); digit ((a mod 4) * 16); PAD; PAD]
  | [a; b] =>
      let a := Byte.to_N a in
      let b := Byte.to_N b in
      [digit (a / 4); digit ((a mod 4) * 16 + b / 16); digit ((b mod 16) * 4); PAD]
  | a :: b :: c :: rest =>
      let a := Byte.to_N a in
      let b := Byte.to_N b in
      let c := Byte.to_N c in
      [digit (a / 4); digit ((a mod 4) * 16 + b / 16);
       digit ((b mod 16) * 4 + c / 64); digit (c mod 64)] ++ encode rest
  end%N.

End Base64.
Import Base64.

(* ================================================================== *)
(** * [parseInt] and the scale option *)
(* ================================================================== *)

Module Scale.

Definition isDigit (c : char) : bool := (48 <=? c)%N && (c <=? 57)%N.
Definition digitValue (c : char) : Z := Z.of_N c - 48.

(** The value of the leading digits of [s], [None] when there is none;
    [acc] is the value read so far. *)
Fixpoint digitsValue (s : str) (acc : option Z) : option Z :=
  match s with
  | c :: s' =>
      if isDigit c then
        digitsValue s' (Some (10 * match acc with Some a => a | None => 0 end
                              + digitValue c)%Z)
      else acc
  | [] => acc
  end.

(** The sign in front of the digits, and what follows it. *)
Definition splitSign (s : str) : Z * str :=
  match s with
  | c :: s' =>
      if char_eqb c 45%N then ((-1)%Z, s')
      else if char_eqb c 43%N then (1%Z, s')
      else (1%Z, s)
  | [] => (1%Z, s)
  end.

(** [parseInt(s, 10)]: leading white space is skipped, a sign is read, then
    the longest run of decimal digits; [None] stands for [NaN].  The result
    is kept as the exact integer: [scaleOf] only clamps it between 1 and 4,
    which the rounding of a long digit string to a double cannot change. *)
Definition parseInt10 (s : str) : option Z :=
  let '(sign, digits) := splitSign (trimStart s) in
  match digitsValue digits None with
  | Some v => Some (sign * v)%Z
  | None => None
  end.

(** Lines 86-91: [rawScale], the [NaN] test and the clamp.  The error case
    is the exit with status 1. *)
Definition scaleOf (scaleArg : option str) : option Z :=
  let rawScale :=
    parseInt10 (match scaleArg with Some s => s | None => lit "2" end) in
  match rawScale with
  | None => None
  | Some raw => Some (Z.max 1 (Z.min 4 raw))
  end.

End Scale.

(* ================================================================== *)
(** * The world the program runs in *)
(* ================================================================== *)

(** An exception is represented by its message. *)
Definition Error := str.

Inductive FileData : Type :=
| Text : str -> FileData
| Bytes : Buffer -> FileData.

(** A directory entry as [readdir(dir, { withFileTypes: true })] reports
    it; a directory carries its own listing, so that a walk reads the tree
    as one finite snapshot. *)
Inductive Dirent : Type :=
| FileEntry : str -> Dirent
| DirEntry : str -> list Dirent -> Dirent.

(** What [stat] tells about a path. *)
Inductive Stats : Type :=
| IsFile : Stats
| IsDirectory : list Dirent -> Stats.

(** The calls the program makes to the file system and to the browser.
    Every call may throw, and every call may change the world. *)
Record Runtime : Type := {
  World : Type;
  Browser : Type;
  Page : Type;
  ElementHandle : Type;
  resolve : str -> str;
  existsSync : str -> World -> bool;
  stat : str -> World -> World * (Error + Stats);
  readFile : str -> World -> World * (Error + str);
  writeFile : str -> FileData -> World -> World * (Error + unit);
  mkdir : str -> World -> World * (Error + unit);
  launch : World -> World * (Error + Browser);
  newPage : Browser -> Z -> World -> World * (Error + Page);
  setContent : Page -> str -> World -> World * (Error + unit);
  waitForFunction : Page -> World -> World * (Error + unit);
  evaluate : Page -> str -> World -> World * (Error + str);
  querySelector : Page -> str -> World -> World * (Error + option ElementHandle);
  screenshot : ElementHandle -> World -> World * (Error + Buffer);
  pageClose : Page -> World -> World * (Error + unit);
  browserClose : Browser -> World -> World * (Error + unit)
}.

(** The calls, as they are recorded in the trace of a run. *)
Inductive Op : Type :=
| OpStat : str -> Op
| OpReadFile : str -> Op
| OpWriteFile : str -> FileData -> Op
| OpMkdir : str -> Op
| OpLaunch : Op
| OpNewPage : Z -> Op                 (* with its [deviceScaleFactor] *)
| OpSetContent : str -> Op
| OpWaitForFunction : Op
| OpEvaluate : str -> Op              (* with the diagram code handed to [_render] *)
| OpQuerySelector : str -> Op
| OpScreenshot : Op
| OpPageClose : Op
| OpBrowserClose : Op.

Inductive Event : Type :=
| Call : Op -> bool -> Event          (* a call and whether it returned normally *)
| Stdout : str -> Event
| Stderr : str -> Event.

Module Effects.
Section Effects.

Variable rt : Runtime.

Record State : Type := mkSt {
  world : World rt;
  trace : list Event
}.

(** Computations that read and change the state and may throw. *)
Definition M (A : Type) : Type := State -> State * (Error + A).

Definition ret {A} (a : A) : M A := fun st => (st, inr a).

Definition bind {A B} (m : M A) (k : A -> M B) : M B :=
  fun st =>
    match m st with
    | (st', inr a) => k a st'
    | (st', inl e) => (st', inl e)
    end.

Definition throw {A} (e : Error) : M A := fun st => (st, inl e).

(** [try { body } catch (err) { handler }] *)
Definition tryCatch {A} (body : M A) (handler : Error -> M A) : M A :=
  fun st =>
    match body st with
    | (st', inr a) => (st', inr a)
    | (st', inl e) => handler e st'
    end.

(** [try { body } finally { cleanup }] *)
Definition tryFinally {A} (body : M A) (cleanup : M unit) : M A :=
  fun st =>
    match body st with
    | (st', r) =>
        match cleanup st' with
        | (st'', inr _) => (st'', r)
        | (st'', inl e) => (st'', inl e)
        end
    end.

Definition isOk {A} (r : Error + A) : bool :=
  match r with inr _ => true | inl _ => false end.

(** A call to the runtime, recorded in the trace. *)
Definition call {A} (op : Op) (f : World rt -> World rt * (Error + A)) : M A :=
  fun st =>
    match f (world st) with
    | (w', r) => (mkSt w' (trace st ++ [Call op (isOk r)]), r)
    end.

Definition emit (ev : Event) : M unit :=
  fun st => (mkSt (world st) (trace st ++ [ev]), inr tt).

End Effects.
End Effects.
Import Effects.

Declare Scope monad_scope.
Delimit Scope monad_scope with monad.
Notation "x <- m ;; k" := (bind m (fun x => k))
  (at level 61, m at next level, right associativity) : monad_scope.
Notation "m ;;; k" := (bind m (fun _ => k))
  (at level 61, right associativity) : monad_scope.

Arguments ret {rt A} a _.
Arguments throw {rt A} e _.
Arguments bind {rt A B} m k _.
Arguments tryCatch {rt A} body handler _.
Arguments tryFinally {rt A} body cleanup _.
Arguments call {rt A} op f _.
Arguments emit {rt} ev _.
Arguments world {rt} s.
Arguments trace {rt} s.

(* ================================================================== *)
(** * The program *)
(* ================================================================== *)

Definition VERSION : str := lit "1.0.2".
Definition MERMAID_CDN : str :=
  lit "https://cdn.jsdelivr.net/npm/mermaid@11/dist/mermaid.esm.min.mjs".

(** The banner, written to standard error. *)
Definition BANNER : str :=
  JSString.join [LF]
    [ [];
      lit "                                    _     ___  _";
      lit "   _ __  ___ _ _ _ __  __ _(_)__| |__ )|(_)_ __  __ _";
      lit "  | '  \/ -_) '_| '  \/ _` | / _|  _/ /| | '  \/ _` |";
      lit "  |_|_|_\___|_| |_|_|_\__,_|_\__|_|/_/ |_|_|_|_\__, |";
      lit "                     diagrams to images          |___/";
      [] ].

(** The usage text after [mermaid2img v${VERSION}]. *)
Definition HELP_TAIL : str :=
  JSString.join [LF]
    [ lit " " ++ [8212%N] ++ lit " render mermaid diagrams in markdown";
      [];
      lit "Usage: mermaid2img --md <path> [options]";
      [];
      lit "Options:";
      lit "  --md <path>     Markdown file or folder to process (required)";
      lit "  --svg           Inline SVG in markdown";
      lit "  --jpg           JPEG images (default)";
      lit "  --b64           Embed as base64 data URIs (default)";
      lit "  --files         Export images to ./mermaid/ folder";
      lit "  --scale <n>     Device scale factor (default: 2)";
      lit "  -v, --version   Show version";
      lit "  -h, --help      Show help";
      [];
      lit "Output: <name>_mermaid2<fmt>.md alongside each source file.";
      [];
      lit "Examples:";
      lit "  mermaid2img --md README.md";
      lit "  mermaid2img --md docs/";
      lit "  mermaid2img --md README.md --svg";
      lit "  mermaid2img --md README.md --jpg --files" ].

(** The document [initPage] loads into the page. *)
Definition PAGE_HTML : str :=
  JSString.join [LF]
    [ lit "<!DOCTYPE html><html><head>";
      lit "<script type=" ++ [34%N] ++ lit "module" ++ [34%N] ++ lit ">";
      lit "import mermaid from '" ++ MERMAID_CDN ++ lit "';";
      lit "mermaid.initialize({";
      lit "  startOnLoad: false,";
      lit "  theme: 'default',";
      lit "  themeVariables: {";
      lit "    fontFamily: 'system-ui, -apple-system, sans-serif',";
      lit "    fontSize: '14px',";
      lit "  },";
      lit "});";
      lit "let _id = 0;";
      lit "window._render = async (code) => {";
      lit "  const { svg } = await mermaid.render('d' + (++_id), code);";
      lit "  return svg;";
      lit "};";
      lit "</script></head><body style=" ++ [34%N] ++ lit "margin:0;padding:24px;background:#fff" ++ [34%N] ++ lit "></body></html>" ].

Inductive Format : Type := svg | jpg.
Inductive Mode : Type := b64 | files.

(** The option values [parseArgs] returns. *)
Record Values : Type := {
  v_md : option str;
  v_svg : bool;
  v_jpg : bool;
  v_b64 : bool;
  v_files : bool;
  v_scale : option str;
  v_version : bool;
  v_help : bool
}.

(** The module-level constants computed from the options. *)
Record Config : Type := {
  mdPath : str;
  fmt : Format;
  mode : Mode;
  scale : Z
}.

(** [start] and [end] of the loop body: the span of a match. *)
Definition spanStart (m : RegExpMatch) : nat := m_index m.
Definition spanEnd (m : RegExpMatch) : nat := spanStart m + length (m_0 m).
Definition spanOf (m : RegExpMatch) : nat * nat := (spanStart m, spanEnd m).

(** [result.slice(0, start) + replacement + result.slice(end)] *)
Definition splice (result : str) (start end_ : nat) (replacement : str) : str :=
  slice result 0 start ++ replacement ++ slice_from result end_.

Module Program.
Section Program.

Variable rt : Runtime.
Local Open Scope monad_scope.

Definition consoleLog (s : str) : M rt unit := emit (Stdout (s ++ [LF])).
Definition consoleError (s : str) : M rt unit := emit (Stderr (s ++ [LF])).
Definition consoleWarn (s : str) : M rt unit := emit (Stderr (s ++ [LF])).
Definition stdoutWrite (s : str) : M rt unit := emit (Stdout s).
Definition stderrWrite (s : str) : M rt unit := emit (Stderr s).

Definition help : M rt unit :=
  consoleLog (lit "mermaid2img v" ++ VERSION ++ HELP_TAIL).

(** A string option is truthy when it is present and not empty. *)
Definition truthy (o : option str) : bool :=
  match o with
  | Some (_ :: _) => true
  | _ => false
  end.

(** Lines 60-96: the checks on the options.  [inl code] stands for
    [process.exit(code)]. *)
Definition startup (values : Values) : M rt (Z + Config) :=
  if v_version values then
    consoleLog (lit "mermaid2img v" ++ VERSION) ;;; ret (inl 0%Z)
  else if v_help values || negb (truthy (v_md values)) then
    help ;;; ret (inl (if v_help values then 0%Z else 1%Z))
  else if v_svg values && v_jpg values then
    consoleError (lit "Error: --svg and --jpg are mutually exclusive") ;;;
    ret (inl 1%Z)
  else if v_b64 values && v_files values then
    consoleError (lit "Error: --b64 and --files are mutually exclusive") ;;;
    ret (inl 1%Z)
  else if v_svg values && v_files values then
    consoleError (lit "Error: --files requires --jpg format") ;;;
    ret (inl 1%Z)
  else
    let mdPath :=
      resolve rt (match v_md values with Some md => md | None => [] end) in
    let fmt := if v_svg values then svg else jpg in
    let mode := if v_files values then files else b64 in
    match Scale.scaleOf (v_scale values) with
    | None =>
        consoleError (lit "Error: --scale must be a number (1-4)") ;;;
        ret (inl 1%Z)
    | Some scale =>
        fun st =>
          if existsSync rt mdPath (world st) then
            ret (inr (Build_Config mdPath fmt mode scale)) st
          else
            (consoleError (lit "Error: path not found: " ++ mdPath) ;;;
             ret (inl 1%Z)) st
    end.

Variable cfg : Config.

(** [collectMarkdownFiles]: the loop over the entries of one directory. *)
Fixpoint collectEntry (dir : str) (entry : Dirent) {struct entry} : list str :=
  match entry with
  | DirEntry name entries =>
      let full := Path.join dir name in
      (fix collect (es : list Dirent) : list str :=
         match es with
         | [] => []
         | e :: es' => collectEntry full e ++ collect es'
         end) entries
  | FileEntry name =>
      let full := Path.join dir name in
      if endsWith name (lit ".md") && negb (includes name (lit "_mermaid2"))
      then [full] else []
  end.

Definition collectMarkdownFiles (dir : str) (entries : list Dirent) : list str :=
  flat_map (collectEntry dir) entries.

Definition initPage (browser : Browser rt) : M rt (Page rt) :=
  page <- call (OpNewPage (scale cfg)) (newPage rt browser (scale cfg)) ;;
  call (OpSetContent PAGE_HTML) (setContent rt page PAGE_HTML) ;;;
  tryCatch
    (call OpWaitForFunction (waitForFunction rt page))
    (fun _ =>
       throw (lit "Mermaid failed to load " ++ [8212%N]
              ++ lit " check your network connection." ++ [LF]
              ++ lit "CDN: " ++ MERMAID_CDN)) ;;;
  ret page.

Definition renderDiagram (page : Page rt) (code : str)
  : M rt (str * option Buffer) :=
  svgHtml <- call (OpEvaluate code) (evaluate rt page code) ;;
  match fmt cfg with
  | jpg =>
      el <- call (OpQuerySelector (lit "svg")) (querySelector rt page (lit "svg")) ;;
      match el with
      | None => throw (lit "SVG element not found after rendering")
      | Some el =>
          shot <- call OpScreenshot (screenshot rt el) ;;
          ret (svgHtml, Some shot)
      end
  | svg => ret (svgHtml, None)
  end.

(** The local names of [processFile]. *)
Definition suffix : str :=
  match fmt cfg with
  | svg => lit "_mermaid2svg"
  | jpg => lit "_mermaid2jpg"
  end.

Definition baseOf (filePath : str) : str :=
  Path.basename filePath (Some (Path.extname filePath)).

Definition mermaidDirOf (filePath : str) : str :=
  Path.join (Path.dirname filePath) (lit "mermaid").

Definition outPathOf (filePath : str) : str :=
  Path.join (Path.dirname filePath)
            (baseOf filePath ++ suffix ++ Path.extname filePath).

Definition fnameOf (filePath : str) (i : nat) : str :=
  baseOf filePath ++ lit "-" ++ ofNat (i + 1) ++ lit ".jpg".

(** Lines 204-218: the render of one diagram and the text that replaces
    it.  Whatever is thrown here is caught by the loop body. *)
Definition renderReplacement (page : Page rt) (filePath : str) (i : nat)
           (code : str) : M rt str :=
  r <- renderDiagram page code ;;
  let '(svgText, shot) := r in
  match fmt cfg with
  | svg => ret ([LF] ++ svgText ++ [LF])
  | jpg =>
      match shot with
      | None => throw (lit "Screenshot capture failed")
      | Some shot =>
          match mode cfg with
          | b64 =>
              let b64text := encode shot in
              ret (lit "![Diagram " ++ ofNat (i + 1)
                   ++ lit "](data:image/jpeg;base64," ++ b64text ++ lit ")")
          | files =>
              let fname := fnameOf filePath i in
              call (OpWriteFile (Path.join (mermaidDirOf filePath) fname) (Bytes shot))
                   (writeFile rt (Path.join (mermaidDirOf filePath) fname) (Bytes shot)) ;;;
              ret (lit "![Diagram " ++ ofNat (i + 1)
                   ++ lit "](./mermaid/" ++ fname ++ lit ")")
          end
      end
  end.

(** Lines 196-225: the body of the loop for index [i]; [acc] holds
    [result] and [failures]. *)
Definition diagramStep (page : Page rt) (filePath : str)
           (matches : list RegExpMatch) (i : nat) (acc : str * nat)
  : M rt (str * nat) :=
  let '(result, failures) := acc in
  match nth_error matches i with
  | None => throw (lit "TypeError: undefined is not an object")
  | Some match_ =>
      match m_1 match_ with
      | None => throw (lit "TypeError: undefined is not an object")
      | Some group1 =>
          let code := trim group1 in
          let start := spanStart match_ in
          let end_ := spanEnd match_ in
          stdoutWrite (lit "  [" ++ ofNat (i + 1) ++ lit "/"
                       ++ ofNat (length matches) ++ lit "] ") ;;;
          tryCatch
            (replacement <- renderReplacement page filePath i code ;;
             let result' := splice result start end_ replacement in
             consoleLog (lit "done") ;;;
             ret (result', failures))
            (fun err =>
               consoleError (lit "failed " ++ [8212%N] ++ lit " " ++ err) ;;;
               ret (result, failures + 1))
      end
  end.

(** [for (let i = matches.length - 1; i >= 0; i--)]: [k] is [i + 1]. *)
Fixpoint diagramLoop (page : Page rt) (filePath : str)
         (matches : list RegExpMatch) (k : nat) (acc : str * nat)
  : M rt (str * nat) :=
  match k with
  | 0 => ret acc
  | S i =>
      acc' <- diagramStep page filePath matches i acc ;;
      diagramLoop page filePath matches i acc'
  end.

Definition processFile (page : Page rt) (filePath : str) : M rt bool :=
  content <- call (OpReadFile filePath) (readFile rt filePath) ;;
  let matches := matchAll content MERMAID_RE in
  if Nat.eqb (length matches) 0 then ret false
  else
    consoleLog ([LF] ++ Path.basename filePath None ++ lit ": "
                ++ ofNat (length matches) ++ lit " diagram(s)") ;;;
    match fmt cfg, mode cfg with
    | jpg, files =>
        call (OpMkdir (mermaidDirOf filePath)) (mkdir rt (mermaidDirOf filePath))
    | _, _ => ret tt
    end ;;;
    acc <- diagramLoop page filePath matches (length matches) (content, 0) ;;
    let '(result, failures) := acc in
    call (OpWriteFile (outPathOf filePath) (Text result))
         (writeFile rt (outPathOf filePath) (Text result)) ;;;
    (if Nat.ltb 0 failures then
       consoleWarn (lit "  Warning: " ++ ofNat failures
                    ++ lit " diagram(s) failed and were left as raw mermaid blocks.")
     else ret tt) ;;;
    consoleLog (lit "  -> " ++ outPathOf filePath) ;;;
    ret true.

(** [for (const file of files)] with the counter [processed]. *)
Fixpoint fileLoop (page : Page rt) (fileList : list str) (processed : nat)
  : M rt nat :=
  match fileList with
  | [] => ret processed
  | file :: rest =>
      b <- processFile page file ;;
      fileLoop page rest (if b then processed + 1 else processed)
  end.

(** The files [main] scans. *)
Definition filesOf (info : Stats) : list str :=
  match info with
  | IsDirectory entries => collectMarkdownFiles (mdPath cfg) entries
  | IsFile => [mdPath cfg]
  end.

Definition main : M rt unit :=
  stderrWrite (BANNER ++ [LF]) ;;;
  info <- call (OpStat (mdPath cfg)) (stat rt (mdPath cfg)) ;;
  let fileList := filesOf info in
  if Nat.eqb (length fileList) 0 then
    consoleLog (lit "No markdown files found.")
  else
    consoleLog (ofNat (length fileList)
                ++ lit " markdown file(s) to scan. Launching browser...") ;;;
    browser <- call OpLaunch (launch rt) ;;
    processed <-
      tryFinally
        (page <- initPage browser ;;
         processed <- fileLoop page fileList 0 ;;
         tryCatch (call OpPageClose (pageClose rt page)) (fun _ => ret tt) ;;;
         ret processed)
        (call OpBrowserClose (browserClose rt browser)) ;;
    consoleLog ([LF] ++ lit "Done. " ++ ofNat processed
                ++ lit " file(s) with diagrams rendered.").

End Program.
End Program.

(** Lines 60-278, the script once [parseArgs] has returned the option
    [values]: the option checks, then [main] with its [catch].  The result
    is the exit status. *)
Definition run (rt : Runtime) (values : Values) : M rt Z :=
  (r <- Program.startup values ;;
   match r with
   | inl code => ret code
   | inr cfg =>
       tryCatch
         (Program.main cfg ;;; ret 0%Z)
         (fun err =>
            Program.consoleError (lit "Fatal: " ++ err) ;;; ret 1%Z)
   end)%monad.

(** Lines 45-58.  [parseArgs] is the library's: called in strict mode it
    throws on an unknown option, on a positional argument and on a string
    option without its value, and this throw stands at the top level of the
    module, where nothing catches it.  [script parseArgs argv] is the whole
    script on the arguments [argv]; [inl err] is the uncaught exception,
    [inr code] the exit status. *)
Definition script (rt : Runtime) (parseArgs : list str -> Error + Values)
                  (argv : list str) : M rt Z :=
  match parseArgs argv with
  | inl err => throw err
  | inr values => run values
  end.

(* ================================================================== *)
(** * A small concrete runtime *)
(* ================================================================== *)

(** A runtime to evaluate the program on: the world is the number of calls
    made so far; every file holds [content]; the renderer answers with
    [render]; a capture is the three bytes of [Man]. *)
Module Demo.

Definition okUnit (w : nat) : nat * (Error + unit) := (S w, inr tt).

Definition demoRuntime (content : str) (listing : Stats)
           (render : str -> Error + str) : Runtime :=
  {| World := nat;
     Browser := unit;
     Page := unit;
     ElementHandle := unit;
     resolve := fun p => p;
     existsSync := fun _ _ => true;
     stat := fun _ w => (S w, inr listing);
     readFile := fun _ w => (S w, inr content);
     writeFile := fun _ _ w => okUnit w;
     mkdir := fun _ w => okUnit w;
     launch := fun w => (S w, inr tt);
     newPage := fun _ _ w => (S w, inr tt);
     setContent := fun _ _ w => okUnit w;
     waitForFunction := fun _ w => okUnit w;
     evaluate := fun _ code w => (S w, render code);
     querySelector := fun _ _ w => (S w, inr (Some tt));
     screenshot := fun _ w => (S w, inr [Byte.x4d; Byte.x61; Byte.x6e]);
     pageClose := fun _ w => okUnit w;
     browserClose := fun _ w => okUnit w |}.

(** The renderer that puts the code between angle brackets, the one that
    throws on the code [A], and the one that always throws. *)
Definition renderAll (code : str) : Error + str :=
  inr (lit "<" ++ code ++ lit ">").

Definition renderButA (code : str) : Error + str :=
  if str_eqb code (lit "A") then inl (lit "Parse error") else renderAll code.

Definition renderNone (code : str) : Error + str := inl (lit "Parse error").

Definition NL : string := String (ascii_of_nat 10) EmptyString.

(** A document with two diagrams, [A] and [B]. *)
Definition twoDiagrams : str :=
  lit ("# T" ++ NL ++ "```mermaid" ++ NL ++ "A" ++ NL ++ "```" ++ NL
       ++ "mid" ++ NL ++ "```mermaid" ++ NL ++ "B" ++ NL ++ "```" ++ NL ++ "end").

Definition start (rt : Runtime) (w : World rt) : State rt := mkSt rt w [].

Definition docPath : str := lit "/docs/a.md".

Definition config (f : Format) (m : Mode) : Config :=
  Build_Config docPath f m 2.

(** Every render succeeds. *)
Definition healthy : Runtime := demoRuntime twoDiagrams IsFile renderAll.

(** The render of the first diagram, [A], throws. *)
Definition failingA : Runtime := demoRuntime twoDiagrams IsFile renderButA.

(** Every render throws. *)
Definition broken : Runtime := demoRuntime twoDiagrams IsFile renderNone.

End Demo.

(* ================================================================== *)
(** * The replacement of spans *)
(* ================================================================== *)

(** What the loop decides for one diagram: the text that replaces it, or
    the failure that leaves it as it is. *)
Inductive Decision : Type :=
| Rendered : str -> Decision
| Failed : Error -> Decision.

Definition decisionOf (r : Error + str) : Decision :=
  match r with
  | inr text => Rendered text
  | inl err => Failed err
  end.

Definition isFailed (d : Decision) : bool :=
  match d with Failed _ => true | Rendered _ => false end.

Definition countFailed (ds : list Decision) : nat := length (filter isFailed ds).

(** The text that stands for a diagram in the output. *)
Definition fillOf (content : str) (m : RegExpMatch) (d : Decision) : str :=
  match d with
  | Rendered text => text
  | Failed _ => slice content (spanStart m) (spanEnd m)
  end.

(** The document read from left to right from [pos] on: the text between
    the spans is copied, every span gives way to its fill. *)
Fixpoint weave (content : str) (pos : nat) (ms : list RegExpMatch)
         (ds : list Decision) : str :=
  match ms, ds with
  | m :: ms', d :: ds' =>
      slice content pos (spanStart m) ++ fillOf content m d
      ++ weave content (spanEnd m) ms' ds'
  | _, _ => slice_from content pos
  end.

(** Spans that lie in [lo, hi], each one ending before the next starts. *)
Fixpoint sortedSpans (lo : nat) (spans : list (nat * nat)) (hi : nat) : Prop :=
  match spans with
  | [] => lo <= hi
  | (s, e) :: rest => lo <= s /\ s <= e /\ sortedSpans e rest hi
  end.

(** A position of the document that no span covers. *)
Definition outsideSpans (ms : list RegExpMatch) (p : nat) : Prop :=
  Forall (fun m => p < spanStart m \/ spanEnd m <= p) ms.

(** Where the character at position [p] of the document, outside the
    spans and at or after [pos], stands in [weave content pos ms ds]: every
    span before it moves it by the length of the fill minus the length of
    the span. *)
Fixpoint weaveIndex (content : str) (pos : nat) (ms : list RegExpMatch)
         (ds : list Decision) (p : nat) : nat :=
  match ms, ds with
  | m :: ms', d :: ds' =>
      if Nat.ltb p (spanStart m) then p - pos
      else (spanStart m - pos) + length (fillOf content m d)
           + weaveIndex content (spanEnd m) ms' ds' p
  | _, _ => p - pos
  end.

(** Where the fill of the diagram with index [k] starts in
    [weave content pos ms ds]. *)
Fixpoint weaveStart (content : str) (pos : nat) (ms : list RegExpMatch)
         (ds : list Decision) (k : nat) : nat :=
  match ms, ds with
  | m :: ms', d :: ds' =>
      match k with
      | 0 => spanStart m - pos
      | S k' => (spanStart m - pos) + length (fillOf content m d)
                + weaveStart content (spanEnd m) ms' ds' k'
      end
  | _, _ => 0
  end.

(** ** Readings of a trace *)

(** The render orchestration in a trace: the progress messages of the loop
    body and the codes handed to the renderer, in the order in which they
    occur. *)
Inductive Orchestration : Type :=
| Progress : str -> Orchestration
| Render : str -> Orchestration.

Definition orchestrationOf (ev : Event) : list Orchestration :=
  match ev with
  | Stdout s => if startsWith s (lit "  [") then [Progress s] else []
  | Call (OpEvaluate code) _ => [Render code]
  | _ => []
  end.

Definition orchestration (tr : list Event) : list Orchestration :=
  flat_map orchestrationOf tr.

(** The progress message of the loop body for index [i], and the code it
    hands to the renderer. *)
Definition progressText (ms : list RegExpMatch) (i : nat) : str :=
  lit "  [" ++ ofNat (i + 1) ++ lit "/" ++ ofNat (length ms) ++ lit "] ".

Definition codeOf (m : RegExpMatch) : str :=
  match m_1 m with
  | Some group1 => trim group1
  | None => []
  end.

Definition codeAt (ms : list RegExpMatch) (i : nat) : str :=
  match nth_error ms i with
  | Some m => codeOf m
  | None => []
  end.

(** The orchestration of the diagrams with the indices [order]. *)
Definition orchestrationIn (ms : list RegExpMatch) (order : list nat)
  : list Orchestration :=
  flat_map (fun i => [Progress (progressText ms i); Render (codeAt ms i)]) order.

(** Document order, first diagram first; and its reverse. *)
Definition forwardOrder (ms : list RegExpMatch) : list nat := seq 0 (length ms).
Definition backwardOrder (ms : list RegExpMatch) : list nat := rev (seq 0 (length ms)).

(** The device scale factors of the pages opened in a trace. *)
Definition newPageScales (tr : list Event) : list Z :=
  flat_map (fun ev => match ev with
                      | Call (OpNewPage s) _ => [s]
                      | _ => []
                      end) tr.

(** The files written in a trace, with the outcome of each write. *)
Definition fileWrites (tr : list Event) : list (str * FileData * bool) :=
  flat_map (fun ev => match ev with
                      | Call (OpWriteFile path data) ok => [(path, data, ok)]
                      | _ => []
                      end) tr.

Unset Implicit Arguments.

(** ** Paths *)

(** A plain segment: a file or folder name as a directory listing gives
    it. *)
Definition noSlash (seg : str) : bool := forallb Path.notSlash seg.

Definition plain (seg : str) : Prop :=
  seg <> [] /\ noSlash seg = true /\ seg <> [Path.DOT] /\ seg <> [Path.DOT; Path.DOT].

(** The absolute, normalized path with the segments [segs]. *)
Definition absPath (segs : list str) : str :=
  Path.SLASH :: JSString.join [Path.SLASH] segs.

(** ** Matches of a pattern *)

Module MatchSpec.

Section Input.

Variable input : str.

(** What a successful run of the matcher has matched: [Matches r x y] holds
    when the pattern [r] can take state [x] to state [y].  The relation
    forgets the order in which the matcher tries the alternatives. *)
Inductive Matches : regex -> MatchState -> MatchState -> Prop :=
| MEmpty : forall x, Matches Empty x x
| MLit : forall ch x,
    nth_error input (endIndex x) = Some ch ->
    Matches (Lit ch) x (mkState (S (endIndex x)) (captures x))
| MClass : forall p ch x,
    nth_error input (endIndex x) = Some ch -> p ch = true ->
    Matches (Class p) x (mkState (S (endIndex x)) (captures x))
| MLineStart : forall x,
    atLineStart input (endIndex x) = true -> Matches LineStart x x
| MLineEnd : forall x,
    atLineEnd input (endIndex x) = true -> Matches LineEnd x x
| MSeq : forall r1 r2 x y z,
    Matches r1 x y -> Matches r2 y z -> Matches (Seq r1 r2) x z
| MGroup : forall n r x y,
    Matches r x y ->
    Matches (Group n r) x (setCapture n (endIndex x, endIndex y) y)
| MStarStop : forall g r x, Matches (Star g r) x x
| MStarStep : forall g r x y z,
    Matches r (clearCaptures (groupsOf r) x) y ->
    endIndex y <> endIndex x ->
    Matches (Star g r) y z ->
    Matches (Star g r) x z.

(** The matcher only calls its continuation to the right of where it
    started and inside the input. *)
Definition agreeFrom (lo : nat) (c1 c2 : Continuation) : Prop :=
  forall y, lo <= endIndex y -> endIndex y <= length input -> c1 y = c2 y.

(** The matches of one iteration, each starting at or after [lastIndex]
    and each one starting where the iterator left [lastIndex]. *)
Fixpoint chained (r : regex) (lastIndex : nat) (l : list (nat * MatchState)) : Prop :=
  match l with
  | [] => True
  | (j, y) :: rest =>
      lastIndex <= j /\ j <= endIndex y /\ endIndex y <= length input /\
      Matches r (mkState j []) y /\
      chained r (if Nat.eqb (endIndex y) j then S (endIndex y) else endIndex y) rest
  end.

(** The text [s] stands in the input at index [i]. *)
Definition textAt (i : nat) (s : str) : Prop :=
  slice input i (i + length s) = s.

End Input.

(** A match from index [j] to state [y] consists of an opening fence line
    starting at [j], a body from [a] to [q], and a closing fence at [q]
    followed by white space only. *)
Definition fenced (input : str) (j : nat) (y : MatchState) : Prop :=
  exists a q,
    captures y = [(1, (a, q))] /\
    atLineStart input j = true /\
    textAt input j (lit "```mermaid") /\
    j + 10 < a /\
    nth_error input (a - 1) = Some LF /\
    (forall k, j + 10 <= k < a - 1 ->
               exists ch, nth_error input k = Some ch /\ ch <> LF) /\
    a <= q /\
    atLineStart input q = true /\
    textAt input q (lit "```") /\
    q + 3 <= endIndex y /\
    (forall k, q + 3 <= k < endIndex y ->
               exists ch, nth_error input k = Some ch /\ isSpace ch = true) /\
    atLineEnd input (endIndex y) = true.

(** Where the closing fence of a match stands: at the end of group 1. *)
Definition closingFence (y : MatchState) : option nat :=
  option_map snd (getCapture 1 (captures y)).

End MatchSpec.
Import MatchSpec.

(** ** Runs of the program *)

Module RunSpec.

Section Body.

Variable rt : Runtime.
Variable cfg : Config.
Variable page : Page rt.
Variable filePath : str.
Variable ms : list RegExpMatch.

(** The states before and after the [try] of the loop body. *)
Definition announce (i : nat) (st : State rt) : State rt :=
  mkSt rt (world st) (trace st ++ [Stdout (progressText ms i)]).

Definition verdict (r : Error + str) : Event :=
  match r with
  | inr _ => Stdout (lit "done" ++ [LF])
  | inl err => Stderr ((lit "failed " ++ [8212%N] ++ lit " " ++ err) ++ [LF])
  end.

Definition conclude (r : Error + str) (st : State rt) : State rt :=
  mkSt rt (world st) (trace st ++ [verdict r]).

(** [Attempts k st ds st']: started in state [st], the loop attempts the
    diagrams [k - 1], ..., [0] in this order, each one once, and ends in
    state [st']; [ds] lists in document order what each attempt gave. *)
Inductive Attempts : nat -> State rt -> list Decision -> State rt -> Prop :=
| AttemptsNil : forall st, Attempts 0 st [] st
| AttemptsStep : forall i m g st st2 r ds st',
    nth_error ms i = Some m ->
    m_1 m = Some g ->
    Program.renderReplacement cfg page filePath i (trim g) (announce i st) = (st2, r) ->
    Attempts i (conclude r st2) ds st' ->
    Attempts (S i) st (ds ++ [decisionOf r]) st'.

End Body.

Section File.

Variable rt : Runtime.
Variable cfg : Config.
Variable filePath : str.

(** The state after a call: the new world and the call recorded. *)
Definition called (st : State rt) (w : World rt) (op : Op) (ok : bool) : State rt :=
  mkSt rt w (trace st ++ [Call op ok]).

Definition printed (st : State rt) (ev : Event) : State rt :=
  mkSt rt (world st) (trace st ++ [ev]).

Definition headerText (n : nat) : str :=
  ([LF] ++ Path.basename filePath None ++ lit ": " ++ ofNat n
   ++ lit " diagram(s)") ++ [LF].

Definition warningText (failures : nat) : str :=
  (lit "  Warning: " ++ ofNat failures
   ++ lit " diagram(s) failed and were left as raw mermaid blocks.") ++ [LF].

Definition arrowText : str := (lit "  -> " ++ Program.outPathOf cfg filePath) ++ [LF].

(** Lines 188-190: the folder for the images. *)
Definition ensureDir (st : State rt) : State rt * (Error + unit) :=
  match fmt cfg, mode cfg with
  | jpg, files =>
      match mkdir rt (Program.mermaidDirOf filePath) (world st) with
      | (w, r) => (called st w (OpMkdir (Program.mermaidDirOf filePath)) (isOk r), r)
      end
  | _, _ => (st, inr tt)
  end.

(** Lines 228-238: the output file and the last messages. *)
Definition finish (result : str) (failures : nat) (st : State rt)
  : State rt * (Error + bool) :=
  let op := OpWriteFile (Program.outPathOf cfg filePath) (Text result) in
  match writeFile rt (Program.outPathOf cfg filePath) (Text result) (world st) with
  | (w, inl e) => (called st w op false, inl e)
  | (w, inr _) =>
      let st1 := called st w op true in
      let st2 := if Nat.ltb 0 failures
                 then printed st1 (Stderr (warningText failures)) else st1 in
      (printed st2 (Stdout arrowText), inr true)
  end.

(** The state in which the loop starts, when the folder could be made. *)
Definition loopStart (st : State rt) (w1 : World rt) (n : nat) (st2 : State rt) : Prop :=
  ensureDir (printed (called st w1 (OpReadFile filePath) true)
                     (Stdout (headerText n))) = (st2, inr tt).

End File.

(** ** The events a computation adds *)

(** [emitsOnly p m]: running [m] only adds events, all of them in [p]. *)
Definition emitsOnly {rt : Runtime} {A} (p : Event -> Prop) (m : M rt A) : Prop :=
  forall st, exists evs,
    trace (fst (m st)) = trace st ++ evs /\ Forall p evs.

(** An event that opens no page. *)
Definition notNewPage (ev : Event) : Prop :=
  match ev with
  | Call (OpNewPage _) _ => False
  | _ => True
  end.

(** An event that is no part of the orchestration. *)
Definition silent (ev : Event) : Prop := orchestrationOf ev = [].

(** At most one page, with the scale [s]. *)
Definition pagesAtMost (s : Z) (evs : list Event) : Prop :=
  newPageScales evs = [] \/ newPageScales evs = [s].

(** [emitsPages s m]: running [m] opens at most one page, with the scale
    [s]. *)
Definition emitsPages {rt : Runtime} {A} (s : Z) (m : M rt A) : Prop :=
  forall st, exists evs,
    trace (fst (m st)) = trace st ++ evs /\ pagesAtMost s evs.

End RunSpec.
Import RunSpec.

(** The sample document in files mode, where the render of its first
    diagram throws. *)
Definition demoLoopStart (render : str -> Error + str) (cfg : Config)
  : State (Demo.demoRuntime Demo.twoDiagrams IsFile render) :=
  let rt := Demo.demoRuntime Demo.twoDiagrams IsFile render in
  fst (ensureDir rt cfg Demo.docPath
         (printed rt (called rt (Demo.start rt 0) 1 (OpReadFile Demo.docPath) true)
                  (Stdout (headerText Demo.docPath 2)))).

(** ** Files in a directory tree *)

(** [ListedFile dir entries full name]: the tree [entries] listed for the
    folder [dir] holds, at any depth, a file named [name] whose path, joined
    folder by folder as the walk does, is [full]. *)
Inductive ListedFile : str -> list Dirent -> str -> str -> Prop :=
| ListedHere : forall dir entries name,
    In (FileEntry name) entries ->
    ListedFile dir entries (Path.join dir name) name
| ListedBelow : forall dir entries sub subEntries full name,
    In (DirEntry sub subEntries) entries ->
    ListedFile (Path.join dir sub) subEntries full name ->
    ListedFile dir entries full name.

(** The test of the walk on a file name. *)
Definition eligible (name : str) : bool :=
  endsWith name (lit ".md") && negb (includes name (lit "_mermaid2")).

(** What one entry contributes. *)
Definition entrySpec (entry : Dirent) : Prop :=
  forall dir full,
    In full (Program.collectEntry dir entry)
    <-> exists name, ListedFile dir [entry] full name /\ eligible name = true.

(* ================================================================== *)
(** * Further vocabulary: blocks, calls and runs *)
(* ================================================================== *)

(** ** Trimmed text *)

(** A text with no white space at either end. *)
Definition startsClean (s : str) : Prop :=
  match s with c :: _ => isSpace c = false | [] => True end.

Definition trimmed (s : str) : Prop := startsClean s /\ startsClean (rev s).

(** ** Closing fence lines *)

(** A closing fence line stands at [k] and reaches to [e]: the fence token
    at the start of a line, then white space only, up to the end of a
    line. *)
Definition closingFenceTo (input : str) (k e : nat) : Prop :=
  atLineStart input k = true /\
  textAt input k (lit "```") /\
  k + 3 <= e /\
  (forall i, k + 3 <= i < e ->
             exists ch, nth_error input i = Some ch /\ isSpace ch = true) /\
  atLineEnd input e = true.

Definition closingFenceAt (input : str) (k : nat) : Prop :=
  exists e, closingFenceTo input k e.

(** The pattern after the opening line, and the pattern of the closing
    fence line. *)
Definition BODY_RE : regex :=
  Group 1 (Star false (Class (fun c => isSpace c || negb (isSpace c)))).

Definition CLOSING_RE : regex :=
  seqOf [ LineStart; lits (lit "```"); Star true (Class isSpace); LineEnd ].

(** ** Documents with a block *)

(** A text after which a line starts: the empty text and a text that ends
    with a line terminator.  A text before which a line ends: the empty text
    and a text that starts with a line terminator. *)
Definition endsLine (s : str) : bool :=
  match rev s with
  | [] => true
  | c :: _ => isLineTerminator c
  end.

Definition startsBreak (s : str) : bool :=
  match s with
  | [] => true
  | c :: _ => isLineTerminator c
  end.

(** A document with a block in it: the opening fence with its info text,
    the body, the closing fence. *)
Definition withBlock (pre info body post : str) : str :=
  pre ++ lit "```mermaid" ++ info ++ [LF] ++ body ++ lit "```" ++ post.

(** ** What the processing of a file may do *)

(** What the loop of [processFile] may do for the file [filePath]: print,
    hand a trimmed code to the renderer, and, in the raster format only,
    query the rendered element, capture it and (with [--files] only) write
    the capture to a numbered image in the folder of the images. *)
Definition loopEvent (cfg : Config) (filePath : str) (ev : Event) : Prop :=
  match ev with
  | Stdout _ | Stderr _ => True
  | Call (OpEvaluate code) _ => trimmed code
  | Call (OpQuerySelector sel) _ => fmt cfg = jpg /\ sel = lit "svg"
  | Call OpScreenshot _ => fmt cfg = jpg
  | Call (OpWriteFile p (Bytes _)) _ =>
      fmt cfg = jpg /\ mode cfg = files /\
      exists i, p = Path.join (Program.mermaidDirOf filePath)
                              (Program.fnameOf filePath i)
  | Call _ _ => False
  end.

(** What [processFile] may do besides: read the file, make the folder of
    the images (with [--files] only) and write the output. *)
Definition fileEvent (cfg : Config) (filePath : str) (ev : Event) : Prop :=
  match ev with
  | Call (OpReadFile p) _ => p = filePath
  | Call (OpMkdir d) _ =>
      fmt cfg = jpg /\ mode cfg = files /\ d = Program.mermaidDirOf filePath
  | Call (OpWriteFile p (Text _)) _ => p = Program.outPathOf cfg filePath
  | _ => loopEvent cfg filePath ev
  end.

(** ** Failures that end the run *)

(** The calls whose failure nothing catches before [main().catch]: the
    calls to the file system other than the writing of an image, and the
    calls that open and close the browser and prepare the page.  The
    failures of the render, of the element query, of the capture and of the
    writing of an image are caught by the loop body; those of
    [page.close()] by its own [catch]. *)
Definition fatalOp (op : Op) : bool :=
  match op with
  | OpStat _ | OpReadFile _ | OpMkdir _ | OpWriteFile _ (Text _)
  | OpLaunch | OpNewPage _ | OpSetContent _ | OpWaitForFunction
  | OpBrowserClose => true
  | OpWriteFile _ (Bytes _) | OpEvaluate _ | OpQuerySelector _
  | OpScreenshot | OpPageClose => false
  end.

Definition isFatal (ev : Event) : bool :=
  match ev with
  | Call op false => fatalOp op
  | _ => false
  end.

(** [faithful m]: [m] throws exactly when one of the calls it made failed
    fatally.  [harmless m]: [m] never throws and none of its calls fails
    fatally. *)
Definition faithful {rt : Runtime} {A} (m : M rt A) : Prop :=
  forall st, exists evs,
    trace (fst (m st)) = trace st ++ evs
    /\ isOk (snd (m st)) = negb (existsb isFatal evs).

Definition harmless {rt : Runtime} {A} (m : M rt A) : Prop :=
  forall st, exists evs,
    trace (fst (m st)) = trace st ++ evs
    /\ existsb isFatal evs = false
    /\ isOk (snd (m st)) = true.

Definition notFatal (ev : Event) : Prop := isFatal ev = false.

(** ** The life of the browser *)

Definition isPrint (ev : Event) : Prop :=
  match ev with
  | Call _ _ => False
  | _ => True
  end.

(** The calls to the browser and to its page. *)
Definition browserOp (op : Op) : bool :=
  match op with
  | OpLaunch | OpNewPage _ | OpSetContent _ | OpWaitForFunction
  | OpEvaluate _ | OpQuerySelector _ | OpScreenshot
  | OpPageClose | OpBrowserClose => true
  | OpStat _ | OpReadFile _ | OpWriteFile _ _ | OpMkdir _ => false
  end.

Definition browserFree (ev : Event) : Prop :=
  match ev with
  | Call op _ => browserOp op = false
  | _ => True
  end.

(** What may happen while the browser is open. *)
Definition inSession (ev : Event) : Prop :=
  match ev with
  | Call OpLaunch _ | Call OpBrowserClose _ => False
  | _ => True
  end.

(** From the closing of the browser on: the events before it belong to the
    session, after it there are only messages. *)
Definition sessionEnd (evs : list Event) : Prop :=
  exists mid ok post,
    evs = mid ++ Call OpBrowserClose ok :: post
    /\ Forall inSession mid /\ Forall isPrint post.

(** The three lives of a run: the browser is never asked for; the launch
    fails and only messages follow; the browser is launched, used, closed
    once, and only messages follow. *)
Definition lifecycle (evs : list Event) : Prop :=
  Forall browserFree evs
  \/ (exists pre post,
         evs = pre ++ Call OpLaunch false :: post
         /\ Forall browserFree pre /\ Forall isPrint post)
  \/ (exists pre rest,
         evs = pre ++ Call OpLaunch true :: rest
         /\ Forall browserFree pre /\ sessionEnd rest).

(** [runs shape m]: running [m] only adds events, and they have the
    [shape]. *)
Definition runs {rt : Runtime} {A} (shape : list Event -> Prop) (m : M rt A) : Prop :=
  forall st, exists evs,
    trace (fst (m st)) = trace st ++ evs /\ shape evs.

(** ** Sample runtimes and readings of a trace *)

(** The sample runtime on a folder that holds the listing [entries]. *)
Definition folderOf (entries : list Dirent) : Runtime :=
  Demo.demoRuntime Demo.twoDiagrams (IsDirectory entries) Demo.renderAll.

(** The sample runtime in which Mermaid never loads into the page. *)
Definition offline : Runtime :=
  let rt := Demo.healthy in
  {| World := World rt;
     Browser := Browser rt;
     Page := Page rt;
     ElementHandle := ElementHandle rt;
     resolve := resolve rt;
     existsSync := existsSync rt;
     stat := stat rt;
     readFile := readFile rt;
     writeFile := writeFile rt;
     mkdir := mkdir rt;
     launch := launch rt;
     newPage := newPage rt;
     setContent := setContent rt;
     waitForFunction := fun _ w => (S w, inl (lit "Timeout 30000ms exceeded"));
     evaluate := evaluate rt;
     querySelector := querySelector rt;
     screenshot := screenshot rt;
     pageClose := pageClose rt;
     browserClose := browserClose rt |}.

(** The output files written in a trace. *)
Definition isOutputWrite (ev : Event) : bool :=
  match ev with
  | Call (OpWriteFile _ (Text _)) true => true
  | _ => false
  end.

Definition outputsWritten (tr : list Event) : nat :=
  length (filter isOutputWrite tr).

(** The files read in a trace, in the order of the reads. *)
Definition filesRead (tr : list Event) : list str :=
  flat_map (fun ev => match ev with
                      | Call (OpReadFile path) _ => [path]
                      | _ => []
                      end) tr.

(** An event that neither reads a file nor writes an output. *)
Definition idle (ev : Event) : Prop :=
  filesRead [ev] = [] /\ isOutputWrite ev = false.

(** [account fileList m]: [m] reads the files of [fileList] in order, all
    of them when it returns, and it returns the number of outputs it has
    written. *)
Definition account {rt : Runtime} (fileList : list str) (m : M rt nat) : Prop :=
  forall st, exists evs,
    trace (fst (m st)) = trace st ++ evs
    /\ (exists rest, fileList = filesRead evs ++ rest
                     /\ (isOk (snd (m st)) = true -> rest = []))
    /\ match snd (m st) with
       | inr k => k = outputsWritten evs
       | inl _ => True
       end.

(** The last message of [main]. *)
Definition doneText (processed : nat) : str :=
  [LF] ++ lit "Done. " ++ ofNat processed ++ lit " file(s) with diagrams rendered.".

(** The message of [initPage] when Mermaid does not load. *)
Definition LOAD_FAILURE : str :=
  lit "Mermaid failed to load " ++ [8212%N]
  ++ lit " check your network connection." ++ [LF]
  ++ lit "CDN: " ++ MERMAID_CDN.

(** Whether the browser has been launched in a trace. *)
Definition launched (tr : list Event) : bool :=
  existsb (fun ev => match ev with
                     | Call OpLaunch true => true
                     | _ => false
                     end) tr.

(** ** The scale as the claim words it *)

(** The claim speaks of numeric values of [--scale].  This module spells
    that reading out without [parseInt]: the number that a decimal numeral
    denotes, as [Number(s)] gives it, and the scale the claim promises for
    it. *)
Module ScaleClaim.
Import QArith_base Qreduction.









End ScaleClaim.


(* ================================================================== *)
(** * Facts about strings *)
(* ================================================================== *)

Module JSStringFacts.

Lemma char_eqb_eq (a b : char) : char_eqb a b = true <-> a = b.
Proof. unfold char_eqb. apply N.eqb_eq. Qed.

Lemma char_eqb_refl (a : char) : char_eqb a a = true.
Proof. apply char_eqb_eq. reflexivity. Qed.

Lemma str_eqb_eq (a b : str) : str_eqb a b = true <-> a = b.
Proof.
  revert b. induction a as [|x a IH]; intros [|y b]; simpl; split; intro H;
    try reflexivity; try discriminate.
  - apply andb_true_iff in H. destruct H as [Hx Ha].
    apply char_eqb_eq in Hx. apply IH in Ha. congruence.
  - injection H as -> ->. rewrite char_eqb_refl. simpl. apply IH. reflexivity.
Qed.

Lemma str_eqb_refl (a : str) : str_eqb a a = true.
Proof. apply str_eqb_eq. reflexivity. Qed.

Lemma startsWith_iff (s p : str) :
  startsWith s p = true <-> exists t, s = p ++ t.
Proof.
  revert s. induction p as [|x p IH]; intros s; simpl.
  - split; [intros _; exists s; reflexivity | reflexivity].
  - destruct s as [|y s].
    + split; [discriminate | intros [t Ht]; discriminate].
    + rewrite andb_true_iff, char_eqb_eq, IH. split.
      * intros [-> [t ->]]. exists t. reflexivity.
      * intros [t Ht]. injection Ht as -> ->. split; [reflexivity | eauto].
Qed.

Lemma endsWith_iff (s p : str) :
  endsWith s p = true <-> exists t, s = t ++ p.
Proof.
  unfold endsWith. rewrite startsWith_iff. split; intros [t Ht].
  - exists (rev t). rewrite <- (rev_involutive s), Ht, rev_app_distr.
    rewrite rev_involutive. reflexivity.
  - exists (rev t). rewrite Ht, rev_app_distr. reflexivity.
Qed.

Lemma includes_iff (s p : str) :
  includes s p = true <-> exists a b, s = a ++ p ++ b.
Proof.
  induction s as [|c s IH]; simpl.
  - rewrite orb_false_r, startsWith_iff. split.
    + intros [t Ht]. exists [], t. exact Ht.
    + intros [a [b H]]. destruct a; simpl in H.
      * exists b. exact H.
      * discriminate.
  - rewrite orb_true_iff, IH, startsWith_iff. split.
    + intros [[t Ht] | [a [b H]]].
      * exists [], t. exact Ht.
      * exists (c :: a), b. simpl. rewrite H. reflexivity.
    + intros [a [b H]]. destruct a as [|c' a]; simpl in H.
      * left. exists b. exact H.
      * right. injection H as _ H. exists a, b. exact H.
Qed.

Lemma slice_length (s : str) (a b : nat) :
  b <= length s -> length (slice s a b) = b - a.
Proof.
  intros H. unfold slice. rewrite length_firstn, length_skipn. lia.
Qed.

Lemma slice_0 (s : str) (b : nat) : slice s 0 b = firstn b s.
Proof. unfold slice. simpl. rewrite Nat.sub_0_r. reflexivity. Qed.

Lemma firstn_plus {A} (a b : nat) (l : list A) :
  firstn (a + b) l = firstn a l ++ firstn b (skipn a l).
Proof.
  revert l. induction a as [|a IH]; intros l; simpl.
  - reflexivity.
  - destruct l as [|x l]; simpl.
    + rewrite firstn_nil. reflexivity.
    + rewrite IH. reflexivity.
Qed.

Lemma slice_app_slice (s : str) (a b c : nat) :
  a <= b -> b <= c -> slice s a b ++ slice s b c = slice s a c.
Proof.
  intros Hab Hbc. unfold slice.
  replace (c - a) with ((b - a) + (c - b)) by lia.
  rewrite firstn_plus, skipn_skipn.
  replace (b - a + a) with b by lia. reflexivity.
Qed.

Lemma slice_to_end (s : str) (a : nat) :
  slice s a (length s) = slice_from s a.
Proof.
  unfold slice, slice_from. apply firstn_all2. rewrite length_skipn. lia.
Qed.

Lemma splitOn_nonempty sep s : splitOn sep s <> [].
Proof.
  destruct s as [|c s]; simpl; [discriminate|].
  destruct (char_eqb c sep); [discriminate|].
  destruct (splitOn sep s); discriminate.
Qed.

(** A separator at the end opens one more, empty, piece. *)
Lemma splitOn_app_sep sep s : splitOn sep (s ++ [sep]) = splitOn sep s ++ [[]].
Proof.
  induction s as [|c s IH]; simpl.
  - rewrite char_eqb_refl. reflexivity.
  - rewrite IH. destruct (char_eqb c sep); [reflexivity|].
    pose proof (splitOn_nonempty sep s) as Hne.
    destruct (splitOn sep s) as [|h t]; [congruence | reflexivity].
Qed.

Lemma splitOn_sep_cons sep s : splitOn sep (sep :: s) = [] :: splitOn sep s.
Proof. simpl. rewrite char_eqb_refl. reflexivity. Qed.

End JSStringFacts.
Import JSStringFacts.

(* ================================================================== *)
(** * Facts about paths *)
(* ================================================================== *)

Module PathFacts.
Import Path.

Lemma join_snoc (sep : str) (segs : list str) (x : str) :
  segs <> [] ->
  JSString.join sep (segs ++ [x]) = JSString.join sep segs ++ sep ++ x.
Proof.
  induction segs as [|a segs IH]; intros Hne; [congruence|].
  destruct segs as [|b segs].
  - reflexivity.
  - change (JSString.join sep ((a :: b :: segs) ++ [x]))
      with (a ++ sep ++ JSString.join sep ((b :: segs) ++ [x])).
    rewrite IH by discriminate.
    change (JSString.join sep (a :: b :: segs))
      with (a ++ sep ++ JSString.join sep (b :: segs)).
    rewrite <- !app_assoc. reflexivity.
Qed.

Lemma join_snoc_slash (segs : list str) (x : str) :
  segs <> [] ->
  JSString.join [SLASH] (segs ++ [x]) = JSString.join [SLASH] segs ++ SLASH :: x.
Proof. intros H. rewrite join_snoc by exact H. reflexivity. Qed.

Lemma absPath_snoc (segs : list str) (f : str) :
  absPath (segs ++ [f])
  = match segs with [] => [] | _ :: _ => absPath segs end ++ SLASH :: f.
Proof.
  unfold absPath. destruct segs as [|a segs]; [reflexivity|].
  rewrite join_snoc by discriminate. reflexivity.
Qed.

Lemma dropWhile_app_all p a b :
  forallb p a = true -> dropWhile p (a ++ b) = dropWhile p b.
Proof.
  induction a as [|c a IH]; simpl; intros H; [reflexivity|].
  apply andb_true_iff in H. destruct H as [Hc Ha]. rewrite Hc. auto.
Qed.

Lemma takeWhile_app_stop p a c b :
  forallb p a = true -> p c = false -> takeWhile p (a ++ c :: b) = a.
Proof.
  induction a as [|x a IH]; simpl; intros H Hc.
  - rewrite Hc. reflexivity.
  - apply andb_true_iff in H. destruct H as [Hx Ha]. rewrite Hx, IH; auto.
Qed.

Lemma takeWhile_all p a : forallb p a = true -> takeWhile p a = a.
Proof.
  induction a as [|x a IH]; simpl; intros H; [reflexivity|].
  apply andb_true_iff in H. destruct H as [Hx Ha]. rewrite Hx, IH; auto.
Qed.

Lemma dropWhile_all p a : forallb p a = true -> dropWhile p a = [].
Proof.
  intros H. rewrite <- (app_nil_r a), dropWhile_app_all by exact H. reflexivity.
Qed.

Lemma dropWhile_stop p a :
  match a with c :: _ => p c = false | [] => True end -> dropWhile p a = a.
Proof. destruct a as [|c a]; simpl; [reflexivity|]. intros ->. reflexivity. Qed.

Lemma forallb_rev {A} (p : A -> bool) (l : list A) :
  forallb p (rev l) = forallb p l.
Proof.
  induction l as [|x l IH]; simpl; [reflexivity|].
  rewrite forallb_app, IH. simpl. rewrite andb_true_r. apply andb_comm.
Qed.

(** The reverse of a non-empty name without separators starts with a
    character that is no separator. *)
Lemma rev_name_head (f : str) :
  f <> [] -> noSlash f = true ->
  match rev f with c :: _ => isSlash c = false | [] => True end.
Proof.
  intros Hne Hns. unfold noSlash in Hns. rewrite <- forallb_rev in Hns.
  destruct (rev f) as [|c r] eqn:Hr; [exact I|].
  simpl in Hns. apply andb_true_iff in Hns. destruct Hns as [Hc _].
  unfold notSlash in Hc. apply negb_true_iff in Hc. exact Hc.
Qed.

Lemma lastComponent_snoc (pre f : str) :
  f <> [] -> noSlash f = true -> lastComponent (pre ++ SLASH :: f) = f.
Proof.
  intros Hne Hns. unfold lastComponent.
  rewrite rev_app_distr. simpl rev. rewrite <- !app_assoc. simpl.
  rewrite (dropWhile_stop isSlash (rev f ++ SLASH :: rev pre)).
  - rewrite takeWhile_app_stop; [apply rev_involutive | | reflexivity].
    unfold noSlash in Hns. rewrite forallb_rev. exact Hns.
  - pose proof (rev_name_head f Hne Hns) as Hh.
    destruct (rev f) as [|c r] eqn:Hr; [|exact Hh].
    apply (f_equal (@rev char)) in Hr. rewrite rev_involutive in Hr.
    simpl in Hr. congruence.
Qed.

Lemma lastComponent_absPath (segs : list str) (f : str) :
  f <> [] -> noSlash f = true -> lastComponent (absPath (segs ++ [f])) = f.
Proof.
  intros Hne Hns. rewrite absPath_snoc. apply lastComponent_snoc; assumption.
Qed.

Lemma join_nonempty (segs : list str) :
  segs <> [] -> Forall plain segs -> JSString.join [SLASH] segs <> [].
Proof.
  intros Hne Hp. destruct segs as [|a segs]; [congruence|].
  inversion Hp as [|a' segs' [Ha _] _]; subst.
  destruct a as [|c a]; [congruence|].
  destruct segs; simpl; discriminate.
Qed.

Lemma dirname_absPath (segs : list str) (f : str) :
  Forall plain segs -> f <> [] -> noSlash f = true ->
  dirname (absPath (segs ++ [f])) = absPath segs.
Proof.
  intros Hp Hne Hns.
  pose proof (rev_name_head f Hne Hns) as Hh.
  assert (Hrev : forallb notSlash (rev f) = true)
    by (rewrite forallb_rev; exact Hns).
  assert (Hrf : rev f <> []).
  { intros Hr. apply (f_equal (@rev char)) in Hr. rewrite rev_involutive in Hr.
    simpl in Hr. congruence. }
  rewrite absPath_snoc. destruct segs as [|a segs].
  - simpl. unfold dirname.
    rewrite (dropWhile_stop isSlash (rev f)) by exact Hh.
    rewrite dropWhile_all by exact Hrev. reflexivity.
  - pose proof (join_nonempty (a :: segs) ltac:(discriminate) Hp) as Hj.
    unfold absPath in *. remember (JSString.join [SLASH] (a :: segs)) as J eqn:HJ.
    clear HJ. change ((SLASH :: J) ++ SLASH :: f) with (SLASH :: (J ++ SLASH :: f)).
    unfold dirname.
    rewrite rev_app_distr. change (rev (SLASH :: f)) with (rev f ++ [SLASH]).
    rewrite <- !app_assoc. change ([SLASH] ++ rev J) with (SLASH :: rev J).
    rewrite (dropWhile_stop isSlash (rev f ++ _)).
    + rewrite dropWhile_app_all by exact Hrev.
      change (dropWhile notSlash (SLASH :: rev J)) with (SLASH :: rev J).
      cbv iota. rewrite length_rev.
      destruct J as [|c J]; [congruence|]. cbn [length Nat.eqb].
      rewrite andb_false_r. rewrite rev_involutive. reflexivity.
    + destruct (rev f) as [|c r]; [congruence | exact Hh].
Qed.

(** ** [join] on normalized paths *)

Lemma splitOn_no_sep (x : str) : noSlash x = true -> split x = [x].
Proof.
  unfold split, noSlash. induction x as [|c x IH]; simpl; intros H; [reflexivity|].
  apply andb_true_iff in H. destruct H as [Hc Hx].
  unfold notSlash, isSlash in Hc. apply negb_true_iff in Hc. rewrite Hc.
  rewrite IH by exact Hx. reflexivity.
Qed.

Lemma splitOn_app_slash (x s : str) :
  noSlash x = true -> split (x ++ SLASH :: s) = x :: split s.
Proof.
  unfold split, noSlash. induction x as [|c x IH]; simpl; intros H.
  - reflexivity.
  - apply andb_true_iff in H. destruct H as [Hc Hx].
    unfold notSlash, isSlash in Hc. apply negb_true_iff in Hc. rewrite Hc.
    rewrite IH by exact Hx. reflexivity.
Qed.

Lemma split_join (segs : list str) :
  segs <> [] -> Forall plain segs -> split (JSString.join [SLASH] segs) = segs.
Proof.
  induction segs as [|a segs IH]; intros Hne Hp; [congruence|].
  inversion Hp as [|a' segs' [_ [Ha _]] Hrest]; subst.
  destruct segs as [|b segs].
  - apply splitOn_no_sep. exact Ha.
  - change (JSString.join [SLASH] (a :: b :: segs))
      with (a ++ SLASH :: JSString.join [SLASH] (b :: segs)).
    rewrite splitOn_app_slash by exact Ha.
    rewrite IH; [reflexivity | discriminate | exact Hrest].
Qed.

Lemma plain_eqb (seg : str) :
  plain seg ->
  str_eqb seg [] = false /\ str_eqb seg [DOT] = false
  /\ str_eqb seg [DOT; DOT] = false.
Proof.
  intros [H1 [_ [H2 H3]]].
  repeat split; apply not_true_iff_false; rewrite str_eqb_eq; assumption.
Qed.

Lemma normalizeSegments_plain b : forall segs acc,
  Forall plain segs -> normalizeSegments b segs acc = rev acc ++ segs.
Proof.
  induction segs as [|seg segs IH]; intros acc Hp; simpl.
  - rewrite app_nil_r. reflexivity.
  - inversion Hp as [|seg' segs' Hseg Hrest]; subst.
    destruct (plain_eqb seg Hseg) as [E1 [E2 E3]].
    rewrite E1, E2, E3. simpl. rewrite IH by exact Hrest.
    simpl. rewrite <- app_assoc. reflexivity.
Qed.

Lemma lastChar_snoc_name (pre f : str) :
  f <> [] -> noSlash f = true ->
  match lastChar (pre ++ f) with Some c => isSlash c | None => false end = false.
Proof.
  intros Hne Hns. unfold lastChar. rewrite rev_app_distr.
  pose proof (rev_name_head f Hne Hns) as Hh.
  destruct (rev f) as [|c r] eqn:Hr.
  - apply (f_equal (@rev char)) in Hr. rewrite rev_involutive in Hr.
    exact (False_ind _ (Hne Hr)).
  - simpl. exact Hh.
Qed.

Lemma normalize_absolute (path : str) (segs : list str) :
  startsWith path [SLASH] = true ->
  normalizeSegments false (split path) [] = segs ->
  JSString.join [SLASH] segs <> [] ->
  match lastChar path with Some c => isSlash c | None => false end = false ->
  normalize path = absPath segs.
Proof.
  intros Habs Hn Hj Ht. unfold normalize, absPath.
  destruct path as [|c0 rest]; [discriminate|].
  simpl in Habs. rewrite andb_true_r in Habs.
  assert (Hc : isSlash c0 = true).
  { unfold isSlash. rewrite <- Habs. unfold char_eqb. apply N.eqb_sym. }
  cbv zeta. rewrite Hc. cbn [negb]. rewrite Hn, Ht.
  destruct (JSString.join [SLASH] segs) as [|c r]; [congruence | reflexivity].
Qed.

(** Joining a name to a normalized absolute folder appends one segment. *)
Lemma join_absPath (segs : list str) (x : str) :
  Forall plain segs -> plain x ->
  Path.join (absPath segs) x = absPath (segs ++ [x]).
Proof.
  intros Hp Hx. destruct (plain_eqb x Hx) as [E1 _].
  destruct Hx as [Hne [Hns Hx']].
  unfold Path.join. simpl filter. rewrite E1. simpl negb. cbv iota.
  change (JSString.join [SLASH] [absPath segs; x])
    with (absPath segs ++ SLASH :: x).
  assert (Hsplit : split (absPath segs ++ SLASH :: x) = [] :: match segs with
                                                              | [] => [[]; x]
                                                              | _ => segs ++ [x]
                                                              end).
  { unfold absPath. simpl app. unfold split. rewrite splitOn_sep_cons.
    fold (split (JSString.join [SLASH] segs ++ SLASH :: x)). f_equal.
    destruct segs as [|a segs].
    - simpl. unfold split. rewrite splitOn_sep_cons. f_equal.
      apply splitOn_no_sep. exact Hns.
    - rewrite <- (join_snoc_slash (a :: segs) x) by discriminate.
      apply split_join; [destruct segs; discriminate|].
      apply Forall_app. split; [exact Hp|]. constructor; [|constructor].
      repeat split; tauto. }
  assert (Hnorm : normalizeSegments false (split (absPath segs ++ SLASH :: x)) []
                  = segs ++ [x]).
  { rewrite Hsplit. destruct segs as [|a segs].
    - simpl. rewrite E1.
      destruct (plain_eqb x (conj Hne (conj Hns Hx'))) as [_ [E2 E3]].
      rewrite E2, E3. reflexivity.
    - change (normalizeSegments false ([] :: (a :: segs) ++ [x]) [])
        with (normalizeSegments false ((a :: segs) ++ [x]) []).
      rewrite normalizeSegments_plain; [reflexivity|].
      apply Forall_app. split; [exact Hp|]. constructor; [|constructor].
      repeat split; tauto. }
  assert (Hj : JSString.join [SLASH] (segs ++ [x]) <> []).
  { destruct segs as [|a segs]; [exact Hne|].
    rewrite join_snoc_slash by discriminate. intros H.
    apply app_eq_nil in H. destruct H as [_ H]. discriminate. }
  assert (Htrail : match lastChar (absPath segs ++ SLASH :: x) with
                   | Some c => isSlash c
                   | None => false
                   end = false).
  { replace (absPath segs ++ SLASH :: x) with ((absPath segs ++ [SLASH]) ++ x)
      by (rewrite <- app_assoc; reflexivity).
    apply lastChar_snoc_name; assumption. }
  apply normalize_absolute; [reflexivity | exact Hnorm | exact Hj | exact Htrail].
Qed.

(** ** Base name and extension *)

Lemma extname_name_ext (path name e : str) :
  lastComponent path = name ++ DOT :: e ->
  name <> [] -> forallb notDot e = true -> name ++ DOT :: e <> [DOT; DOT] ->
  extname path = DOT :: e.
Proof.
  intros Hlc Hname He Hdd. unfold extname. rewrite Hlc.
  rewrite rev_app_distr. change (rev (DOT :: e)) with (rev e ++ [DOT]).
  rewrite <- app_assoc. change ([DOT] ++ rev name) with (DOT :: rev name).
  assert (Hre : forallb notDot (rev e) = true) by (rewrite forallb_rev; exact He).
  rewrite dropWhile_app_all by exact Hre.
  change (dropWhile notDot (DOT :: rev name)) with (DOT :: rev name).
  cbv iota. rewrite length_rev.
  destruct name as [|c name]; [congruence|]. cbn [length Nat.eqb orb].
  replace (str_eqb ((c :: name) ++ DOT :: e) [DOT; DOT]) with false
    by (symmetry; apply not_true_iff_false; rewrite str_eqb_eq; exact Hdd).
  rewrite takeWhile_app_stop by (exact Hre || reflexivity).
  rewrite rev_involutive. reflexivity.
Qed.

Lemma basename_name_ext (path name e : str) :
  lastComponent path = name ++ DOT :: e ->
  name <> [] ->
  basename path (Some (DOT :: e)) = name.
Proof.
  intros Hlc Hname. unfold basename. rewrite Hlc.
  assert (H1 : endsWith (name ++ DOT :: e) (DOT :: e) = true)
    by (apply endsWith_iff; exists name; reflexivity).
  assert (H2 : str_eqb (name ++ DOT :: e) (DOT :: e) = false).
  { apply not_true_iff_false. rewrite str_eqb_eq. intros H.
    apply (f_equal (@length char)) in H. rewrite length_app in H.
    destruct name; [congruence | simpl in H; lia]. }
  rewrite H1, H2. cbn [str_eqb negb andb].
  rewrite length_app.
  replace (length name + length (DOT :: e) - length (DOT :: e)) with (length name) by lia.
  rewrite firstn_app, Nat.sub_diag, firstn_all. simpl. apply app_nil_r.
Qed.

(** ** The digits of a number *)

Lemma string_of_uint_digits (d : Decimal.uint) :
  forallb Scale.isDigit (lit (DecimalString.NilEmpty.string_of_uint d)) = true.
Proof. induction d; simpl; auto. Qed.

Lemma ofNat_digits (n : nat) : forallb Scale.isDigit (ofNat n) = true.
Proof.
  unfold ofNat, DecimalString.NilZero.string_of_uint.
  destruct (Nat.to_uint n) eqn:E; try reflexivity;
    rewrite <- E at 1; try (rewrite E; apply string_of_uint_digits).
Qed.

Lemma digits_noSlash (s : str) : forallb Scale.isDigit s = true -> noSlash s = true.
Proof.
  unfold noSlash. induction s as [|c s IH]; simpl; intros H; [reflexivity|].
  apply andb_true_iff in H. destruct H as [Hc Hs]. rewrite IH by exact Hs.
  rewrite andb_true_r. unfold Scale.isDigit in Hc.
  apply andb_true_iff in Hc. destruct Hc as [Hlo Hhi].
  apply N.leb_le in Hlo. unfold notSlash, isSlash, char_eqb, SLASH.
  apply negb_true_iff. apply N.eqb_neq. intros ->. lia.
Qed.

Lemma noSlash_app (a b : str) : noSlash (a ++ b) = noSlash a && noSlash b.
Proof. apply forallb_app. Qed.

End PathFacts.

(* ================================================================== *)
(** * Facts about the matcher *)
(* ================================================================== *)

Module RegExpFacts.

Section Input.

Variable input : str.

Local Abbreviation Matches := (MatchSpec.Matches input).
Local Abbreviation agreeFrom := (MatchSpec.agreeFrom input).
Local Abbreviation chained := (MatchSpec.chained input).
Local Abbreviation textAt := (MatchSpec.textAt input).

Lemma charMatcher_sound p x c z :
  charMatcher input p x c = Some z ->
  exists ch, nth_error input (endIndex x) = Some ch /\ p ch = true /\
             c (mkState (S (endIndex x)) (captures x)) = Some z.
Proof.
  unfold charMatcher. destruct (nth_error input (endIndex x)) as [ch|]; [|discriminate].
  destruct (p ch) eqn:Hp; [|discriminate].
  intros H. exists ch. auto.
Qed.

Lemma repeatMatcher_sound r g c z :
  (forall x d, matcher input r x d = Some z ->
               exists y, Matches r x y /\ d y = Some z) ->
  forall fuel x,
    repeatMatcher (matcher input r) g (groupsOf r) c fuel x = Some z ->
    exists y, Matches (Star g r) x y /\ c y = Some z.
Proof.
  intros IHr. induction fuel as [|fuel IH]; intros x H; simpl in H; [discriminate|].
  assert (Hbody :
    matcher input r (clearCaptures (groupsOf r) x)
      (fun y => if Nat.eqb (endIndex y) (endIndex x) then None
                else repeatMatcher (matcher input r) g (groupsOf r) c fuel y) = Some z ->
    exists y, Matches (Star g r) x y /\ c y = Some z).
  { intros Hm. apply IHr in Hm. destruct Hm as [y [Hy Hd]].
    destruct (Nat.eqb (endIndex y) (endIndex x)) eqn:He; [discriminate|].
    apply Nat.eqb_neq in He. apply IH in Hd. destruct Hd as [y' [Hy' Hc]].
    exists y'. split; [|exact Hc]. eapply MStarStep; eauto. }
  destruct g.
  - destruct (matcher input r (clearCaptures (groupsOf r) x) _) eqn:Hm.
    + injection H as ->. apply Hbody. reflexivity.
    + exists x. split; [constructor | exact H].
  - destruct (c x) eqn:Hc.
    + injection H as ->. exists x. split; [constructor | exact Hc].
    + apply Hbody. exact H.
Qed.

(** Soundness: a result of the matcher is a result of its continuation at
    a state the pattern leads to. *)
Lemma matcher_sound r : forall x c z,
  matcher input r x c = Some z ->
  exists y, Matches r x y /\ c y = Some z.
Proof.
  induction r as [ | ch | p | | | r1 IH1 r2 IH2 | g r IH | n r IH ];
    intros x c z H; [simpl in H .. | | simpl in H].
  - exists x. split; [constructor | exact H].
  - apply charMatcher_sound in H. destruct H as [ch' [Hn [Hp Hc]]].
    apply char_eqb_eq in Hp. subst ch'. eexists. split; [constructor; eauto | exact Hc].
  - apply charMatcher_sound in H. destruct H as [ch' [Hn [Hp Hc]]].
    eexists. split; [econstructor; eauto | exact Hc].
  - destruct (atLineStart input (endIndex x)) eqn:E; [|discriminate].
    exists x. split; [constructor; exact E | exact H].
  - destruct (atLineEnd input (endIndex x)) eqn:E; [|discriminate].
    exists x. split; [constructor; exact E | exact H].
  - apply IH1 in H. destruct H as [y [Hy H]].
    apply IH2 in H. destruct H as [y' [Hy' H]].
    exists y'. split; [econstructor; eauto | exact H].
  - change (repeatMatcher (matcher input r) g (groupsOf r) c
                           (S (length input - endIndex x)) x = Some z) in H.
    eapply repeatMatcher_sound; [ intros x' d Hm; apply IH; exact Hm | exact H ].
  - apply IH in H. destruct H as [y [Hy H]].
    eexists. split; [constructor; exact Hy | exact H].
Qed.

(** A match never moves to the left and never leaves the input. *)
Lemma Matches_endIndex r x y :
  Matches r x y -> endIndex x <= endIndex y.
Proof.
  induction 1; simpl in *; lia.
Qed.

Lemma Matches_in_input r x y :
  Matches r x y -> endIndex x <= length input -> endIndex y <= length input.
Proof.
  induction 1; simpl in *; intros Hx; auto.
  - apply Nat.le_succ_l. apply nth_error_Some. congruence.
  - apply Nat.le_succ_l. apply nth_error_Some. congruence.
Qed.

Lemma repeatMatcher_ext r g :
  (forall x c1 c2, endIndex x <= length input -> agreeFrom (endIndex x) c1 c2 ->
                   matcher input r x c1 = matcher input r x c2) ->
  forall fuel x c1 c2,
    endIndex x <= length input -> agreeFrom (endIndex x) c1 c2 ->
    repeatMatcher (matcher input r) g (groupsOf r) c1 fuel x
    = repeatMatcher (matcher input r) g (groupsOf r) c2 fuel x.
Proof.
  intros IHr. induction fuel as [|fuel IH]; intros x c1 c2 Hx Hc; simpl; [reflexivity|].
  rewrite (Hc x (Nat.le_refl _) Hx).
  rewrite (IHr (clearCaptures (groupsOf r) x)
               (fun y => if Nat.eqb (endIndex y) (endIndex x) then None
                         else repeatMatcher (matcher input r) g (groupsOf r) c1 fuel y)
               (fun y => if Nat.eqb (endIndex y) (endIndex x) then None
                         else repeatMatcher (matcher input r) g (groupsOf r) c2 fuel y)).
  - reflexivity.
  - exact Hx.
  - intros y Hlo Hhi. simpl in Hlo.
    destruct (Nat.eqb (endIndex y) (endIndex x)); [reflexivity|].
    apply IH; [exact Hhi|].
    intros y' Hlo' Hhi'. apply Hc; [lia | exact Hhi'].
Qed.

Lemma matcher_ext r : forall x c1 c2,
  endIndex x <= length input -> agreeFrom (endIndex x) c1 c2 ->
  matcher input r x c1 = matcher input r x c2.
Proof.
  induction r as [ | ch | p | | | r1 IH1 r2 IH2 | g r IH | n r IH ];
    intros x c1 c2 Hx Hc.
  - simpl. apply Hc; [lia | exact Hx].
  - simpl. unfold charMatcher.
    destruct (nth_error input (endIndex x)) as [c|] eqn:Hn; [|reflexivity].
    destruct (char_eqb ch c); [|reflexivity].
    apply Hc; simpl; [lia|]. apply Nat.le_succ_l, nth_error_Some. congruence.
  - simpl. unfold charMatcher.
    destruct (nth_error input (endIndex x)) as [c|] eqn:Hn; [|reflexivity].
    destruct (p c); [|reflexivity].
    apply Hc; simpl; [lia|]. apply Nat.le_succ_l, nth_error_Some. congruence.
  - simpl. destruct (atLineStart input (endIndex x)); [|reflexivity].
    apply Hc; [lia | exact Hx].
  - simpl. destruct (atLineEnd input (endIndex x)); [|reflexivity].
    apply Hc; [lia | exact Hx].
  - simpl. apply IH1; [exact Hx|].
    intros y Hlo Hhi. apply IH2; [exact Hhi|].
    intros y' Hlo' Hhi'. apply Hc; [lia | exact Hhi'].
  - change (repeatMatcher (matcher input r) g (groupsOf r) c1
                          (S (length input - endIndex x)) x
            = repeatMatcher (matcher input r) g (groupsOf r) c2
                            (S (length input - endIndex x)) x).
    apply repeatMatcher_ext; assumption.
  - simpl. apply IH; [exact Hx|].
    intros y Hlo Hhi. apply Hc; simpl; assumption.
Qed.

(** The fuel of [repeatMatcher] is never exhausted: any larger amount gives
    the same result. *)
Lemma repeatMatcher_fuel r g c : forall fuel1 fuel2 x,
  endIndex x <= length input ->
  length input - endIndex x < fuel1 ->
  length input - endIndex x < fuel2 ->
  repeatMatcher (matcher input r) g (groupsOf r) c fuel1 x
  = repeatMatcher (matcher input r) g (groupsOf r) c fuel2 x.
Proof.
  induction fuel1 as [|fuel1 IH]; intros fuel2 x Hx H1 H2; [lia|].
  destruct fuel2 as [|fuel2]; [lia|]. simpl.
  rewrite (matcher_ext r (clearCaptures (groupsOf r) x)
             (fun y => if Nat.eqb (endIndex y) (endIndex x) then None
                       else repeatMatcher (matcher input r) g (groupsOf r) c fuel1 y)
             (fun y => if Nat.eqb (endIndex y) (endIndex x) then None
                       else repeatMatcher (matcher input r) g (groupsOf r) c fuel2 y)).
  - reflexivity.
  - exact Hx.
  - intros y Hlo Hhi. simpl in Hlo.
    destruct (Nat.eqb (endIndex y) (endIndex x)) eqn:He; [reflexivity|].
    apply Nat.eqb_neq in He. apply IH; [exact Hhi | lia | lia].
Qed.

(** ** The search and the iteration of [matchAll] *)

Lemma searchFrom_sound r : forall n i j y,
  searchFrom input r n i = Some (j, y) ->
  i <= j /\ j < i + n /\
  matcher input r (mkState j []) (fun y => Some y) = Some y.
Proof.
  induction n as [|n IH]; intros i j y H; simpl in H; [discriminate|].
  destruct (matcher input r (mkState i []) (fun y => Some y)) as [y0|] eqn:Hm.
  - injection H as <- <-. repeat split; [lia | lia | exact Hm].
  - apply IH in H. destruct H as [H1 [H2 H3]]. repeat split; [lia | lia | exact H3].
Qed.

Lemma regExpExec_sound r i j y :
  regExpExec input r i = Some (j, y) ->
  i <= j /\ j <= endIndex y /\ endIndex y <= length input /\
  Matches r (mkState j []) y.
Proof.
  unfold regExpExec. intros H. apply searchFrom_sound in H.
  destruct H as [H1 [H2 H3]].
  apply matcher_sound in H3. destruct H3 as [y' [Hy' Hc]].
  injection Hc as ->.
  assert (Hj : j <= length input) by lia.
  split; [exact H1|]. split; [|split].
  - apply Matches_endIndex in Hy'. exact Hy'.
  - apply Matches_in_input in Hy'; [exact Hy' | exact Hj].
  - exact Hy'.
Qed.

Lemma matchAllFrom_chained r : forall fuel i,
  chained r i (matchAllFrom input r fuel i).
Proof.
  induction fuel as [|fuel IH]; intros i; simpl; [exact I|].
  destruct (regExpExec input r i) as [[j y]|] eqn:He; simpl; [|exact I].
  apply regExpExec_sound in He. destruct He as [H1 [H2 [H3 H4]]].
  repeat split; try assumption. apply IH.
Qed.

Lemma chained_weaken r : forall l lo lo',
  lo' <= lo -> chained r lo l -> chained r lo' l.
Proof.
  destruct l as [|[j y] rest]; simpl; intros lo lo' Hle H; [exact I|].
  destruct H as [H1 H2]. split; [lia | exact H2].
Qed.

Lemma chained_In r : forall l lo j y,
  chained r lo l -> In (j, y) l ->
  lo <= j /\ j <= endIndex y /\ endIndex y <= length input /\
  Matches r (mkState j []) y.
Proof.
  induction l as [|[j0 y0] rest IH]; simpl; intros lo j y H Hin; [contradiction|].
  destruct H as [H1 [H2 [H3 [H4 H5]]]].
  destruct Hin as [Heq | Hin].
  - injection Heq as <- <-. auto.
  - apply IH with (lo := lo) in Hin; [exact Hin|].
    eapply chained_weaken; [|exact H5].
    destruct (Nat.eqb (endIndex y0) j0); lia.
Qed.

(** In list order the matches are strictly increasing by start and do not
    overlap. *)
Lemma chained_pairwise r : forall l lo a b j1 y1 j2 y2,
  chained r lo l -> a < b ->
  nth_error l a = Some (j1, y1) -> nth_error l b = Some (j2, y2) ->
  j1 < j2 /\ endIndex y1 <= j2.
Proof.
  induction l as [|[j0 y0] rest IH]; intros lo a b j1 y1 j2 y2 H Hab Ha Hb.
  - destruct a; discriminate.
  - simpl in H. destruct H as [H1 [H2 [H3 [H4 H5]]]].
    destruct b as [|b]; [lia|]. simpl in Hb.
    destruct a as [|a]; simpl in Ha.
    + injection Ha as <- <-.
      apply nth_error_In in Hb.
      eapply chained_In in Hb; [|exact H5].
      destruct Hb as [Hb _].
      destruct (Nat.eqb (endIndex y0) j0) eqn:E.
      * apply Nat.eqb_eq in E. lia.
      * apply Nat.eqb_neq in E. lia.
    + eapply IH; [exact H5 | | exact Ha | exact Hb]. lia.
Qed.

Lemma matchAllFrom_fuel r : forall fuel1 fuel2 i,
  S (length input) <= fuel1 + i -> S (length input) <= fuel2 + i ->
  matchAllFrom input r fuel1 i = matchAllFrom input r fuel2 i.
Proof.
  assert (Hnone : forall fuel i, S (length input) <= i ->
                                 matchAllFrom input r fuel i = []).
  { intros [|fuel] i Hi; simpl; [reflexivity|].
    unfold regExpExec. replace (S (length input) - i) with 0 by lia. reflexivity. }
  induction fuel1 as [|fuel1 IH]; intros fuel2 i H1 H2.
  - rewrite (Hnone fuel2) by lia. reflexivity.
  - destruct fuel2 as [|fuel2].
    + rewrite (Hnone (S fuel1)) by lia. reflexivity.
    + simpl. destruct (regExpExec input r i) as [[j y]|] eqn:He; [|reflexivity].
      apply regExpExec_sound in He. destruct He as [Hij [Hjy _]].
      f_equal. apply IH; destruct (Nat.eqb_spec (endIndex y) j); lia.
Qed.

Lemma searchFrom_none r : forall n i,
  (forall j, matcher input r (mkState j []) (fun y => Some y) = None) ->
  searchFrom input r n i = None.
Proof.
  induction n as [|n IH]; intros i H; simpl; [reflexivity|].
  rewrite H. apply IH. exact H.
Qed.

Lemma matchAll_none r :
  (forall j, matcher input r (mkState j []) (fun y => Some y) = None) ->
  matchAll input r = [].
Proof.
  intros H. unfold matchAll, matchStates. simpl. unfold regExpExec.
  rewrite searchFrom_none by exact H. reflexivity.
Qed.

(** ** Shapes of matches *)

Lemma Matches_seqOf_cons r rs x z :
  Matches (seqOf (r :: rs)) x z ->
  exists y, Matches r x y /\ Matches (seqOf rs) y z.
Proof.
  simpl. intros H. inversion H; subst. eauto.
Qed.

Lemma Matches_seqOf_nil x z : Matches (seqOf []) x z -> z = x.
Proof. simpl. intros H. inversion H; subst. reflexivity. Qed.

Lemma slice_cons_nth (i n : nat) (ch : char) :
  nth_error input i = Some ch ->
  slice input i (i + S n) = ch :: slice input (S i) (S i + n).
Proof.
  intros H. unfold slice.
  replace (i + S n - i) with (S n) by lia.
  replace (S i + n - S i) with n by lia.
  rewrite <- (firstn_skipn_middle i input H) at 1.
  rewrite skipn_app.
  assert (Hl : length (firstn i input) = i).
  { apply firstn_length_le. apply Nat.lt_le_incl, nth_error_Some. congruence. }
  rewrite Hl, Nat.sub_diag, skipn_all2 by lia.
  reflexivity.
Qed.

Lemma Matches_lits : forall s x y,
  Matches (lits s) x y ->
  textAt (endIndex x) s /\ y = mkState (endIndex x + length s) (captures x).
Proof.
  unfold lits, MatchSpec.textAt.
  induction s as [|ch s IH]; intros x y H.
  - apply Matches_seqOf_nil in H. subst y. simpl. split.
    + unfold slice. rewrite Nat.add_0_r, Nat.sub_diag. reflexivity.
    + destruct x; simpl. rewrite Nat.add_0_r. reflexivity.
  - change (map Lit (ch :: s)) with (Lit ch :: map Lit s) in H.
    apply Matches_seqOf_cons in H. destruct H as [y0 [H0 H1]].
    inversion H0; subst. apply IH in H1. destruct H1 as [Ht ->].
    split.
    + simpl length. rewrite (slice_cons_nth _ _ _ H2). f_equal. exact Ht.
    + simpl. f_equal. lia.
Qed.

Lemma clearCaptures_nil x : clearCaptures [] x = x.
Proof.
  destruct x as [e caps]. unfold clearCaptures. simpl. f_equal.
  induction caps as [|c caps IH]; simpl; [reflexivity | rewrite IH; reflexivity].
Qed.

(** A starred character class consumes a run of characters of the class
    and leaves the captures alone. *)
Lemma Matches_star_class g p x y :
  Matches (Star g (Class p)) x y ->
  captures y = captures x /\ endIndex x <= endIndex y /\
  forall k, endIndex x <= k < endIndex y ->
            exists ch, nth_error input k = Some ch /\ p ch = true.
Proof.
  intros H. remember (Star g (Class p)) as r eqn:Hr.
  induction H; try discriminate.
  - repeat split; [lia | intros k Hk; lia].
  - injection Hr as -> ->. simpl in H. rewrite clearCaptures_nil in H.
    inversion H; subst. simpl in *.
    destruct (IHMatches2 eq_refl) as [Hc [Hle Hall]]. simpl in *.
    repeat split; [exact Hc | lia |].
    intros k Hk. destruct (Nat.eq_dec k (endIndex x)) as [->|Hne].
    + eauto.
    + apply Hall. lia.
Qed.

End Input.

(** ** The shape of a match of [MERMAID_RE] *)

Lemma MERMAID_RE_fenced input j y :
  Matches input MERMAID_RE (mkState j []) y -> fenced input j y.
Proof.
  unfold MERMAID_RE. intros H.
  apply Matches_seqOf_cons in H. destruct H as [x1 [H1 H]].
  apply Matches_seqOf_cons in H. destruct H as [x2 [H2 H]].
  apply Matches_seqOf_cons in H. destruct H as [x3 [H3 H]].
  apply Matches_seqOf_cons in H. destruct H as [x4 [H4 H]].
  apply Matches_seqOf_cons in H. destruct H as [x5 [H5 H]].
  apply Matches_seqOf_cons in H. destruct H as [x6 [H6 H]].
  apply Matches_seqOf_cons in H. destruct H as [x7 [H7 H]].
  apply Matches_seqOf_cons in H. destruct H as [x8 [H8 H]].
  apply Matches_seqOf_cons in H. destruct H as [x9 [H9 H]].
  apply Matches_seqOf_nil in H. subst y.
  inversion H1; subst. simpl in *. clear H1.
  apply Matches_lits in H2. destruct H2 as [Ht2 ->]. simpl in *.
  apply Matches_star_class in H3. destruct H3 as [Hc3 [Hle3 Hall3]]. simpl in *.
  inversion H4; subst. clear H4.
  inversion H5; subst. clear H5.
  match goal with
  | Hs : Matches _ (Star false _) _ ?y5 |- _ =>
      apply Matches_star_class in Hs; destruct Hs as [Hc5 [Hle5 _]]
  end. simpl in *.
  inversion H6; subst. clear H6.
  apply Matches_lits in H7. destruct H7 as [Ht7 ->]. simpl in *.
  apply Matches_star_class in H8. destruct H8 as [Hc8 [Hle8 Hall8]]. simpl in *.
  inversion H9; subst. clear H9.
  exists (S (endIndex x3)), (endIndex y).
  rewrite Hc8, Hc5, Hc3. simpl.
  repeat split; try assumption; try lia.
  - rewrite Nat.sub_0_r. assumption.
  - intros k Hk. rewrite Nat.sub_0_r in Hk.
    destruct (Hall3 k Hk) as [ch [Hn Hp]]. exists ch. split; [exact Hn|].
    intros ->. rewrite char_eqb_refl in Hp. discriminate.
Qed.

(** ** The spans of the matches *)

Lemma matchStates_chained input r :
  chained input r 0 (matchStates input r).
Proof. apply matchAllFrom_chained. Qed.

Lemma spanOf_toMatch input j y :
  j <= endIndex y -> endIndex y <= length input ->
  spanOf (toMatch input j y) = (j, endIndex y).
Proof.
  intros H1 H2. unfold spanOf, spanEnd, spanStart, toMatch. simpl.
  rewrite slice_length by exact H2. f_equal. lia.
Qed.

Lemma chained_sortedSpans input r : forall l lo lo',
  chained input r lo l -> lo' <= lo -> lo' <= length input ->
  sortedSpans lo' (map (fun p => spanOf (toMatch input (fst p) (snd p))) l)
              (length input).
Proof.
  induction l as [|[j y] rest IH]; intros lo lo' H Hle Hin.
  - exact Hin.
  - simpl in H. destruct H as [H1 [H2 [H3 [_ H5]]]].
    cbn [map fst snd]. rewrite spanOf_toMatch by assumption.
    simpl. split; [lia|]. split; [exact H2|].
    eapply IH; [exact H5 | | exact H3].
    destruct (Nat.eqb (endIndex y) j); lia.
Qed.

(** The spans of the matches of any pattern are sorted, disjoint and
    inside the document. *)
Lemma matchAll_sortedSpans input r :
  sortedSpans 0 (map spanOf (matchAll input r)) (length input).
Proof.
  unfold matchAll. rewrite map_map.
  eapply chained_sortedSpans; [apply matchStates_chained | lia | lia].
Qed.

Lemma matchAll_m_0 input r :
  Forall (fun m => m_0 m = slice input (spanStart m) (spanEnd m))
         (matchAll input r).
Proof.
  unfold matchAll. apply Forall_map. apply Forall_forall.
  intros [j y] Hin.
  destruct (chained_In input r _ _ _ _ (matchStates_chained input r) Hin)
    as [_ [H2 [H3 _]]].
  pose proof (spanOf_toMatch input j y H2 H3) as Hs.
  unfold spanOf in Hs. injection Hs as Hs.
  cbn [fst snd]. rewrite Hs. reflexivity.
Qed.

Lemma matchAll_MERMAID_RE_fenced input :
  Forall (fun p => fenced input (fst p) (snd p)) (matchStates input MERMAID_RE).
Proof.
  apply Forall_forall. intros [j y] Hin.
  destruct (chained_In input _ _ _ _ _ (matchStates_chained input MERMAID_RE) Hin)
    as [_ [_ [_ H]]].
  apply MERMAID_RE_fenced. exact H.
Qed.

(** Group 1 takes part in every match of [MERMAID_RE]. *)
Lemma matchAll_groups input :
  Forall (fun m => m_1 m <> None) (matchAll input MERMAID_RE).
Proof.
  unfold matchAll. apply Forall_map.
  eapply Forall_impl; [|apply matchAll_MERMAID_RE_fenced].
  intros [j y] [a [q [Hc _]]]. cbn [fst snd] in *.
  unfold toMatch. simpl. rewrite Hc. simpl. discriminate.
Qed.


End RegExpFacts.

Module SpliceFacts.

Lemma sortedSpans_bounds : forall spans lo hi,
  sortedSpans lo spans hi -> lo <= hi.
Proof.
  induction spans as [|[s e] rest IH]; simpl; intros lo hi H; [exact H|].
  destruct H as [H1 [H2 H3]]. apply IH in H3. lia.
Qed.

Lemma sortedSpans_weaken : forall spans lo lo' hi,
  lo' <= lo -> sortedSpans lo spans hi -> sortedSpans lo' spans hi.
Proof.
  destruct spans as [|[s e] rest]; simpl; intros lo lo' hi Hle H; [lia|].
  destruct H as [H1 H2]. split; [lia | exact H2].
Qed.

Lemma sortedSpans_skipn : forall k spans lo hi,
  sortedSpans lo spans hi -> sortedSpans lo (skipn k spans) hi.
Proof.
  induction k as [|k IH]; intros spans lo hi H; simpl; [exact H|].
  destruct spans as [|[s e] rest]; [exact H|].
  simpl in H. destruct H as [H1 [H2 H3]].
  apply IH. eapply sortedSpans_weaken; [|exact H3]. lia.
Qed.

(** The part of the woven text before the first span can be cut anywhere
    up to that span. *)
Lemma weave_split content ms ds lo b hi :
  lo <= b -> sortedSpans b (map spanOf ms) hi ->
  weave content lo ms ds = slice content lo b ++ weave content b ms ds.
Proof.
  intros Hlo Hs.
  assert (Hfrom : slice_from content lo = slice content lo b ++ slice_from content b).
  { unfold slice, slice_from.
    rewrite <- (firstn_skipn (b - lo) (skipn lo content)) at 1.
    rewrite skipn_skipn. replace (b - lo + lo) with b by lia. reflexivity. }
  destruct ms as [|m ms]; [exact Hfrom|].
  destruct ds as [|d ds]; [exact Hfrom|].
  simpl in *. destruct Hs as [H1 _].
  rewrite <- (slice_app_slice content lo b (spanStart m)) by lia.
  rewrite <- app_assoc. reflexivity.
Qed.

Lemma splice_prefix content x s e repl :
  s <= e -> e <= length content ->
  splice (slice content 0 e ++ x) s e repl = slice content 0 s ++ repl ++ x.
Proof.
  intros Hse He. unfold splice, slice_from. rewrite !slice_0.
  assert (Hl : length (firstn e content) = e) by (apply firstn_length_le; exact He).
  rewrite firstn_app, Hl.
  replace (s - e) with 0 by lia. rewrite firstn_O, app_nil_r.
  rewrite firstn_firstn. replace (Nat.min s e) with s by lia.
  rewrite skipn_app, Hl, Nat.sub_diag. simpl.
  rewrite skipn_all2 by lia. reflexivity.
Qed.

(** One step of the loop on the woven tail: a rendered diagram. *)
Lemma splice_weave content m ms ds repl lo :
  sortedSpans lo (map spanOf (m :: ms)) (length content) ->
  splice (weave content 0 ms ds) (spanStart m) (spanEnd m) repl
  = weave content 0 (m :: ms) (Rendered repl :: ds).
Proof.
  simpl. intros [H1 [H2 H3]].
  rewrite (weave_split content ms ds 0 (spanEnd m) (length content)) by (lia || exact H3).
  rewrite splice_prefix; [reflexivity | exact H2 |].
  apply sortedSpans_bounds in H3. exact H3.
Qed.

(** One step of the loop on the woven tail: a failed diagram. *)
Lemma keep_weave content m ms ds err lo :
  sortedSpans lo (map spanOf (m :: ms)) (length content) ->
  weave content 0 ms ds = weave content 0 (m :: ms) (Failed err :: ds).
Proof.
  simpl. intros [H1 [H2 H3]].
  rewrite (weave_split content ms ds 0 (spanEnd m) (length content)) by (lia || exact H3).
  rewrite <- (slice_app_slice content 0 (spanStart m) (spanEnd m)) by lia.
  rewrite <- app_assoc. reflexivity.
Qed.

Lemma nth_error_slice (content : str) (a b i : nat) :
  a + i < b -> nth_error (slice content a b) i = nth_error content (a + i).
Proof.
  intros H. unfold slice. rewrite nth_error_firstn.
  replace (Nat.ltb i (b - a)) with true by (symmetry; apply Nat.ltb_lt; lia).
  apply nth_error_skipn.
Qed.

(** Every character outside the spans is found unchanged in the woven
    text, at the index [weaveIndex] gives. *)
Lemma weave_nth_error content : forall ms ds pos p,
  sortedSpans pos (map spanOf ms) (length content) ->
  pos <= p -> p < length content -> outsideSpans ms p ->
  nth_error (weave content pos ms ds) (weaveIndex content pos ms ds p)
  = nth_error content p.
Proof.
  assert (Hbase : forall pos p, pos <= p ->
            nth_error (slice_from content pos) (p - pos) = nth_error content p).
  { intros pos p Hp. unfold slice_from. rewrite nth_error_skipn. f_equal. lia. }
  induction ms as [|m ms IH]; intros ds pos p Hs Hpos Hp Hout.
  - simpl. apply Hbase. exact Hpos.
  - destruct ds as [|d ds]; [simpl; apply Hbase; exact Hpos|].
    simpl in Hs. destruct Hs as [H1 [H2 H3]].
    inversion Hout as [|m' ms' Hm Hrest]; subst.
    pose proof (sortedSpans_bounds _ _ _ H3) as Hhi.
    cbn [weave weaveIndex].
    destruct (Nat.ltb p (spanStart m)) eqn:Hlt.
    + apply Nat.ltb_lt in Hlt.
      rewrite nth_error_app1 by (rewrite slice_length; lia).
      rewrite nth_error_slice by lia. f_equal. lia.
    + apply Nat.ltb_ge in Hlt.
      assert (He : spanEnd m <= p) by (destruct Hm; lia).
      rewrite nth_error_app2 by (rewrite slice_length; lia).
      rewrite slice_length by lia.
      rewrite nth_error_app2 by lia.
      replace (spanStart m - pos + length (fillOf content m d)
               + weaveIndex content (spanEnd m) ms ds p
               - (spanStart m - pos) - length (fillOf content m d))
        with (weaveIndex content (spanEnd m) ms ds p) by lia.
      apply IH; assumption.
Qed.

(** [weaveIndex] keeps the order of the positions outside the spans. *)
Lemma weaveIndex_increasing content : forall ms ds pos hi p q,
  sortedSpans pos (map spanOf ms) hi ->
  pos <= p -> p < q -> outsideSpans ms p -> outsideSpans ms q ->
  weaveIndex content pos ms ds p < weaveIndex content pos ms ds q.
Proof.
  induction ms as [|m ms IH]; intros ds pos hi p q Hs Hpos Hpq Hp Hq.
  - simpl. lia.
  - destruct ds as [|d ds]; [simpl; lia|].
    simpl in Hs. destruct Hs as [H1 [H2 H3]].
    inversion Hp as [|m1 ms1 Hmp Hrp]; subst.
    inversion Hq as [|m2 ms2 Hmq Hrq]; subst.
    cbn [weaveIndex].
    destruct (Nat.ltb_spec p (spanStart m)) as [Hlp | Hlp];
      destruct (Nat.ltb_spec q (spanStart m)) as [Hlq | Hlq].
    + lia.
    + lia.
    + lia.
    + assert (He : spanEnd m <= p) by (destruct Hmp; lia).
      pose proof (IH ds (spanEnd m) hi p q H3 He Hpq Hrp Hrq). lia.
Qed.

Lemma slice_app_skip (a f w : str) (j n : nat) :
  slice (a ++ f ++ w) (length a + length f + j) (length a + length f + j + n)
  = slice w j (j + n).
Proof.
  unfold slice.
  replace (length a + length f + j + n - (length a + length f + j)) with n by lia.
  replace (j + n - j) with n by lia.
  rewrite app_assoc, skipn_app, length_app.
  replace (length a + length f + j - (length a + length f)) with j by lia.
  rewrite skipn_all2 by (rewrite length_app; lia). reflexivity.
Qed.

Lemma slice_app_mid (a f w : str) :
  slice (a ++ f ++ w) (length a) (length a + length f) = f.
Proof.
  unfold slice. replace (length a + length f - length a) with (length f) by lia.
  rewrite skipn_app, Nat.sub_diag, skipn_all2 by lia. simpl.
  rewrite firstn_app, Nat.sub_diag, firstn_all. simpl. apply app_nil_r.
Qed.

(** The fill of every diagram stands in the woven text where [weaveStart]
    says. *)
Lemma weave_fill content : forall ms ds pos k m d,
  sortedSpans pos (map spanOf ms) (length content) ->
  nth_error ms k = Some m -> nth_error ds k = Some d ->
  slice (weave content pos ms ds) (weaveStart content pos ms ds k)
        (weaveStart content pos ms ds k + length (fillOf content m d))
  = fillOf content m d.
Proof.
  induction ms as [|m0 ms IH]; intros ds pos k m d Hs Hm Hd.
  - destruct k; discriminate.
  - destruct ds as [|d0 ds]; [destruct k; discriminate|].
    simpl in Hs. destruct Hs as [H1 [H2 H3]].
    pose proof (sortedSpans_bounds _ _ _ H3) as Hhi.
    assert (Hl : length (slice content pos (spanStart m0)) = spanStart m0 - pos)
      by (apply slice_length; lia).
    destruct k as [|k]; cbn [weave weaveStart].
    + simpl in Hm, Hd. injection Hm as ->. injection Hd as ->.
      rewrite <- Hl. apply slice_app_mid.
    + simpl in Hm, Hd. rewrite <- Hl.
      rewrite <- Nat.add_assoc.
      rewrite (Nat.add_assoc (length (slice content pos (spanStart m0)))).
      rewrite slice_app_skip. apply IH; assumption.
Qed.

(** When every diagram failed the woven text is the document. *)
Lemma weave_all_failed content : forall ms ds pos hi,
  sortedSpans pos (map spanOf ms) hi ->
  Forall (fun d => isFailed d = true) ds ->
  weave content pos ms ds = slice_from content pos.
Proof.
  induction ms as [|m ms IH]; intros ds pos hi Hs Hf; [reflexivity|].
  destruct ds as [|d ds]; [reflexivity|].
  simpl in Hs. destruct Hs as [H1 [H2 H3]].
  inversion Hf as [|d' ds' Hd Hrest]; subst.
  destruct d as [text | err]; [discriminate|].
  cbn [weave fillOf]. rewrite (IH ds (spanEnd m) hi H3 Hrest).
  rewrite app_assoc, slice_app_slice by lia.
  unfold slice, slice_from.
  rewrite <- (firstn_skipn (spanEnd m - pos) (skipn pos content)) at 2.
  rewrite skipn_skipn. replace (spanEnd m - pos + pos) with (spanEnd m) by lia.
  reflexivity.
Qed.

End SpliceFacts.

(* ================================================================== *)
(** * Facts about the program *)
(* ================================================================== *)

Module ProgramFacts.
Import Program SpliceFacts RegExpFacts.

Section Loop.

Variable rt : Runtime.
Variable cfg : Config.
Variable page : Page rt.
Variable filePath : str.
Variable ms : list RegExpMatch.

Local Abbreviation announce := (RunSpec.announce rt ms).
Local Abbreviation conclude := (RunSpec.conclude rt).
Local Abbreviation Attempts := (RunSpec.Attempts rt cfg page filePath ms).
Local Abbreviation AttemptsStep := (RunSpec.AttemptsStep rt cfg page filePath ms).

Lemma diagramStep_run i m g result failures st st2 r :
  nth_error ms i = Some m ->
  m_1 m = Some g ->
  renderReplacement cfg page filePath i (trim g) (announce i st) = (st2, r) ->
  diagramStep cfg page filePath ms i (result, failures) st
  = (conclude r st2,
     inr (match r with
          | inr repl => (splice result (spanStart m) (spanEnd m) repl, failures)
          | inl _ => (result, failures + 1)
          end)).
Proof.
  intros Hm Hg Hr. unfold diagramStep. rewrite Hm, Hg.
  unfold bind, tryCatch, stdoutWrite, consoleLog, consoleError, emit, ret.
  fold (progressText ms i). fold (announce i st). rewrite Hr.
  destruct r as [err | repl]; reflexivity.
Qed.

Lemma diagramLoop_S i acc st :
  diagramLoop cfg page filePath ms (S i) acc st
  = match diagramStep cfg page filePath ms i acc st with
    | (st', inr acc') => diagramLoop cfg page filePath ms i acc' st'
    | (st', inl e) => (st', inl e)
    end.
Proof. reflexivity. Qed.

Variable content : str.

Hypothesis spans_sorted : sortedSpans 0 (map spanOf ms) (length content).
Hypothesis groups_defined : Forall (fun m => m_1 m <> None) ms.

Lemma nth_skipn_cons {A} (l : list A) i x :
  nth_error l i = Some x -> skipn i l = x :: skipn (S i) l.
Proof.
  revert i. induction l as [|y l IH]; intros [|i] H; simpl in *; try discriminate.
  - injection H as ->. reflexivity.
  - apply IH. exact H.
Qed.

(** The loop from [k] down, run on the text woven for the diagrams from
    [k] on: it never throws, attempts every diagram below [k] and leaves
    the text woven for all diagrams. *)
Lemma diagramLoop_run : forall k tail failures st,
  k <= length ms ->
  exists st' ds,
    diagramLoop cfg page filePath ms k
                (weave content 0 (skipn k ms) tail, failures) st
    = (st', inr (weave content 0 ms (ds ++ tail), failures + countFailed ds))
    /\ length ds = k
    /\ Attempts k st ds st'.
Proof.
  induction k as [|i IH]; intros tail failures st Hk.
  - exists st, []. simpl. rewrite Nat.add_0_r.
    repeat split. constructor.
  - assert (Hi : i < length ms) by lia.
    destruct (nth_error ms i) as [m|] eqn:Hm;
      [|apply nth_error_None in Hm; lia].
    assert (Hg : exists g, m_1 m = Some g).
    { rewrite Forall_forall in groups_defined.
      specialize (groups_defined m (nth_error_In _ _ Hm)).
      destruct (m_1 m) as [g|]; [eauto | congruence]. }
    destruct Hg as [g Hg].
    destruct (renderReplacement cfg page filePath i (trim g) (announce i st))
      as [st2 r] eqn:Hr.
    assert (Hsorted : sortedSpans 0 (map spanOf (m :: skipn (S i) ms)) (length content)).
    { rewrite <- (nth_skipn_cons ms i m Hm), <- skipn_map.
      apply sortedSpans_skipn. exact spans_sorted. }
    rewrite diagramLoop_S.
    rewrite (diagramStep_run i m g _ failures st st2 r Hm Hg Hr).
    destruct r as [err | repl].
    + rewrite (keep_weave content m (skipn (S i) ms) tail err 0 Hsorted).
      rewrite <- (nth_skipn_cons ms i m Hm).
      destruct (IH (Failed err :: tail) (failures + 1) (conclude (inl err) st2))
        as [st' [ds [Hrun [Hlen Hatt]]]]; [lia|].
      exists st', (ds ++ [Failed err]). split; [|split].
      * rewrite Hrun. rewrite <- app_assoc. simpl.
        unfold countFailed. rewrite filter_app, length_app. simpl.
        do 3 f_equal. lia.
      * rewrite length_app. simpl. lia.
      * apply (AttemptsStep i m g st st2 (inl err) ds st' Hm Hg Hr Hatt).
    + rewrite (splice_weave content m (skipn (S i) ms) tail repl 0 Hsorted).
      rewrite <- (nth_skipn_cons ms i m Hm).
      destruct (IH (Rendered repl :: tail) failures (conclude (inr repl) st2))
        as [st' [ds [Hrun [Hlen Hatt]]]]; [lia|].
      exists st', (ds ++ [Rendered repl]). split; [|split].
      * rewrite Hrun. rewrite <- app_assoc. simpl.
        unfold countFailed. rewrite filter_app, length_app. simpl.
        do 3 f_equal. lia.
      * rewrite length_app. simpl. lia.
      * apply (AttemptsStep i m g st st2 (inr repl) ds st' Hm Hg Hr Hatt).
Qed.

End Loop.

(** ** Computations and the events they add *)

Section Emits.

Variable rt : Runtime.

Local Abbreviation emitsOnly := (@RunSpec.emitsOnly rt _).

Lemma emitsOnly_ret {A} p (a : A) : emitsOnly p (ret a).
Proof. intros st. exists []. simpl. rewrite app_nil_r. auto. Qed.

Lemma emitsOnly_throw {A} p e : emitsOnly p (@throw rt A e).
Proof. intros st. exists []. simpl. rewrite app_nil_r. auto. Qed.

Lemma emitsOnly_emit p ev : p ev -> emitsOnly p (@emit rt ev).
Proof. intros H st. exists [ev]. simpl. auto. Qed.

Lemma emitsOnly_call {A} p op (f : World rt -> World rt * (Error + A)) :
  (forall ok, p (Call op ok)) -> emitsOnly p (call op f).
Proof.
  intros H st. unfold call. destruct (f (world st)) as [w r].
  exists [Call op (isOk r)]. simpl. auto.
Qed.

Lemma emitsOnly_bind {A B} p (m : M rt A) (k : A -> M rt B) :
  emitsOnly p m -> (forall a, emitsOnly p (k a)) -> emitsOnly p (bind m k).
Proof.
  intros Hm Hk st. unfold bind.
  destruct (Hm st) as [e1 [H1 P1]].
  destruct (m st) as [st1 [e | a]]; simpl in H1.
  - exists e1. simpl. auto.
  - destruct (Hk a st1) as [e2 [H2 P2]].
    exists (e1 ++ e2). rewrite H2, H1, app_assoc. split; [reflexivity|].
    apply Forall_app. auto.
Qed.

Lemma emitsOnly_tryCatch {A} p (m : M rt A) (h : Error -> M rt A) :
  emitsOnly p m -> (forall e, emitsOnly p (h e)) -> emitsOnly p (tryCatch m h).
Proof.
  intros Hm Hh st. unfold tryCatch.
  destruct (Hm st) as [e1 [H1 P1]].
  destruct (m st) as [st1 [e | a]]; simpl in H1.
  - destruct (Hh e st1) as [e2 [H2 P2]].
    exists (e1 ++ e2). rewrite H2, H1, app_assoc. split; [reflexivity|].
    apply Forall_app. auto.
  - exists e1. simpl. auto.
Qed.

Lemma emitsOnly_tryFinally {A} p (m : M rt A) (c : M rt unit) :
  emitsOnly p m -> emitsOnly p c -> emitsOnly p (tryFinally m c).
Proof.
  intros Hm Hc st. unfold tryFinally.
  destruct (Hm st) as [e1 [H1 P1]].
  destruct (m st) as [st1 r]; simpl in H1.
  destruct (Hc st1) as [e2 [H2 P2]].
  exists (e1 ++ e2).
  destruct (c st1) as [st2 [e | u]]; simpl in *;
    rewrite H2, H1, app_assoc; (split; [reflexivity | apply Forall_app; auto]).
Qed.

End Emits.

Ltac emits_step :=
  lazymatch goal with
  | |- emitsOnly _ (ret _) => apply emitsOnly_ret
  | |- emitsOnly _ (throw _) => apply emitsOnly_throw
  | |- emitsOnly _ (emit _) => apply emitsOnly_emit
  | |- emitsOnly _ (call _ _) => apply emitsOnly_call
  | |- emitsOnly _ (bind _ _) => apply emitsOnly_bind
  | |- emitsOnly _ (tryCatch _ _) => apply emitsOnly_tryCatch
  | |- emitsOnly _ (tryFinally _ _) => apply emitsOnly_tryFinally
  | |- emitsOnly _ _ => fail
  | |- forall _, _ => intro
  end.

(** ** No page is opened while the files are processed *)

Lemma notNewPage_scales evs : Forall notNewPage evs -> newPageScales evs = [].
Proof.
  induction 1 as [|ev evs Hev _ IH]; [reflexivity|].
  unfold newPageScales in *. simpl. rewrite IH.
  destruct ev as [[] ?| |]; simpl in *; try reflexivity. contradiction.
Qed.

Section NoNewPage.

Variable rt : Runtime.
Variable cfg : Config.
Variable page : Page rt.

Ltac emits :=
  repeat first
    [ exact I
    | progress unfold consoleLog, consoleError, consoleWarn, stdoutWrite, stderrWrite
    | emits_step ].

Lemma renderDiagram_notNewPage code :
  emitsOnly notNewPage (renderDiagram cfg page code).
Proof.
  unfold renderDiagram. emits.
  destruct (fmt cfg); emits.
  match goal with |- emitsOnly _ (match ?el with _ => _ end) => destruct el end; emits.
Qed.

Lemma renderReplacement_notNewPage filePath i code :
  emitsOnly notNewPage (renderReplacement cfg page filePath i code).
Proof.
  unfold renderReplacement. apply emitsOnly_bind; [apply renderDiagram_notNewPage|].
  intros [svgText shot]. destruct (fmt cfg); emits.
  destruct shot; emits. destruct (mode cfg); emits.
Qed.

Lemma diagramStep_notNewPage filePath ms i acc :
  emitsOnly notNewPage (diagramStep cfg page filePath ms i acc).
Proof.
  unfold diagramStep. destruct acc as [result failures].
  destruct (nth_error ms i) as [m|]; emits.
  destruct (m_1 m); emits.
  apply renderReplacement_notNewPage.
Qed.

Lemma diagramLoop_notNewPage filePath ms : forall k acc,
  emitsOnly notNewPage (diagramLoop cfg page filePath ms k acc).
Proof.
  induction k as [|k IH]; intros acc; simpl.
  - apply emitsOnly_ret.
  - apply emitsOnly_bind; [apply diagramStep_notNewPage | exact IH].
Qed.

Lemma processFile_notNewPage filePath :
  emitsOnly notNewPage (processFile cfg page filePath).
Proof.
  unfold processFile. emits.
  match goal with |- emitsOnly _ (if ?b then _ else _) => destruct b end; emits.
  - destruct (fmt cfg), (mode cfg); emits.
  - apply diagramLoop_notNewPage.
  - match goal with |- emitsOnly _ (let '(_, _) := ?a in _) => destruct a as [result failures] end.
    emits. destruct (Nat.ltb 0 failures); emits.
Qed.

Lemma fileLoop_notNewPage : forall fileList processed,
  emitsOnly notNewPage (fileLoop cfg page fileList processed).
Proof.
  induction fileList as [|file rest IH]; intros processed; simpl.
  - apply emitsOnly_ret.
  - apply emitsOnly_bind; [apply processFile_notNewPage | intros b; apply IH].
Qed.

End NoNewPage.

(** ** The order of the renders *)

Lemma silent_orchestration evs : Forall silent evs -> orchestration evs = [].
Proof.
  induction 1 as [|ev evs Hev _ IH]; [reflexivity|].
  unfold orchestration in *. simpl. rewrite Hev, IH. reflexivity.
Qed.

Lemma orchestration_app tr1 tr2 :
  orchestration (tr1 ++ tr2) = orchestration tr1 ++ orchestration tr2.
Proof. apply flat_map_app. Qed.

Section RenderOrder.

Variable rt : Runtime.
Variable cfg : Config.
Variable page : Page rt.
Variable filePath : str.

Ltac quiet :=
  repeat first [ reflexivity | emits_step ].

(** The render of one diagram hands its code to the renderer once, before
    anything else it does. *)
Lemma renderReplacement_orchestration i code st :
  exists evs,
    trace (fst (renderReplacement cfg page filePath i code st)) = trace st ++ evs
    /\ orchestration evs = [Render code].
Proof.
  assert (Hrest : forall svgText,
    emitsOnly silent
      (bind (match fmt cfg with
             | jpg =>
                 bind (call (OpQuerySelector (lit "svg"))
                            (querySelector rt page (lit "svg")))
                      (fun el =>
                         match el with
                         | None => throw (lit "SVG element not found after rendering")
                         | Some el =>
                             bind (call OpScreenshot (screenshot rt el))
                                  (fun shot => ret (svgText, Some shot))
                         end)
             | svg => ret (svgText, None)
             end)
            (fun r : str * option Buffer =>
               let '(svgText, shot) := r in
               match fmt cfg with
               | svg => ret ([LF] ++ svgText ++ [LF])
               | jpg =>
                   match shot with
                   | None => throw (lit "Screenshot capture failed")
                   | Some shot =>
                       match mode cfg with
                       | b64 =>
                           ret (lit "![Diagram " ++ ofNat (i + 1)
                                ++ lit "](data:image/jpeg;base64,"
                                ++ encode shot ++ lit ")")
                       | files =>
                           bind (call (OpWriteFile
                                         (Path.join (mermaidDirOf filePath)
                                                    (fnameOf filePath i))
                                         (Bytes shot))
                                      (writeFile rt
                                         (Path.join (mermaidDirOf filePath)
                                                    (fnameOf filePath i))
                                         (Bytes shot)))
                                (fun _ =>
                                   ret (lit "![Diagram " ++ ofNat (i + 1)
                                        ++ lit "](./mermaid/"
                                        ++ fnameOf filePath i ++ lit ")"))
                       end
                   end
               end))).
  { intros svgText. apply emitsOnly_bind.
    - destruct (fmt cfg); quiet.
      match goal with |- emitsOnly _ (match ?el with _ => _ end) => destruct el end; quiet.
    - intros [svgText' shot]. destruct (fmt cfg); quiet.
      destruct shot; quiet. destruct (mode cfg); quiet. }
  unfold renderReplacement, renderDiagram. unfold bind at 1 2. unfold call at 1.
  destruct (evaluate rt page code (world st)) as [w [e | svgText]].
  - exists [Call (OpEvaluate code) false]. split; reflexivity.
  - destruct (Hrest svgText (mkSt rt w (trace st ++ [Call (OpEvaluate code) (isOk (inr svgText))])))
      as [evs [Htr Hsilent]].
    exists (Call (OpEvaluate code) true :: evs). split.
    + unfold bind in Htr. cbn [trace isOk] in Htr. rewrite <- app_assoc in Htr.
      exact Htr.
    + change (Call (OpEvaluate code) true :: evs)
        with ([Call (OpEvaluate code) true] ++ evs).
      rewrite orchestration_app, (silent_orchestration evs Hsilent). reflexivity.
Qed.

Variable ms : list RegExpMatch.

Lemma progressText_orchestration i :
  orchestrationOf (Stdout (progressText ms i)) = [Progress (progressText ms i)].
Proof. reflexivity. Qed.

Lemma verdict_silent r : orchestrationOf (verdict r) = [].
Proof. destruct r; reflexivity. Qed.

Lemma rev_seq_S k : rev (seq 0 (S k)) = k :: rev (seq 0 k).
Proof. rewrite seq_S, rev_app_distr. reflexivity. Qed.

(** The loop from [k] down orchestrates the diagrams [k - 1], ..., [0], in
    this order. *)
Lemma Attempts_orchestration : forall k st ds st',
  Attempts rt cfg page filePath ms k st ds st' ->
  orchestration (trace st')
  = orchestration (trace st) ++ orchestrationIn ms (rev (seq 0 k)).
Proof.
  induction 1 as [st | i m g st st2 r ds st' Hm Hg Hr Hatt IH].
  - simpl. unfold orchestrationIn. simpl. rewrite app_nil_r. reflexivity.
  - rewrite IH. unfold conclude. cbn [trace].
    destruct (renderReplacement_orchestration i (trim g) (announce rt ms i st))
      as [evs [Htr Hevs]].
    rewrite Hr in Htr. cbn [fst] in Htr. rewrite Htr.
    unfold announce. cbn [trace].
    rewrite !orchestration_app, Hevs.
    unfold orchestration at 2 3. cbn [flat_map].
    rewrite progressText_orchestration, verdict_silent.
    rewrite rev_seq_S. unfold orchestrationIn. cbn [flat_map].
    unfold codeAt, codeOf. rewrite Hm, Hg.
    rewrite <- !app_assoc. reflexivity.
Qed.

End RenderOrder.

(** ** [processFile] step by step *)

Section ProcessFile.

Variable rt : Runtime.
Variable cfg : Config.
Variable page : Page rt.
Variable filePath : str.

Local Abbreviation called := (RunSpec.called rt).
Local Abbreviation printed := (RunSpec.printed rt).
Local Abbreviation headerText := (RunSpec.headerText filePath).
Local Abbreviation arrowText := (RunSpec.arrowText cfg filePath).
Local Abbreviation ensureDir := (RunSpec.ensureDir rt cfg filePath).
Local Abbreviation finish := (RunSpec.finish rt cfg filePath).
Local Abbreviation loopStart := (RunSpec.loopStart rt cfg filePath).

Lemma processFile_unfold st :
  processFile cfg page filePath st
  = match readFile rt filePath (world st) with
    | (w1, inl e) => (called st w1 (OpReadFile filePath) false, inl e)
    | (w1, inr content) =>
        let st1 := called st w1 (OpReadFile filePath) true in
        let ms := matchAll content MERMAID_RE in
        if Nat.eqb (length ms) 0 then (st1, inr false)
        else
          match ensureDir (printed st1 (Stdout (headerText (length ms)))) with
          | (st2, inl e) => (st2, inl e)
          | (st2, inr _) =>
              match diagramLoop cfg page filePath ms (length ms) (content, 0) st2 with
              | (st3, inl e) => (st3, inl e)
              | (st3, inr (result, failures)) => finish result failures st3
              end
          end
    end.
Proof.
  unfold processFile, RunSpec.ensureDir, RunSpec.finish, RunSpec.called,
    RunSpec.printed, RunSpec.headerText, warningText, RunSpec.arrowText,
    consoleWarn, consoleLog, bind, call, emit, ret.
  cbn [world trace].
  destruct (readFile rt filePath (world st)) as [w1 [e | content]]; [reflexivity|].
  cbv zeta. cbn [isOk].
  destruct (Nat.eqb (length (matchAll content MERMAID_RE)) 0); [reflexivity|].
  destruct (fmt cfg), (mode cfg); cbn [world trace];
    try (destruct (mkdir rt (mermaidDirOf filePath) w1) as [w2 [e | u]];
         cbn [world trace isOk]; [reflexivity|]);
    match goal with
    | |- context [diagramLoop ?c ?p ?f ?m ?k ?a ?s] =>
        destruct (diagramLoop c p f m k a s) as [st3 [e | [result failures]]]
    end; try reflexivity;
    destruct (writeFile rt (outPathOf cfg filePath) (Text result) (world st3))
      as [w [e' | u']]; cbn [world trace isOk]; try reflexivity;
    destruct (Nat.ltb 0 failures); reflexivity.
Qed.

(** A document with diagrams: the loop runs to its end whatever the renders
    do, and [processFile] ends with [finish] on the woven text. *)
Lemma processFile_run st w1 content st2 :
  readFile rt filePath (world st) = (w1, inr content) ->
  matchAll content MERMAID_RE <> [] ->
  loopStart st w1 (length (matchAll content MERMAID_RE)) st2 ->
  exists st3 ds,
    let ms := matchAll content MERMAID_RE in
    diagramLoop cfg page filePath ms (length ms) (content, 0) st2
    = (st3, inr (weave content 0 ms ds, countFailed ds))
    /\ length ds = length ms
    /\ Attempts rt cfg page filePath ms (length ms) st2 ds st3
    /\ processFile cfg page filePath st
       = finish (weave content 0 ms ds) (countFailed ds) st3.
Proof.
  intros Hread Hne Hstart.
  set (ms := matchAll content MERMAID_RE) in *.
  destruct (diagramLoop_run rt cfg page filePath ms content
              (matchAll_sortedSpans content MERMAID_RE)
              (matchAll_groups content)
              (length ms) [] 0 st2 (Nat.le_refl _))
    as [st3 [ds [Hrun [Hlen Hatt]]]].
  rewrite skipn_all in Hrun. simpl weave in Hrun.
  unfold slice_from in Hrun. simpl skipn in Hrun.
  rewrite app_nil_r in Hrun. simpl in Hrun.
  exists st3, ds. cbv zeta. repeat split; try assumption.
  rewrite processFile_unfold, Hread. cbv zeta. fold ms.
  destruct (Nat.eqb_spec (length ms) 0) as [H0 | H0].
  - destruct ms; [congruence | discriminate].
  - unfold RunSpec.loopStart in Hstart. rewrite Hstart, Hrun. reflexivity.
Qed.

End ProcessFile.

End ProgramFacts.

(* ================================================================== *)
(** * The locator: spans and fences *)
(* ================================================================== *)

Import RegExpFacts.

(** C7. For every document, the spans of the matches of [MERMAID_RE]
    (start: the index of the match; end: start plus the length of the
    matched text) have [start <= end] and lie inside the document; taken in
    the order in which [matchAll] found them, a later span starts strictly
    after an earlier one starts, and not before the earlier one ends. *)
Theorem locator_spans_increasing_disjoint : forall content : str,
  let spans := map spanOf (matchAll content MERMAID_RE) in
  Forall (fun se => fst se <= snd se /\ snd se <= length content) spans /\
  (forall a b s1 e1 s2 e2,
      a < b ->
      nth_error spans a = Some (s1, e1) ->
      nth_error spans b = Some (s2, e2) ->
      s1 < s2 /\ e1 <= s2).
Proof.
  intros content spans.
  pose proof (matchStates_chained content MERMAID_RE) as Hch.
  assert (Hspan : forall k j y,
             nth_error (matchStates content MERMAID_RE) k = Some (j, y) ->
             nth_error spans k = Some (j, endIndex y)).
  { intros k j y Hk. unfold spans, matchAll. rewrite map_map, nth_error_map, Hk.
    simpl. f_equal.
    destruct (chained_In content _ _ _ _ _ Hch (nth_error_In _ _ Hk))
      as [_ [H2 [H3 _]]].
    apply spanOf_toMatch; assumption. }
  assert (Hback : forall k s e,
             nth_error spans k = Some (s, e) ->
             exists y, nth_error (matchStates content MERMAID_RE) k = Some (s, y)
                       /\ e = endIndex y).
  { intros k s e Hk.
    destruct (nth_error (matchStates content MERMAID_RE) k) as [[j y]|] eqn:Hn.
    - rewrite (Hspan k j y Hn) in Hk. injection Hk as <- <-. eauto.
    - unfold spans, matchAll in Hk. rewrite map_map, nth_error_map, Hn in Hk.
      discriminate. }
  split.
  - apply Forall_forall. intros [s e] Hin.
    apply In_nth_error in Hin. destruct Hin as [k Hk].
    destruct (Hback k s e Hk) as [y [Hn ->]].
    destruct (chained_In content _ _ _ _ _ Hch (nth_error_In _ _ Hn))
      as [_ [H2 [H3 _]]].
    simpl. split; assumption.
  - intros a b s1 e1 s2 e2 Hab Ha Hb.
    destruct (Hback a s1 e1 Ha) as [y1 [Hn1 ->]].
    destruct (Hback b s2 e2 Hb) as [y2 [Hn2 ->]].
    exact (chained_pairwise content _ _ _ a b s1 y1 s2 y2 Hch Hab Hn1 Hn2).
Qed.

(* ================================================================== *)
(** * The compositor and the orchestrator *)
(* ================================================================== *)

Import Program ProgramFacts SpliceFacts.

(** C1. Offset safety.  For every document, every list of matches whose
    spans are sorted, do not overlap and lie in the document, and whatever
    the renders give, the loop of [processFile], which goes through the
    matches from the last one to the first and splices each replacement
    into [result], returns the document woven with the fills: every
    character outside the spans is found unchanged at the index that the
    edits before it imply, and these indices keep the order of the
    characters. *)
Theorem splice_offset_safety :
  forall (rt : Runtime) (cfg : Config) (page : Page rt) (filePath content : str)
         (ms : list RegExpMatch) (st : State rt),
    sortedSpans 0 (map spanOf ms) (length content) ->
    Forall (fun m => m_1 m <> None) ms ->
    exists st' ds,
      diagramLoop cfg page filePath ms (length ms) (content, 0) st
      = (st', inr (weave content 0 ms ds, countFailed ds))
      /\ length ds = length ms
      /\ Attempts rt cfg page filePath ms (length ms) st ds st'
      /\ (forall p, p < length content -> outsideSpans ms p ->
                    nth_error (weave content 0 ms ds) (weaveIndex content 0 ms ds p)
                    = nth_error content p)
      /\ (forall p q, p < q -> outsideSpans ms p -> outsideSpans ms q ->
                      weaveIndex content 0 ms ds p < weaveIndex content 0 ms ds q).
Proof.
  intros rt cfg page filePath content ms st Hs Hg.
  destruct (diagramLoop_run rt cfg page filePath ms content Hs Hg
              (length ms) [] 0 st (Nat.le_refl _))
    as [st' [ds [Hrun [Hlen Hatt]]]].
  rewrite skipn_all in Hrun. simpl weave in Hrun.
  unfold slice_from in Hrun. simpl skipn in Hrun.
  rewrite app_nil_r in Hrun. simpl in Hrun.
  exists st', ds. repeat split; try assumption.
  - intros p Hp Hout. apply weave_nth_error; try assumption. lia.
  - intros p q Hpq Hp Hq.
    eapply weaveIndex_increasing; try eassumption. lia.
Qed.

(** The loop on the two diagrams of the sample document, the first of which
    fails to render. *)
Lemma splice_offset_safety_witness :
  let rt := Demo.failingA in
  let ms := matchAll Demo.twoDiagrams MERMAID_RE in
  exists st' ds,
    diagramLoop (Demo.config svg b64) (tt : Page rt) Demo.docPath ms (length ms)
                (Demo.twoDiagrams, 0) (Demo.start rt 0)
    = (st', inr (weave Demo.twoDiagrams 0 ms ds, countFailed ds))
    /\ length ds = length ms
    /\ Attempts rt (Demo.config svg b64) tt Demo.docPath ms (length ms)
                (Demo.start rt 0) ds st'
    /\ (forall p, p < length Demo.twoDiagrams -> outsideSpans ms p ->
                  nth_error (weave Demo.twoDiagrams 0 ms ds)
                            (weaveIndex Demo.twoDiagrams 0 ms ds p)
                  = nth_error Demo.twoDiagrams p)
    /\ (forall p q, p < q -> outsideSpans ms p -> outsideSpans ms q ->
                    weaveIndex Demo.twoDiagrams 0 ms ds p
                    < weaveIndex Demo.twoDiagrams 0 ms ds q).
Proof.
  intros rt ms.
  apply (splice_offset_safety rt (Demo.config svg b64) tt Demo.docPath
           Demo.twoDiagrams ms (Demo.start rt 0)).
  - vm_compute. repeat split; lia.
  - vm_compute. repeat constructor; discriminate.
Defined.

(** C2. Failure isolation.  For every document with at least one diagram
    whose loop is reached: whatever each render, capture or image write
    does, the loop attempts every diagram once and never throws; its counter
    is the number of failed diagrams; the text of a failed diagram stands
    unchanged in the output text, at the place of its fill; [processFile]
    goes on to write the output, and the loop over the files goes on with
    the next file unless that write throws. *)
Theorem failure_isolation :
  forall (rt : Runtime) (cfg : Config) (page : Page rt) (filePath : str)
         (st : State rt) (w1 : World rt) (content : str) (st2 : State rt),
    readFile rt filePath (world st) = (w1, inr content) ->
    matchAll content MERMAID_RE <> [] ->
    loopStart rt cfg filePath st w1 (length (matchAll content MERMAID_RE)) st2 ->
    let ms := matchAll content MERMAID_RE in
    exists st3 ds,
      diagramLoop cfg page filePath ms (length ms) (content, 0) st2
      = (st3, inr (weave content 0 ms ds, countFailed ds))
      /\ length ds = length ms
      /\ Attempts rt cfg page filePath ms (length ms) st2 ds st3
      /\ processFile cfg page filePath st
         = finish rt cfg filePath (weave content 0 ms ds) (countFailed ds) st3
      /\ (forall k m err,
             nth_error ms k = Some m -> nth_error ds k = Some (Failed err) ->
             slice (weave content 0 ms ds) (weaveStart content 0 ms ds k)
                   (weaveStart content 0 ms ds k + length (m_0 m))
             = m_0 m)
      /\ (forall rest processed,
             fileLoop cfg page (filePath :: rest) processed st
             = match finish rt cfg filePath (weave content 0 ms ds)
                            (countFailed ds) st3 with
               | (st4, inr b) =>
                   fileLoop cfg page rest
                            (if b then processed + 1 else processed) st4
               | (st4, inl e) => (st4, inl e)
               end).
Proof.
  intros rt cfg page filePath st w1 content st2 Hread Hne Hstart ms.
  destruct (processFile_run rt cfg page filePath st w1 content st2 Hread Hne Hstart)
    as [st3 [ds [Hrun [Hlen [Hatt Hpf]]]]].
  cbv zeta in Hrun, Hlen, Hatt, Hpf. fold ms in Hrun, Hlen, Hatt, Hpf.
  exists st3, ds. repeat split; try assumption.
  - intros k m err Hm Hd.
    pose proof (matchAll_m_0 content MERMAID_RE) as H0.
    rewrite Forall_forall in H0. specialize (H0 m (nth_error_In _ _ Hm)).
    pose proof (weave_fill content ms ds 0 k m (Failed err)
                  (matchAll_sortedSpans content MERMAID_RE) Hm Hd) as Hfill.
    cbn [fillOf] in Hfill. rewrite <- H0 in Hfill. exact Hfill.
  - intros rest processed. cbn [fileLoop]. unfold bind. rewrite Hpf.
    destruct (finish rt cfg filePath (weave content 0 ms ds) (countFailed ds) st3)
      as [st4 [e | b]]; reflexivity.
Qed.

Lemma failure_isolation_witness :
  let rt := Demo.failingA in
  let cfg := Demo.config jpg files in
  let st := Demo.start rt 0 in
  let content := Demo.twoDiagrams in
  let st2 := demoLoopStart Demo.renderButA cfg in
  let ms := matchAll content MERMAID_RE in
  exists st3 ds,
    diagramLoop cfg (tt : Page rt) Demo.docPath ms (length ms) (content, 0) st2
    = (st3, inr (weave content 0 ms ds, countFailed ds))
    /\ length ds = length ms
    /\ Attempts rt cfg tt Demo.docPath ms (length ms) st2 ds st3
    /\ processFile cfg (tt : Page rt) Demo.docPath st
       = finish rt cfg Demo.docPath (weave content 0 ms ds) (countFailed ds) st3
    /\ (forall k m err,
           nth_error ms k = Some m -> nth_error ds k = Some (Failed err) ->
           slice (weave content 0 ms ds) (weaveStart content 0 ms ds k)
                 (weaveStart content 0 ms ds k + length (m_0 m))
           = m_0 m)
    /\ (forall rest processed,
           fileLoop cfg (tt : Page rt) (Demo.docPath :: rest) processed st
           = match finish rt cfg Demo.docPath (weave content 0 ms ds)
                          (countFailed ds) st3 with
             | (st4, inr b) =>
                 fileLoop cfg (tt : Page rt) rest
                          (if b then processed + 1 else processed) st4
             | (st4, inl e) => (st4, inl e)
             end).
Proof.
  intros rt cfg st content st2 ms.
  apply (failure_isolation rt cfg tt Demo.docPath st 1 content st2).
  - reflexivity.
  - vm_compute. discriminate.
  - vm_compute. reflexivity.
Defined.

(** On that run the first diagram fails, the second one is rendered, and
    the counter is 1. *)
Example failure_isolation_sample :
  let rt := Demo.failingA in
  let cfg := Demo.config jpg files in
  let ms := matchAll Demo.twoDiagrams MERMAID_RE in
  snd (diagramLoop cfg (tt : Page rt) Demo.docPath ms (length ms)
                   (Demo.twoDiagrams, 0) (demoLoopStart Demo.renderButA cfg))
  = inr (lit ("# T" ++ Demo.NL ++ "```mermaid" ++ Demo.NL ++ "A" ++ Demo.NL
              ++ "```" ++ Demo.NL ++ "mid" ++ Demo.NL
              ++ "![Diagram 2](./mermaid/a-2.jpg)" ++ Demo.NL ++ "end"), 1).
Proof. vm_compute. reflexivity. Qed.

(** C3, as claimed, fails: on the sample document with two diagrams the
    orchestration of [processFile] is not the one of document order; the
    second diagram, [B], is announced and rendered before the first. *)
Lemma render_order_forward_counterexample :
  let rt := Demo.healthy in
  let ms := matchAll Demo.twoDiagrams MERMAID_RE in
  orchestration
    (trace (fst (processFile (Demo.config svg b64) (tt : Page rt) Demo.docPath
                             (Demo.start rt 0))))
  = [Progress (lit "  [2/2] "); Render (lit "B");
     Progress (lit "  [1/2] "); Render (lit "A")]
  /\ orchestrationIn ms (forwardOrder ms)
     = [Progress (lit "  [1/2] "); Render (lit "A");
        Progress (lit "  [2/2] "); Render (lit "B")]
  /\ orchestration
       (trace (fst (processFile (Demo.config svg b64) (tt : Page rt) Demo.docPath
                                (Demo.start rt 0))))
     <> orchestrationIn ms (forwardOrder ms).
Proof.
  vm_compute. repeat split. discriminate.
Qed.

(** C3, amended.  For every document with at least one diagram whose loop
    is reached, [processFile] announces and renders every diagram once, in
    reverse document order: the last diagram first, the first diagram
    last. *)
Theorem render_order_backward :
  forall (rt : Runtime) (cfg : Config) (page : Page rt) (filePath : str)
         (st : State rt) (w1 : World rt) (content : str) (st2 : State rt),
    readFile rt filePath (world st) = (w1, inr content) ->
    matchAll content MERMAID_RE <> [] ->
    loopStart rt cfg filePath st w1 (length (matchAll content MERMAID_RE)) st2 ->
    let ms := matchAll content MERMAID_RE in
    orchestration (trace (fst (processFile cfg page filePath st)))
    = orchestration (trace st) ++ orchestrationIn ms (backwardOrder ms).
Proof.
  intros rt cfg page filePath st w1 content st2 Hread Hne Hstart ms.
  destruct (processFile_run rt cfg page filePath st w1 content st2 Hread Hne Hstart)
    as [st3 [ds [_ [_ [Hatt Hpf]]]]].
  cbv zeta in Hatt, Hpf. fold ms in Hatt, Hpf.
  apply Attempts_orchestration in Hatt.
  assert (H2 : orchestration (trace st2) = orchestration (trace st)).
  { unfold loopStart, ensureDir, printed, called in Hstart. cbn [world trace] in Hstart.
    destruct (fmt cfg), (mode cfg);
      try (destruct (mkdir rt (mermaidDirOf filePath) w1) as [w2 r]);
      first [ injection Hstart as <- _ | injection Hstart as <- ]; cbn [trace];
      rewrite !orchestration_app; unfold orchestration; simpl;
      rewrite ?app_nil_r; reflexivity. }
  rewrite Hpf. unfold finish, backwardOrder.
  destruct (writeFile rt (outPathOf cfg filePath) (Text (weave content 0 ms ds))
                      (world st3)) as [w [e | u]].
  - unfold called. cbn [fst trace]. rewrite orchestration_app, Hatt, H2.
    unfold orchestration at 3. simpl. rewrite app_nil_r. reflexivity.
  - unfold called, printed. destruct (Nat.ltb 0 (countFailed ds));
      cbn [fst trace world]; rewrite !orchestration_app, Hatt, H2;
      unfold orchestration at 3 4; simpl; rewrite ?app_nil_r; reflexivity.
Qed.

Lemma render_order_backward_witness :
  let rt := Demo.healthy in
  let cfg := Demo.config svg b64 in
  let st := Demo.start rt 0 in
  let ms := matchAll Demo.twoDiagrams MERMAID_RE in
  orchestration (trace (fst (processFile cfg (tt : Page rt) Demo.docPath st)))
  = orchestration (trace st) ++ orchestrationIn ms (backwardOrder ms).
Proof.
  intros rt cfg st ms.
  apply (render_order_backward rt cfg tt Demo.docPath st 1 Demo.twoDiagrams
           (demoLoopStart Demo.renderAll cfg)).
  - reflexivity.
  - vm_compute. discriminate.
  - vm_compute. reflexivity.
Defined.

(** C9. The condition for an output file.  When the document was read:
    with no diagram, [processFile] returns [false], writes no file, and the
    file is not counted; with at least one diagram whose loop is reached,
    it issues the write of the output file with the woven text, which is
    the text of the document when every diagram failed, and the file is
    counted unless that write throws. *)
Theorem output_file_iff_diagrams :
  forall (rt : Runtime) (cfg : Config) (page : Page rt) (filePath : str)
         (st : State rt) (w1 : World rt) (content : str),
    readFile rt filePath (world st) = (w1, inr content) ->
    let ms := matchAll content MERMAID_RE in
    let res := processFile cfg page filePath st in
    (ms = [] ->
       snd res = inr false
       /\ fileWrites (trace (fst res)) = fileWrites (trace st)
       /\ forall processed,
            snd (fileLoop cfg page [filePath] processed st) = inr processed)
    /\ (ms <> [] ->
        forall st2,
          loopStart rt cfg filePath st w1 (length ms) st2 ->
          exists st3 ds,
            Attempts rt cfg page filePath ms (length ms) st2 ds st3
            /\ length ds = length ms
            /\ (Forall (fun d => isFailed d = true) ds ->
                weave content 0 ms ds = content)
            /\ exists w4 r,
                 writeFile rt (outPathOf cfg filePath)
                           (Text (weave content 0 ms ds)) (world st3) = (w4, r)
                 /\ fileWrites (trace (fst res))
                    = fileWrites (trace st3)
                      ++ [(outPathOf cfg filePath, Text (weave content 0 ms ds),
                           isOk r)]
                 /\ match r with
                    | inr _ =>
                        snd res = inr true
                        /\ forall processed,
                             snd (fileLoop cfg page [filePath] processed st)
                             = inr (processed + 1)
                    | inl e => snd res = inl e
                    end).
Proof.
  intros rt cfg page filePath st w1 content Hread ms res. split.
  - intros Hnil. unfold res. rewrite processFile_unfold, Hread. cbv zeta.
    fold ms. rewrite Hnil. simpl. repeat split.
    + unfold fileWrites. rewrite flat_map_app. simpl. apply app_nil_r.
    + intros processed. unfold bind. rewrite processFile_unfold, Hread. cbv zeta.
      fold ms. rewrite Hnil. reflexivity.
  - intros Hne st2 Hstart.
    destruct (processFile_run rt cfg page filePath st w1 content st2 Hread Hne Hstart)
      as [st3 [ds [_ [Hlen [Hatt Hpf]]]]].
    cbv zeta in Hlen, Hatt, Hpf. fold ms in Hlen, Hatt, Hpf.
    exists st3, ds. split; [exact Hatt|]. split; [exact Hlen|]. split.
    + intros Hall.
      rewrite (weave_all_failed content ms ds 0 (length content)
                 (matchAll_sortedSpans content MERMAID_RE) Hall).
      reflexivity.
    + destruct (writeFile rt (outPathOf cfg filePath)
                          (Text (weave content 0 ms ds)) (world st3))
        as [w4 r] eqn:Hw.
      exists w4, r. split; [reflexivity|].
      unfold res. rewrite Hpf. unfold finish. rewrite Hw.
      destruct r as [e | u].
      * split; [|reflexivity]. unfold called. cbn [fst trace].
        unfold fileWrites. rewrite flat_map_app. reflexivity.
      * split; [|split; [reflexivity|]].
        -- unfold called, printed.
           destruct (Nat.ltb 0 (countFailed ds)); cbn [fst trace world];
             unfold fileWrites; rewrite !flat_map_app; simpl;
             rewrite ?app_nil_r; reflexivity.
        -- intros processed. cbn [fileLoop]. unfold bind. rewrite Hpf.
           unfold finish. rewrite Hw. reflexivity.
Qed.

(** The sample document when every render throws: the output file is
    written and holds the text of the document. *)
Lemma output_file_iff_diagrams_witness :
  let rt := Demo.broken in
  let cfg := Demo.config jpg b64 in
  let st := Demo.start rt 0 in
  let ms := matchAll Demo.twoDiagrams MERMAID_RE in
  ms <> []
  /\ snd (processFile cfg (tt : Page rt) Demo.docPath st) = inr true
  /\ fileWrites (trace (fst (processFile cfg (tt : Page rt) Demo.docPath st)))
     = [(lit "/docs/a_mermaid2jpg.md", Text Demo.twoDiagrams, true)]
  /\ exists st3 ds,
       Attempts rt cfg tt Demo.docPath ms (length ms)
                (demoLoopStart Demo.renderNone cfg) ds st3
       /\ fileWrites (trace (fst (processFile cfg (tt : Page rt) Demo.docPath st)))
          = fileWrites (trace st3)
            ++ [(outPathOf cfg Demo.docPath, Text (weave Demo.twoDiagrams 0 ms ds), true)].
Proof.
  intros rt cfg st ms.
  assert (Hne : ms <> []) by (vm_compute; discriminate).
  split; [exact Hne|]. split; [vm_compute; reflexivity|].
  split; [vm_compute; reflexivity|].
  destruct (output_file_iff_diagrams rt cfg tt Demo.docPath st 1 Demo.twoDiagrams
              eq_refl) as [_ H].
  destruct (H Hne (demoLoopStart Demo.renderNone cfg) eq_refl)
    as [st3 [ds [Hatt [_ [_ [w4 [r [Hw [Hfw _]]]]]]]]].
  exists st3, ds. split; [exact Hatt|].
  rewrite Hfw. injection Hw as _ <-. reflexivity.
Defined.

(** C4. In vector mode the render of a diagram gives, when the renderer
    returns its markup, a line feed, the markup and a line feed, that is,
    the markup between an empty line before and an empty line after; this
    text takes the place of the span in [result].  When the renderer throws
    there is no replacement. *)
Theorem vector_replacement_shape :
  forall (rt : Runtime) (cfg : Config) (page : Page rt) (filePath : str)
         (ms : list RegExpMatch) (i : nat) (m : RegExpMatch) (g : str)
         (result : str) (failures : nat) (st : State rt),
    fmt cfg = svg ->
    nth_error ms i = Some m ->
    m_1 m = Some g ->
    match evaluate rt page (trim g) (world st) with
    | (w, inr svgText) =>
        let replacement := [LF] ++ svgText ++ [LF] in
        snd (renderReplacement cfg page filePath i (trim g) (announce rt ms i st))
        = inr replacement
        /\ snd (diagramStep cfg page filePath ms i (result, failures) st)
           = inr (slice result 0 (spanStart m) ++ replacement
                  ++ slice_from result (spanEnd m), failures)
        /\ splitOn LF replacement = [] :: splitOn LF svgText ++ [[]]
    | (w, inl err) =>
        snd (renderReplacement cfg page filePath i (trim g) (announce rt ms i st))
        = inl err
        /\ snd (diagramStep cfg page filePath ms i (result, failures) st)
           = inr (result, failures + 1)
    end.
Proof.
  intros rt cfg page filePath ms i m g result failures st Hfmt Hm Hg.
  assert (Hr : renderReplacement cfg page filePath i (trim g) (announce rt ms i st)
               = match evaluate rt page (trim g) (world st) with
                 | (w, inr svgText) =>
                     (called rt (announce rt ms i st) w (OpEvaluate (trim g)) true,
                      inr ([LF] ++ svgText ++ [LF]))
                 | (w, inl err) =>
                     (called rt (announce rt ms i st) w (OpEvaluate (trim g)) false,
                      inl err)
                 end).
  { unfold renderReplacement, renderDiagram, bind, call, ret, called, announce.
    cbn [world trace]. rewrite Hfmt.
    destruct (evaluate rt page (trim g) (world st)) as [w [err | svgText]];
      reflexivity. }
  destruct (evaluate rt page (trim g) (world st)) as [w [err | svgText]].
  - split; [rewrite Hr; reflexivity|].
    rewrite (diagramStep_run rt cfg page filePath ms i m g result failures st _ _ Hm Hg Hr).
    reflexivity.
  - cbv zeta. split; [rewrite Hr; reflexivity|]. split.
    + rewrite (diagramStep_run rt cfg page filePath ms i m g result failures st _ _ Hm Hg Hr).
      reflexivity.
    + rewrite app_assoc, splitOn_app_sep.
      change ([LF] ++ svgText) with (LF :: svgText).
      rewrite splitOn_sep_cons. reflexivity.
Qed.

Lemma vector_replacement_shape_witness :
  let rt := Demo.healthy in
  let cfg := Demo.config svg b64 in
  let ms := matchAll Demo.twoDiagrams MERMAID_RE in
  let replacement := [LF] ++ lit "<B>" ++ [LF] in
  snd (renderReplacement cfg (tt : Page rt) Demo.docPath 1 (lit "B")
                         (announce rt ms 1 (Demo.start rt 0)))
  = inr replacement
  /\ snd (diagramStep cfg (tt : Page rt) Demo.docPath ms 1 (Demo.twoDiagrams, 0)
                      (Demo.start rt 0))
     = inr (slice Demo.twoDiagrams 0 25 ++ replacement
            ++ slice_from Demo.twoDiagrams 41, 0)
  /\ splitOn LF replacement = [] :: splitOn LF (lit "<B>") ++ [[]].
Proof.
  intros rt cfg ms replacement.
  exact (vector_replacement_shape rt cfg tt Demo.docPath ms 1
           (mkMatch 25 (lit ("```mermaid" ++ Demo.NL ++ "B" ++ Demo.NL ++ "```"))
                    (Some (lit ("B" ++ Demo.NL))))
           (lit ("B" ++ Demo.NL)) Demo.twoDiagrams 0 (Demo.start rt 0)
           eq_refl eq_refl eq_refl).
Defined.

(* ================================================================== *)
(** * Names of the files and shape of the references *)
(* ================================================================== *)

Import PathFacts.

Section Naming.

Variable cfg : Config.
Variables (segs : list str) (name e : str).

Hypothesis folder_plain : Forall plain segs.
Hypothesis name_nonempty : name <> [].
Hypothesis name_noSlash : noSlash name = true.
Hypothesis ext_noSlash : noSlash e = true.
Hypothesis ext_noDot : forallb Path.notDot e = true.
Hypothesis not_dotdot : name ++ Path.DOT :: e <> [Path.DOT; Path.DOT].

(** The document [name.e] in the folder [segs]. *)
Local Abbreviation filePath := (absPath (segs ++ [name ++ Path.DOT :: e])).

Lemma source_noSlash : noSlash (name ++ Path.DOT :: e) = true.
Proof.
  rewrite noSlash_app, name_noSlash. simpl. exact ext_noSlash.
Qed.

Lemma source_nonempty : name ++ Path.DOT :: e <> [].
Proof. destruct name; discriminate. Qed.

Lemma source_lastComponent :
  Path.lastComponent filePath = name ++ Path.DOT :: e.
Proof.
  apply lastComponent_absPath; [apply source_nonempty | apply source_noSlash].
Qed.

Lemma source_dirname : Path.dirname filePath = absPath segs.
Proof.
  apply dirname_absPath;
    [exact folder_plain | apply source_nonempty | apply source_noSlash].
Qed.

Lemma source_extname : Path.extname filePath = Path.DOT :: e.
Proof.
  apply (extname_name_ext filePath name e source_lastComponent);
    assumption.
Qed.

Lemma source_baseOf : baseOf filePath = name.
Proof.
  unfold baseOf. rewrite source_extname.
  apply (basename_name_ext filePath name e source_lastComponent name_nonempty).
Qed.

(** A name made of [name], a marker of at least two characters without
    separator, and a tail without separator is a plain segment. *)
Lemma marked_plain (marker tail : str) :
  noSlash marker = true -> noSlash tail = true -> 2 <= length marker ->
  plain (name ++ marker ++ tail).
Proof.
  intros Hm Ht Hlen.
  assert (Hl : 3 <= length (name ++ marker ++ tail)).
  { rewrite !length_app. destruct name; [congruence | simpl; lia]. }
  repeat split.
  - intros H. rewrite H in Hl. simpl in Hl. lia.
  - rewrite !noSlash_app, name_noSlash, Hm, Ht. reflexivity.
  - intros H. rewrite H in Hl. simpl in Hl. lia.
  - intros H. rewrite H in Hl. simpl in Hl. lia.
Qed.

Lemma outPathOf_source :
  outPathOf cfg filePath
  = absPath (segs ++ [name ++ suffix cfg ++ Path.DOT :: e]).
Proof.
  unfold outPathOf. rewrite source_dirname, source_baseOf, source_extname.
  apply join_absPath; [exact folder_plain|].
  apply marked_plain.
  - unfold suffix. destruct (fmt cfg); reflexivity.
  - simpl. exact ext_noSlash.
  - unfold suffix. destruct (fmt cfg); simpl; lia.
Qed.

Lemma mermaid_plain : plain (lit "mermaid").
Proof. repeat split; try discriminate. Qed.

Lemma mermaidDirOf_source :
  mermaidDirOf filePath = absPath (segs ++ [lit "mermaid"]).
Proof.
  unfold mermaidDirOf. rewrite source_dirname.
  apply join_absPath; [exact folder_plain | exact mermaid_plain].
Qed.

Lemma imagePath_source (i : nat) :
  Path.join (mermaidDirOf filePath) (fnameOf filePath i)
  = absPath (segs ++ [lit "mermaid"; name ++ lit "-" ++ ofNat (i + 1) ++ lit ".jpg"]).
Proof.
  rewrite mermaidDirOf_source. unfold fnameOf. rewrite source_baseOf.
  rewrite join_absPath.
  - rewrite <- app_assoc. reflexivity.
  - apply Forall_app. split; [exact folder_plain|].
    constructor; [exact mermaid_plain | constructor].
  - apply (marked_plain (lit "-" ++ ofNat (i + 1)) (lit ".jpg")).
    + rewrite noSlash_app. simpl.
      apply digits_noSlash, ofNat_digits.
    + reflexivity.
    + rewrite length_app. simpl.
      pose proof (ofNat_digits (i + 1)).
      destruct (ofNat (i + 1)) eqn:E; [|simpl; lia].
      unfold ofNat, DecimalString.NilZero.string_of_uint in E.
      destruct (Nat.to_uint (i + 1)); discriminate.
Qed.

End Naming.

(** The render of one diagram in raster mode, when the renderer, the
    element query and the capture succeed. *)
Lemma renderReplacement_raster
      (rt : Runtime) (cfg : Config) (page : Page rt) (filePath : str) (i : nat)
      (code : str) (st : State rt) (w1 w2 w3 : World rt) (svgText : str)
      (el : ElementHandle rt) (shot : Buffer) :
  fmt cfg = jpg ->
  evaluate rt page code (world st) = (w1, inr svgText) ->
  querySelector rt page (lit "svg") w1 = (w2, inr (Some el)) ->
  screenshot rt el w2 = (w3, inr shot) ->
  let st3 := mkSt rt w3 (trace st ++ [Call (OpEvaluate code) true;
                                      Call (OpQuerySelector (lit "svg")) true;
                                      Call OpScreenshot true]) in
  let imagePath := Path.join (mermaidDirOf filePath) (fnameOf filePath i) in
  renderReplacement cfg page filePath i code st
  = match mode cfg with
    | b64 =>
        (st3, inr (lit "![Diagram " ++ ofNat (i + 1)
                   ++ lit "](data:image/jpeg;base64," ++ encode shot ++ lit ")"))
    | files =>
        match writeFile rt imagePath (Bytes shot) w3 with
        | (w4, inr _) =>
            (called rt st3 w4 (OpWriteFile imagePath (Bytes shot)) true,
             inr (lit "![Diagram " ++ ofNat (i + 1) ++ lit "](./mermaid/"
                  ++ fnameOf filePath i ++ lit ")"))
        | (w4, inl err) =>
            (called rt st3 w4 (OpWriteFile imagePath (Bytes shot)) false, inl err)
        end
    end.
Proof.
  intros Hfmt Hev Hq Hs st3 imagePath.
  unfold renderReplacement, renderDiagram, bind, call, ret, called.
  rewrite Hfmt, Hev. cbn [world trace isOk]. rewrite Hq. cbn [world trace isOk].
  rewrite Hs. cbn [world trace isOk].
  unfold st3, imagePath. rewrite <- !app_assoc. cbn [app].
  destruct (mode cfg); [reflexivity|]. cbn [world trace].
  destruct (writeFile rt _ (Bytes shot) w3) as [w4 [err | u]]; reflexivity.
Qed.

(** C8. The naming convention.  For the document [name.e] in the folder
    [segs]: the output path is [name_mermaid2svg.e] in vector mode and
    [name_mermaid2jpg.e] in raster mode, in the same folder; in raster
    external-file mode the diagram with index [i], the [(i + 1)]-th in
    document order, is written to [mermaid/name-(i + 1).jpg] under that
    folder and replaced by the reference
    [![Diagram (i + 1)](./mermaid/name-(i + 1).jpg)]; in raster inline mode
    it is replaced by
    [![Diagram (i + 1)](data:image/jpeg;base64,] followed by the base64
    text of the capture and [)]. *)
Theorem naming_convention :
  forall (cfg : Config) (segs : list str) (name e : str) (i : nat),
    Forall plain segs ->
    name <> [] -> noSlash name = true ->
    noSlash e = true -> forallb Path.notDot e = true ->
    name ++ Path.DOT :: e <> [Path.DOT; Path.DOT] ->
    let filePath := absPath (segs ++ [name ++ Path.DOT :: e]) in
    let ordinal := ofNat (i + 1) in
    let imageName := name ++ lit "-" ++ ordinal ++ lit ".jpg" in
    let imagePath := absPath (segs ++ [lit "mermaid"; imageName]) in
    outPathOf cfg filePath
    = absPath (segs ++ [name ++ match fmt cfg with
                                | svg => lit "_mermaid2svg"
                                | jpg => lit "_mermaid2jpg"
                                end ++ Path.DOT :: e])
    /\ forall (rt : Runtime) (page : Page rt) (code : str) (st : State rt)
              (w1 w2 w3 : World rt) (svgText : str) (el : ElementHandle rt)
              (shot : Buffer),
         fmt cfg = jpg ->
         evaluate rt page code (world st) = (w1, inr svgText) ->
         querySelector rt page (lit "svg") w1 = (w2, inr (Some el)) ->
         screenshot rt el w2 = (w3, inr shot) ->
         let res := renderReplacement cfg page filePath i code st in
         match mode cfg with
         | b64 =>
             snd res = inr (lit "![Diagram " ++ ordinal
                            ++ lit "](data:image/jpeg;base64,"
                            ++ encode shot ++ lit ")")
             /\ fileWrites (trace (fst res)) = fileWrites (trace st)
         | files =>
             match writeFile rt imagePath (Bytes shot) w3 with
             | (w4, inr _) =>
                 snd res = inr (lit "![Diagram " ++ ordinal ++ lit "](./mermaid/"
                                ++ imageName ++ lit ")")
                 /\ fileWrites (trace (fst res))
                    = fileWrites (trace st) ++ [(imagePath, Bytes shot, true)]
             | (w4, inl err) => snd res = inl err
             end
         end.
Proof.
  intros cfg segs name e i Hsegs Hname Hns Hens Hed Hdd
         filePath ordinal imageName imagePath.
  split.
  - unfold filePath. rewrite outPathOf_source by assumption. reflexivity.
  - intros rt page code st w1 w2 w3 svgText el shot Hfmt Hev Hq Hs res.
    unfold res.
    rewrite (renderReplacement_raster rt cfg page filePath i code st w1 w2 w3
               svgText el shot Hfmt Hev Hq Hs).
    assert (Hbase : fnameOf filePath i = imageName).
    { unfold fnameOf, filePath. rewrite source_baseOf by assumption. reflexivity. }
    assert (Himg : Path.join (mermaidDirOf filePath) (fnameOf filePath i) = imagePath).
    { unfold filePath. rewrite imagePath_source by assumption. reflexivity. }
    cbv zeta. rewrite Himg, Hbase.
    destruct (mode cfg).
    + split; [reflexivity|]. cbn [fst trace].
      unfold fileWrites. rewrite flat_map_app. simpl. apply app_nil_r.
    + destruct (writeFile rt imagePath (Bytes shot) w3) as [w4 [err | u]];
        [reflexivity|].
      split; [reflexivity|]. unfold called. cbn [fst trace].
      unfold fileWrites. rewrite !flat_map_app. simpl. rewrite app_nil_r.
      reflexivity.
Qed.

(** The document [/docs/architecture.md], first diagram, external-file
    mode. *)
Lemma naming_convention_witness :
  let cfg := Build_Config (lit "/docs/architecture.md") jpg files 2 in
  let filePath := lit "/docs/architecture.md" in
  let rt := Demo.healthy in
  outPathOf cfg filePath = lit "/docs/architecture_mermaid2jpg.md"
  /\ snd (renderReplacement cfg (tt : Page rt) filePath 0 (lit "A") (Demo.start rt 0))
     = inr (lit "![Diagram 1](./mermaid/architecture-1.jpg)")
  /\ fileWrites (trace (fst (renderReplacement cfg (tt : Page rt) filePath 0 (lit "A")
                                               (Demo.start rt 0))))
     = [(lit "/docs/mermaid/architecture-1.jpg",
         Bytes [Byte.x4d; Byte.x61; Byte.x6e], true)].
Proof.
  intros cfg filePath rt.
  destruct (naming_convention cfg [lit "docs"] (lit "architecture") (lit "md") 0)
    as [Hout Hrep].
  - repeat constructor; discriminate.
  - discriminate.
  - reflexivity.
  - reflexivity.
  - reflexivity.
  - discriminate.
  - split; [exact Hout|].
    exact (Hrep rt tt (lit "A") (Demo.start rt 0) 1 2 3 (lit "<A>") tt
                [Byte.x4d; Byte.x61; Byte.x6e] eq_refl eq_refl eq_refl eq_refl).
Defined.

(** The same document in inline and in vector mode. *)
Example naming_convention_inline :
  let rt := Demo.healthy in
  outPathOf (Demo.config jpg b64) (lit "/docs/architecture.md")
  = lit "/docs/architecture_mermaid2jpg.md"
  /\ outPathOf (Demo.config svg b64) (lit "/docs/architecture.md")
     = lit "/docs/architecture_mermaid2svg.md"
  /\ snd (renderReplacement (Demo.config jpg b64) (tt : Page rt)
                            (lit "/docs/architecture.md") 0 (lit "A")
                            (Demo.start rt 0))
     = inr (lit "![Diagram 1](data:image/jpeg;base64,TWFu)").
Proof. vm_compute. repeat split. Qed.

(* ================================================================== *)
(** * The discovery of documents *)
(* ================================================================== *)

Module DiscoveryFacts.

Lemma Dirent_induction (P : Dirent -> Prop) :
  (forall name, P (FileEntry name)) ->
  (forall name entries, Forall P entries -> P (DirEntry name entries)) ->
  forall entry, P entry.
Proof.
  intros Hfile Hdir. fix IH 1. intros [name | name entries].
  - apply Hfile.
  - apply Hdir. induction entries as [|e es IHes]; constructor.
    + apply IH.
    + exact IHes.
Qed.

Lemma collectEntry_dir dir name entries :
  collectEntry dir (DirEntry name entries)
  = collectMarkdownFiles (Path.join dir name) entries.
Proof.
  unfold collectMarkdownFiles. simpl.
  induction entries as [|e es IH]; simpl; [reflexivity|].
  rewrite IH. reflexivity.
Qed.

Lemma collectEntry_file dir name :
  collectEntry dir (FileEntry name)
  = if eligible name then [Path.join dir name] else [].
Proof. reflexivity. Qed.

Lemma ListedFile_incl dir entries entries' full name :
  (forall e, In e entries -> In e entries') ->
  ListedFile dir entries full name -> ListedFile dir entries' full name.
Proof.
  intros Hincl H. inversion H; subst.
  - apply ListedHere. auto.
  - eapply ListedBelow; eauto.
Qed.

Lemma ListedFile_entry dir entries full name :
  ListedFile dir entries full name ->
  exists e, In e entries /\ ListedFile dir [e] full name.
Proof.
  intros H. inversion H; subst.
  - exists (FileEntry name). split; [assumption|].
    apply ListedHere. left. reflexivity.
  - exists (DirEntry sub subEntries). split; [assumption|].
    eapply ListedBelow; [left; reflexivity | eassumption].
Qed.

Lemma collectMarkdownFiles_entries entries :
  Forall entrySpec entries ->
  forall dir full,
    In full (collectMarkdownFiles dir entries)
    <-> exists name, ListedFile dir entries full name /\ eligible name = true.
Proof.
  intros Hall dir full. unfold collectMarkdownFiles. rewrite in_flat_map.
  rewrite Forall_forall in Hall. split.
  - intros [e [Hin Hfull]]. apply (Hall e Hin) in Hfull.
    destruct Hfull as [name [Hl He]]. exists name. split; [|exact He].
    eapply ListedFile_incl; [|exact Hl].
    intros e' [<- | []]. exact Hin.
  - intros [name [Hl He]]. apply ListedFile_entry in Hl.
    destruct Hl as [e [Hin Hl]]. exists e. split; [exact Hin|].
    apply (Hall e Hin). eauto.
Qed.

Lemma collectEntry_spec : forall entry, entrySpec entry.
Proof.
  apply Dirent_induction.
  - intros name dir full. rewrite collectEntry_file. split.
    + destruct (eligible name) eqn:He; [|intros []].
      intros [<- | []]. exists name. split; [|exact He].
      apply ListedHere. left. reflexivity.
    + intros [name' [Hl He]]. inversion Hl; subst.
      * match goal with H : In _ [_] |- _ => destruct H as [Heq | []] end.
        injection Heq as <-. rewrite He. left. reflexivity.
      * match goal with H : In _ [_] |- _ => destruct H as [Heq | []] end.
        discriminate.
  - intros name entries Hall dir full. rewrite collectEntry_dir.
    rewrite (collectMarkdownFiles_entries entries Hall). split.
    + intros [name' [Hl He]]. exists name'. split; [|exact He].
      eapply ListedBelow; [left; reflexivity | exact Hl].
    + intros [name' [Hl He]]. inversion Hl; subst.
      * match goal with H : In _ [_] |- _ => destruct H as [Heq | []] end.
        discriminate.
      * match goal with H : In _ [_] |- _ => destruct H as [Heq | []] end.
        injection Heq as <- <-. eauto.
Qed.

End DiscoveryFacts.
Import DiscoveryFacts.

(** C10. The walk of a folder selects exactly the files, at any depth,
    whose names end in [.md] and do not contain [_mermaid2]; a file that
    bears the name of an output of this tool is therefore never selected;
    and a path that [stat] reports as a file is scanned as it is, whatever
    its name. *)
Theorem discovery_filter :
  forall (dir : str) (entries : list Dirent),
    (forall full,
        In full (collectMarkdownFiles dir entries)
        <-> exists name,
              ListedFile dir entries full name
              /\ endsWith name (lit ".md") = true
              /\ includes name (lit "_mermaid2") = false)
    /\ (forall (cfg : Config) (source folder : str),
           collectEntry folder
             (FileEntry (baseOf source ++ suffix cfg ++ Path.extname source))
           = [])
    /\ (forall cfg : Config,
           filesOf cfg IsFile = [mdPath cfg]
           /\ forall listing,
                filesOf cfg (IsDirectory listing)
                = collectMarkdownFiles (mdPath cfg) listing).
Proof.
  intros dir entries. split; [|split].
  - intros full.
    rewrite (collectMarkdownFiles_entries entries
               (proj2 (Forall_forall _ _) (fun e _ => collectEntry_spec e))).
    unfold eligible. split; intros [name [Hl He]]; exists name; (split; [exact Hl|]).
    + apply andb_true_iff in He. destruct He as [H1 H2].
      apply negb_true_iff in H2. auto.
    + destruct He as [H1 H2]. rewrite H1, H2. reflexivity.
  - intros cfg source folder. rewrite collectEntry_file.
    assert (Hinc : includes (baseOf source ++ suffix cfg ++ Path.extname source)
                            (lit "_mermaid2") = true).
    { apply includes_iff. exists (baseOf source).
      unfold suffix. destruct (fmt cfg).
      - exists (lit "svg" ++ Path.extname source). reflexivity.
      - exists (lit "jpg" ++ Path.extname source). reflexivity. }
    unfold eligible. rewrite Hinc, andb_false_r. reflexivity.
  - intros cfg. split; reflexivity.
Qed.

(** A tree with a document, a generated output, a text file and a
    sub-folder. *)
Example discovery_filter_sample :
  collectMarkdownFiles (lit "/docs")
    [ FileEntry (lit "a.md");
      FileEntry (lit "a_mermaid2svg.md");
      FileEntry (lit "notes.txt");
      DirEntry (lit "sub") [ FileEntry (lit "b.md");
                             FileEntry (lit "b_mermaid2jpg.md") ] ]
  = [lit "/docs/a.md"; lit "/docs/sub/b.md"]
  /\ filesOf (Build_Config (lit "/docs/a_mermaid2svg.txt") svg b64 2) IsFile
     = [lit "/docs/a_mermaid2svg.txt"]
  /\ In (Call (OpReadFile (lit "/docs/a_mermaid2svg.txt")) true)
        (trace (fst (run (rt := Demo.healthy)
                         (Build_Values (Some (lit "/docs/a_mermaid2svg.txt"))
                                       true false false false None false false)
                         (Demo.start Demo.healthy 0)))).
Proof.
  vm_compute. repeat split.
  repeat (first [ left; reflexivity | right ]).
Qed.

(* ================================================================== *)
(** * The device scale factor *)
(* ================================================================== *)

Module ScaleFacts.
Import Scale.

Lemma digitsValue_some s : forall a, digitsValue s (Some a) <> None.
Proof.
  induction s as [|c s IH]; simpl; intros a; [discriminate|].
  destruct (isDigit c); [apply IH | discriminate].
Qed.

Lemma digitsValue_none s :
  digitsValue s None = None
  <-> match s with c :: _ => isDigit c | [] => false end = false.
Proof.
  destruct s as [|c s]; simpl; [tauto|].
  destruct (isDigit c); [|tauto].
  split; [|discriminate]. intros H. exfalso. exact (digitsValue_some _ _ H).
Qed.

Lemma digitsValue_uint (d : Decimal.uint) : forall acc : nat,
  digitsValue (lit (DecimalString.NilEmpty.string_of_uint d)) (Some (Z.of_nat acc))
  = Some (Z.of_nat (Nat.of_uint_acc d acc)).
Proof.
  induction d; intros acc; cbn [DecimalString.NilEmpty.string_of_uint Nat.of_uint_acc];
    try reflexivity;
    match goal with
    | |- digitsValue (lit (String ?a ?s)) _ = _ =>
        change (lit (String a s)) with (N_of_ascii a :: lit s)
    end;
    cbn [digitsValue];
    match goal with
    | |- (if isDigit ?c then _ else _) = _ =>
        change (isDigit c) with true
    end;
    cbv iota; rewrite <- IHd; do 2 f_equal; rewrite Nat.tail_mul_spec;
    unfold digitValue; simpl N_of_ascii; lia.
Qed.

Lemma digitsValue_start s :
  match s with c :: _ => isDigit c | [] => false end = true ->
  digitsValue s None = digitsValue s (Some 0%Z).
Proof.
  destruct s as [|c s]; simpl; [discriminate|]. intros ->. reflexivity.
Qed.

Lemma ofNat_head n :
  match ofNat n with c :: _ => isDigit c | [] => false end = true.
Proof.
  pose proof (ofNat_digits n) as H.
  destruct (ofNat n) as [|c s] eqn:E.
  - unfold ofNat, DecimalString.NilZero.string_of_uint in E.
    destruct (Nat.to_uint n); discriminate.
  - simpl in H. apply andb_true_iff in H. tauto.
Qed.

Lemma digitsValue_ofNat n : digitsValue (ofNat n) None = Some (Z.of_nat n).
Proof.
  rewrite digitsValue_start by apply ofNat_head.
  unfold ofNat, DecimalString.NilZero.string_of_uint.
  assert (H : Z.of_nat n = Z.of_nat (Nat.of_uint_acc (Nat.to_uint n) 0)).
  { f_equal. symmetry. apply DecimalNat.Unsigned.of_to. }
  rewrite H.
  destruct (Nat.to_uint n) as [|u|u|u|u|u|u|u|u|u|u];
    [reflexivity | ..];
    match goal with
    | |- digitsValue (lit (DecimalString.NilEmpty.string_of_uint ?d)) _ = _ =>
        exact (digitsValue_uint d 0)
    end.
Qed.

Lemma digit_not_space c : isDigit c = true -> isSpace c = false.
Proof.
  unfold isDigit. intros H. apply andb_true_iff in H. destruct H as [Hlo Hhi].
  apply N.leb_le in Hlo, Hhi.
  unfold isSpace, isWhiteSpace, isLineTerminator.
  repeat match goal with
         | |- context [(c =? ?k)%N] =>
             replace (c =? k)%N with false by (symmetry; apply N.eqb_neq; lia)
         end.
  replace (0x2000 <=? c)%N with false by (symmetry; apply N.leb_gt; lia).
  reflexivity.
Qed.

Lemma trimStart_digit s :
  match s with c :: _ => isDigit c | [] => false end = true -> trimStart s = s.
Proof.
  destruct s as [|c s]; simpl; [reflexivity|]. intros H.
  rewrite (digit_not_space c H). reflexivity.
Qed.

Lemma splitSign_digit s :
  match s with c :: _ => isDigit c | [] => false end = true ->
  splitSign s = (1%Z, s).
Proof.
  destruct s as [|c s]; simpl; [reflexivity|]. intros H.
  unfold isDigit in H. apply andb_true_iff in H. destruct H as [Hlo Hhi].
  apply N.leb_le in Hlo, Hhi. unfold char_eqb.
  replace (c =? 45)%N with false by (symmetry; apply N.eqb_neq; lia).
  replace (c =? 43)%N with false by (symmetry; apply N.eqb_neq; lia).
  reflexivity.
Qed.

(** [parseInt] reads back the decimal writing of a natural number, and
    its opposite after a minus sign. *)
Lemma parseInt10_ofNat n : parseInt10 (ofNat n) = Some (Z.of_nat n).
Proof.
  unfold parseInt10. rewrite trimStart_digit by apply ofNat_head.
  rewrite splitSign_digit by apply ofNat_head.
  rewrite digitsValue_ofNat. f_equal. lia.
Qed.

Lemma parseInt10_minus n : parseInt10 (lit "-" ++ ofNat n) = Some (- Z.of_nat n)%Z.
Proof.
  unfold parseInt10. change (lit "-" ++ ofNat n) with (45%N :: ofNat n).
  change (trimStart (45%N :: ofNat n)) with (45%N :: ofNat n).
  change (splitSign (45%N :: ofNat n)) with ((-1)%Z, ofNat n).
  cbv beta iota. rewrite digitsValue_ofNat. reflexivity.
Qed.


End ScaleFacts.

(** ** The pages opened in a run *)

Module SessionFacts.

Section Pages.

Variable rt : Runtime.

Local Abbreviation emitsPages := (@RunSpec.emitsPages rt _).

Lemma newPageScales_app e1 e2 :
  newPageScales (e1 ++ e2) = newPageScales e1 ++ newPageScales e2.
Proof. apply flat_map_app. Qed.

Lemma pagesAtMost_quiet_l s e1 e2 :
  Forall notNewPage e1 -> pagesAtMost s e2 -> pagesAtMost s (e1 ++ e2).
Proof.
  intros H1 H2. unfold pagesAtMost in *.
  rewrite newPageScales_app, (notNewPage_scales e1 H1). exact H2.
Qed.

Lemma pagesAtMost_quiet_r s e1 e2 :
  pagesAtMost s e1 -> Forall notNewPage e2 -> pagesAtMost s (e1 ++ e2).
Proof.
  intros H1 H2. unfold pagesAtMost in *.
  rewrite newPageScales_app, (notNewPage_scales e2 H2), app_nil_r. exact H1.
Qed.

Lemma pagesAtMost_quiet s evs : Forall notNewPage evs -> pagesAtMost s evs.
Proof. intros H. left. apply notNewPage_scales. exact H. Qed.

Lemma emitsPages_quiet {A} s (m : M rt A) :
  emitsOnly notNewPage m -> emitsPages s m.
Proof.
  intros H st. destruct (H st) as [evs [Ht Hq]].
  exists evs. split; [exact Ht | apply pagesAtMost_quiet; exact Hq].
Qed.

Lemma emitsPages_bind_l {A B} s (m : M rt A) (k : A -> M rt B) :
  emitsOnly notNewPage m -> (forall a, emitsPages s (k a)) ->
  emitsPages s (bind m k).
Proof.
  intros Hm Hk st. unfold bind.
  destruct (Hm st) as [e1 [H1 P1]].
  destruct (m st) as [st1 [e | a]]; simpl in H1.
  - exists e1. split; [exact H1 | apply pagesAtMost_quiet; exact P1].
  - destruct (Hk a st1) as [e2 [H2 P2]].
    exists (e1 ++ e2). rewrite H2, H1, app_assoc. split; [reflexivity|].
    apply pagesAtMost_quiet_l; assumption.
Qed.

Lemma emitsPages_bind_r {A B} s (m : M rt A) (k : A -> M rt B) :
  emitsPages s m -> (forall a, emitsOnly notNewPage (k a)) ->
  emitsPages s (bind m k).
Proof.
  intros Hm Hk st. unfold bind.
  destruct (Hm st) as [e1 [H1 P1]].
  destruct (m st) as [st1 [e | a]]; simpl in H1.
  - exists e1. split; [exact H1 | exact P1].
  - destruct (Hk a st1) as [e2 [H2 P2]].
    exists (e1 ++ e2). rewrite H2, H1, app_assoc. split; [reflexivity|].
    apply pagesAtMost_quiet_r; assumption.
Qed.

Lemma emitsPages_tryFinally {A} s (m : M rt A) (c : M rt unit) :
  emitsPages s m -> emitsOnly notNewPage c -> emitsPages s (tryFinally m c).
Proof.
  intros Hm Hc st. unfold tryFinally.
  destruct (Hm st) as [e1 [H1 P1]].
  destruct (m st) as [st1 r]; simpl in H1.
  destruct (Hc st1) as [e2 [H2 P2]].
  exists (e1 ++ e2).
  destruct (c st1) as [st2 [e | u]]; simpl in *;
    rewrite H2, H1, app_assoc;
    (split; [reflexivity | apply pagesAtMost_quiet_r; assumption]).
Qed.

Lemma emitsPages_tryCatch {A} s (m : M rt A) (h : Error -> M rt A) :
  emitsPages s m -> (forall e, emitsOnly notNewPage (h e)) ->
  emitsPages s (tryCatch m h).
Proof.
  intros Hm Hh st. unfold tryCatch.
  destruct (Hm st) as [e1 [H1 P1]].
  destruct (m st) as [st1 [e | a]]; simpl in H1.
  - destruct (Hh e st1) as [e2 [H2 P2]].
    exists (e1 ++ e2). rewrite H2, H1, app_assoc. split; [reflexivity|].
    apply pagesAtMost_quiet_r; assumption.
  - exists e1. split; [exact H1 | exact P1].
Qed.

Lemma emitsPages_newPage {A} s (f : World rt -> World rt * (Error + A)) :
  emitsPages s (call (OpNewPage s) f).
Proof.
  intros st. unfold call. destruct (f (world st)) as [w r].
  exists [Call (OpNewPage s) (isOk r)]. split; [reflexivity|].
  right. reflexivity.
Qed.

Variable cfg : Config.

Ltac quiet :=
  repeat first
    [ exact I
    | progress unfold consoleLog, consoleError, consoleWarn, stdoutWrite,
        stderrWrite, help
    | emits_step ].

Lemma initPage_pages browser : emitsPages (scale cfg) (initPage cfg browser).
Proof.
  unfold initPage. apply emitsPages_bind_r; [apply emitsPages_newPage|].
  intros page. quiet.
Qed.

Lemma main_pages : emitsPages (scale cfg) (main cfg).
Proof.
  unfold main.
  apply emitsPages_bind_l; [quiet|]. intros _.
  apply emitsPages_bind_l; [quiet|]. intros info.
  destruct (Nat.eqb (length (filesOf cfg info)) 0).
  - apply emitsPages_quiet. quiet.
  - apply emitsPages_bind_l; [quiet|]. intros _.
    apply emitsPages_bind_l; [quiet|]. intros browser.
    apply emitsPages_bind_r; [|intros processed; quiet].
    apply emitsPages_tryFinally; [|quiet].
    apply emitsPages_bind_r; [apply initPage_pages|].
    intros page. apply emitsOnly_bind; [apply fileLoop_notNewPage|].
    intros processed. quiet.
Qed.

Lemma startup_quiet values : emitsOnly notNewPage (@startup rt values).
Proof.
  unfold startup.
  destruct (v_version values); [quiet|].
  destruct (v_help values || negb (truthy (v_md values))); [quiet|].
  destruct (v_svg values && v_jpg values); [quiet|].
  destruct (v_b64 values && v_files values); [quiet|].
  destruct (v_svg values && v_files values); [quiet|].
  destruct (Scale.scaleOf (v_scale values)) as [v|]; [|quiet].
  intros st. destruct (existsSync rt _ (world st)).
  - exists []. simpl. rewrite app_nil_r. auto.
  - eexists. unfold bind, consoleError, emit, ret. simpl. split; [reflexivity|].
    repeat constructor.
Qed.


End Pages.

End SessionFacts.

Import ScaleFacts SessionFacts.

(* ================================================================== *)
(** * The anchoring of the fences *)
(* ================================================================== *)

(** C6. A line starts at index 0 and after every line terminator.  In
    every match of [MERMAID_RE] the opening fence stands at the start of a
    line and so does the closing fence; hence an index that is not the start
    of a line is neither the opening nor the closing fence of any match.  An
    opening fence after which no line starts with a fence token starts no
    match.  When the pattern matches nowhere, [matchAll] gives the empty
    list, and [processFile] then returns [false] without throwing. *)
Theorem fence_anchoring :
  forall content : str,
    Forall (fun m => fenced content (fst m) (snd m))
           (matchStates content MERMAID_RE)
    /\ (forall p,
           atLineStart content p = false ->
           Forall (fun m => fst m <> p /\ closingFence (snd m) <> Some p)
                  (matchStates content MERMAID_RE))
    /\ (forall i,
           (forall q, i < q -> atLineStart content q = true ->
                      ~ textAt content q (lit "```")) ->
           Forall (fun m => fst m <> i) (matchStates content MERMAID_RE))
    /\ ((forall j, matcher content MERMAID_RE (mkState j []) (fun y => Some y)
                   = None) ->
        matchAll content MERMAID_RE = [])
    /\ (matchAll content MERMAID_RE = [] ->
        forall (rt : Runtime) (cfg : Config) (page : Page rt) (filePath : str)
               (st : State rt) (w1 : World rt),
          readFile rt filePath (world st) = (w1, inr content) ->
          processFile cfg page filePath st
          = (called rt st w1 (OpReadFile filePath) true, inr false)).
Proof.
  intros content.
  pose proof (matchAll_MERMAID_RE_fenced content) as Hf.
  split; [exact Hf|]. split; [|split; [|split]].
  - intros p Hp. eapply Forall_impl; [|exact Hf].
    intros [j y] [a [q [Hc [Hj [_ [_ [_ [_ [_ [Hq _]]]]]]]]]].
    cbn [fst snd] in *. split.
    + intros ->. congruence.
    + unfold closingFence. rewrite Hc. simpl. intros H. injection H as ->.
      congruence.
  - intros i Hi. eapply Forall_impl; [|exact Hf].
    intros [j y] [a [q [_ [_ [_ [Ha [_ [_ [Haq [Hq [Ht _]]]]]]]]]]].
    cbn [fst snd] in *. intros ->.
    apply (Hi q); [lia | exact Hq | exact Ht].
  - apply matchAll_none.
  - intros Hnil rt cfg page filePath st w1 Hread.
    rewrite processFile_unfold, Hread. cbv zeta. rewrite Hnil. reflexivity.
Qed.

(** An opening fence whose only fence token afterwards stands in the middle
    of a line. *)
Lemma fence_anchoring_witness :
  let content := lit ("```mermaid" ++ Demo.NL ++ "A ```") in
  Forall (fun m => fst m <> 0) (matchStates content MERMAID_RE)
  /\ atLineStart content 13 = false
  /\ Forall (fun m => fst m <> 13 /\ closingFence (snd m) <> Some 13)
            (matchStates content MERMAID_RE).
Proof.
  intros content.
  destruct (fence_anchoring content) as [_ [Hmid [Hopen _]]].
  split; [|split].
  - apply Hopen. intros q Hq Hls Ht.
    do 17 (destruct q as [|q];
           [ vm_compute in Hls; vm_compute in Ht; try discriminate; try lia |]).
    vm_compute in Hls. destruct q; discriminate.
  - reflexivity.
  - apply Hmid. reflexivity.
Defined.

(** Sample documents: a fence in the middle of a line and an unterminated
    fence give no match; a fenced block gives one. *)
Example fence_anchoring_samples :
  matchAll (lit ("text ```mermaid" ++ Demo.NL ++ "A" ++ Demo.NL ++ "```")) MERMAID_RE = []
  /\ matchAll (lit ("```mermaid" ++ Demo.NL ++ "A" ++ Demo.NL ++ "text ```")) MERMAID_RE = []
  /\ matchAll (lit ("```mermaid" ++ Demo.NL ++ "A" ++ Demo.NL)) MERMAID_RE = []
  /\ map spanOf (matchAll (lit ("```mermaid" ++ Demo.NL ++ "A" ++ Demo.NL ++ "```"))
                          MERMAID_RE) = [(0, 16)].
Proof. vm_compute. repeat split. Qed.

(* ================================================================== *)
(** * Trimming *)
(* ================================================================== *)

Module TrimFacts.

Lemma trimStart_clean s : startsClean (trimStart s).
Proof.
  induction s as [|c s IH]; simpl; [exact I|].
  destruct (isSpace c) eqn:E; [exact IH | exact E].
Qed.

(** [trimStart] removes a run of white space from the front. *)
Lemma trimStart_split s :
  exists l, s = l ++ trimStart s /\ Forall (fun c => isSpace c = true) l.
Proof.
  induction s as [|c s [l [Hs Hl]]]; simpl.
  - exists []. split; [reflexivity | constructor].
  - destruct (isSpace c) eqn:E.
    + exists (c :: l). split; [simpl; f_equal; exact Hs | constructor; assumption].
    + exists []. split; [reflexivity | constructor].
Qed.

(** White space in front of a text that ends clean is all that [trimStart]
    can take. *)
Lemma trimStart_keeps_last l c :
  isSpace c = false -> exists l', trimStart (l ++ [c]) = l' ++ [c].
Proof.
  intros Hc. induction l as [|d l [l' IH]]; simpl.
  - rewrite Hc. exists []. reflexivity.
  - destruct (isSpace d).
    + exists l'. exact IH.
    + exists (d :: l). reflexivity.
Qed.

Lemma trim_trimmed s : trimmed (trim s).
Proof.
  unfold trimmed, trim, trimEnd. split.
  - pose proof (trimStart_clean s) as Hs.
    destruct (trimStart s) as [|c t] eqn:E; [exact I|].
    simpl in Hs. simpl rev.
    destruct (trimStart_keeps_last (rev t) c Hs) as [l' Hl'].
    rewrite Hl', rev_app_distr. simpl. exact Hs.
  - rewrite rev_involutive. apply trimStart_clean.
Qed.

(** [trim] removes white space at both ends and nothing else. *)
Lemma trim_split s :
  exists l r, s = l ++ trim s ++ r
              /\ Forall (fun c => isSpace c = true) l
              /\ Forall (fun c => isSpace c = true) r.
Proof.
  destruct (trimStart_split s) as [l [Hs Hl]].
  destruct (trimStart_split (rev (trimStart s))) as [r [Hr Hrs]].
  exists l, (rev r). unfold trim, trimEnd. split; [|split].
  - rewrite Hs at 1. f_equal.
    rewrite <- (rev_involutive (trimStart s)) at 1.
    rewrite Hr at 1. rewrite rev_app_distr. reflexivity.
  - exact Hl.
  - apply Forall_rev. exact Hrs.
Qed.

End TrimFacts.
Import TrimFacts.

(* ================================================================== *)
(** * Blocks: what the pattern finds *)
(* ================================================================== *)

Module BlockFacts.

Section Input.

Variable input : str.

Local Abbreviation Matches := (MatchSpec.Matches input).
Local Abbreviation textAt := (MatchSpec.textAt input).

Lemma state_eta (x : MatchState) : mkState (endIndex x) (captures x) = x.
Proof. destruct x; reflexivity. Qed.

Lemma slice_cons_inv (i n : nat) (ch : char) (s : str) :
  slice input i (i + S n) = ch :: s ->
  nth_error input i = Some ch /\ slice input (S i) (S i + n) = s.
Proof.
  intros H. destruct (nth_error input i) as [c|] eqn:Hn.
  - rewrite (slice_cons_nth input _ _ _ Hn) in H. injection H as H1 H2.
    subst c. split; [reflexivity | exact H2].
  - apply nth_error_None in Hn. unfold slice in H.
    rewrite skipn_all2 in H by exact Hn. rewrite firstn_nil in H. discriminate.
Qed.

Lemma textAt_in_input (i : nat) (s : str) :
  textAt i s -> s <> [] -> i + length s <= length input.
Proof.
  unfold MatchSpec.textAt, slice. intros H Hs.
  assert (Hl : length (firstn (i + length s - i) (skipn i input)) = length s)
    by (rewrite H; reflexivity).
  rewrite length_firstn, length_skipn in Hl.
  destruct s; [congruence|]. simpl in *. lia.
Qed.

(** ** From a description to a match *)

Lemma Matches_lits_intro : forall s i caps,
  textAt i s ->
  Matches (lits s) (mkState i caps) (mkState (i + length s) caps).
Proof.
  unfold lits, MatchSpec.textAt.
  induction s as [|ch s IH]; intros i caps H.
  - simpl. rewrite Nat.add_0_r. constructor.
  - simpl length in *. apply slice_cons_inv in H. destruct H as [Hn Hs].
    change (map Lit (ch :: s)) with (Lit ch :: map Lit s).
    simpl seqOf. eapply MSeq.
    + apply (MLit input ch (mkState i caps)). exact Hn.
    + simpl. replace (i + S (length s)) with (S i + length s) by lia.
      apply IH. exact Hs.
Qed.

Lemma Matches_star_class_intro g p caps : forall n i,
  (forall k, i <= k < i + n ->
             exists ch, nth_error input k = Some ch /\ p ch = true) ->
  Matches (Star g (Class p)) (mkState i caps) (mkState (i + n) caps).
Proof.
  induction n as [|n IH]; intros i H.
  - rewrite Nat.add_0_r. constructor.
  - destruct (H i) as [ch [Hn Hp]]; [lia|].
    eapply MStarStep with (y := mkState (S i) caps).
    + simpl. rewrite clearCaptures_nil.
      apply (MClass input p ch (mkState i caps)); assumption.
    + simpl. lia.
    + replace (i + S n) with (S i + n) by lia. apply IH.
      intros k Hk. apply H. lia.
Qed.

Lemma closingFenceTo_Matches k e caps :
  closingFenceTo input k e ->
  Matches CLOSING_RE (mkState k caps) (mkState e caps).
Proof.
  intros [Hs [Ht [Hle [Hall He]]]]. unfold CLOSING_RE.
  simpl seqOf.
  eapply MSeq; [apply MLineStart; exact Hs|].
  eapply MSeq; [apply Matches_lits_intro; exact Ht|].
  simpl length.
  apply MSeq with (y := mkState (k + 3 + (e - (k + 3))) caps).
  - apply (Matches_star_class_intro true isSpace caps (e - (k + 3)) (k + 3)).
    intros i Hi. apply Hall. lia.
  - replace (k + 3 + (e - (k + 3))) with e by lia.
    eapply MSeq; [apply MLineEnd; exact He | constructor].
Qed.

Lemma Matches_closingFenceTo x y :
  Matches CLOSING_RE x y ->
  closingFenceTo input (endIndex x) (endIndex y) /\ captures y = captures x.
Proof.
  unfold CLOSING_RE. intros H.
  apply Matches_seqOf_cons in H. destruct H as [x1 [H1 H]].
  apply Matches_seqOf_cons in H. destruct H as [x2 [H2 H]].
  apply Matches_seqOf_cons in H. destruct H as [x3 [H3 H]].
  apply Matches_seqOf_cons in H. destruct H as [x4 [H4 H]].
  apply Matches_seqOf_nil in H. subst y.
  inversion H1; subst. clear H1.
  apply Matches_lits in H2. destruct H2 as [Ht ->]. simpl in *.
  apply Matches_star_class in H3. destruct H3 as [Hc [Hle Hall]]. simpl in *.
  inversion H4; subst. clear H4.
  split; [|exact Hc].
  repeat split; assumption.
Qed.

(** ** Completeness of the matcher *)

(** Whatever the pattern can match, with a continuation that accepts it,
    the backtracking search does not fail. *)
Lemma matcher_complete r x y :
  Matches r x y ->
  forall c, endIndex x <= length input -> c y <> None ->
            matcher input r x c <> None.
Proof.
  induction 1 as [ x | ch x Hn | p ch x Hn Hp | x Hs | x He
                 | r1 r2 x y z H1 IH1 H2 IH2 | n r x y H IH
                 | g r x | g r x y z H1 IH1 Hne H2 IH2 ];
    intros c Hx Hc.
  - exact Hc.
  - simpl. unfold charMatcher. rewrite Hn, char_eqb_refl. exact Hc.
  - simpl. unfold charMatcher. rewrite Hn, Hp. exact Hc.
  - simpl. rewrite Hs. exact Hc.
  - simpl. rewrite He. exact Hc.
  - simpl. apply IH1; [exact Hx|]. apply IH2; [|exact Hc].
    eapply Matches_in_input; eauto.
  - simpl. apply IH; assumption.
  - change (repeatMatcher (matcher input r) g (groupsOf r) c
                          (S (length input - endIndex x)) x <> None).
    simpl. destruct g.
    + destruct (matcher input r (clearCaptures (groupsOf r) x) _); [discriminate | exact Hc].
    + destruct (c x); [discriminate | congruence].
  - change (repeatMatcher (matcher input r) g (groupsOf r) c
                          (S (length input - endIndex x)) x <> None).
    assert (Hxy : endIndex x < endIndex y).
    { apply Matches_endIndex in H1. simpl in H1. lia. }
    assert (Hy : endIndex y <= length input).
    { apply Matches_in_input in H1; [exact H1 | exact Hx]. }
    assert (Hbody :
      matcher input r (clearCaptures (groupsOf r) x)
        (fun y0 => if Nat.eqb (endIndex y0) (endIndex x) then None
                   else repeatMatcher (matcher input r) g (groupsOf r) c
                                      (length input - endIndex x) y0) <> None).
    { apply IH1; [exact Hx|].
      destruct (Nat.eqb_spec (endIndex y) (endIndex x)) as [E|_]; [lia|].
      rewrite (repeatMatcher_fuel input r g c (length input - endIndex x)
                 (S (length input - endIndex y)) y) by lia.
      apply (IH2 c Hy Hc). }
    simpl. destruct g.
    + destruct (matcher input r (clearCaptures (groupsOf r) x) _);
        [discriminate | congruence].
    + destruct (c x); [discriminate | exact Hbody].
Qed.

(** ** The search finds the first start, the iteration covers the rest *)

Lemma searchFrom_least r : forall n i j,
  i <= j -> j < i + n ->
  matcher input r (mkState j []) (fun y => Some y) <> None ->
  exists j' y', searchFrom input r n i = Some (j', y') /\ i <= j' /\ j' <= j.
Proof.
  induction n as [|n IH]; intros i j Hij Hjn Hm; [lia|]. simpl.
  destruct (matcher input r (mkState i []) (fun y => Some y)) as [y0|] eqn:E.
  - exists i, y0. repeat split; [lia | exact Hij].
  - destruct (Nat.eq_dec i j) as [->|Hne]; [congruence|].
    destruct (IH (S i) j) as [j' [y' [Hs [H1 H2]]]]; [lia | lia | exact Hm |].
    exists j', y'. repeat split; [exact Hs | lia | exact H2].
Qed.

Lemma matchAllFrom_covers r : forall fuel i j,
  S (length input) <= fuel + i ->
  i <= j -> j <= length input ->
  matcher input r (mkState j []) (fun y => Some y) <> None ->
  exists j' y', In (j', y') (matchAllFrom input r fuel i)
                /\ j' <= j /\ (j < endIndex y' \/ j = j').
Proof.
  induction fuel as [|fuel IH]; intros i j Hf Hij Hj Hm; [lia|]. simpl.
  destruct (searchFrom_least r (S (length input) - i) i j) as [j' [y' [Hs [H1 H2]]]];
    [exact Hij | lia | exact Hm |].
  unfold regExpExec at 1. rewrite Hs.
  pose proof (regExpExec_sound input r i j' y' Hs) as [_ [Hjy [Hy _]]].
  destruct (Nat.lt_ge_cases j (if Nat.eqb (endIndex y') j' then S (endIndex y')
                                else endIndex y')) as [Hlt | Hge].
  - exists j', y'. split; [left; reflexivity|]. split; [exact H2|].
    destruct (Nat.eqb_spec (endIndex y') j'); [right | left]; lia.
  - destruct (IH (if Nat.eqb (endIndex y') j' then S (endIndex y') else endIndex y') j)
      as [j2 [y2 [Hin Hcov]]];
      [ destruct (Nat.eqb_spec (endIndex y') j'); lia | exact Hge | exact Hj | exact Hm |].
    exists j2, y2. split; [right; exact Hin | exact Hcov].
Qed.

(** ** The order in which the alternatives are tried *)

Lemma repeatMatcher_S m g gs c fuel x :
  repeatMatcher m g gs c (S fuel) x
  = (let d := fun y => if Nat.eqb (endIndex y) (endIndex x) then None
                       else repeatMatcher m g gs c fuel y in
     if g then match m (clearCaptures gs x) d with
               | Some z => Some z
               | None => c x
               end
     else match c x with
          | Some z => Some z
          | None => m (clearCaptures gs x) d
          end).
Proof. reflexivity. Qed.

Lemma matcher_Class p x c : matcher input (Class p) x c = charMatcher input p x c.
Proof. reflexivity. Qed.

Lemma matcher_Star g r x c :
  matcher input (Star g r) x c
  = repeatMatcher (matcher input r) g (groupsOf r) c (S (length input - endIndex x)) x.
Proof. reflexivity. Qed.

Lemma charMatcher_step p x d :
  charMatcher input p x d <> None ->
  exists ch, nth_error input (endIndex x) = Some ch /\ p ch = true /\
             charMatcher input p x d = d (mkState (S (endIndex x)) (captures x)).
Proof.
  unfold charMatcher. intros H.
  destruct (nth_error input (endIndex x)) as [ch|]; [|congruence].
  destruct (p ch) eqn:Hp; [|congruence]. exists ch. repeat split. exact Hp.
Qed.

(** A lazy star over one character stops at the first place where the
    rest of the pattern succeeds. *)
Lemma lazy_class_first p c z : forall fuel x,
  repeatMatcher (matcher input (Class p)) false [] c fuel x = Some z ->
  exists e, endIndex x <= e /\ c (mkState e (captures x)) = Some z /\
            forall k, endIndex x <= k < e -> c (mkState k (captures x)) = None.
Proof.
  induction fuel as [|fuel IH]; intros x H; [discriminate|].
  rewrite repeatMatcher_S in H. cbv zeta in H.
  destruct (c x) as [z'|] eqn:Hc.
  - injection H as ->. exists (endIndex x). rewrite state_eta.
    repeat split; [lia | exact Hc | intros k Hk; lia].
  - rewrite clearCaptures_nil, matcher_Class in H.
    destruct (charMatcher_step p x _ ltac:(rewrite H; discriminate))
      as [ch [Hn [Hp Hd]]].
    rewrite Hd in H. cbn [endIndex] in H.
    destruct (Nat.eqb_spec (S (endIndex x)) (endIndex x)) as [E|_]; [lia|].
    apply IH in H. cbn [endIndex captures] in H. destruct H as [e [He [Hz Hnone]]].
    exists e. repeat split; [lia | exact Hz |].
    intros k Hk. destruct (Nat.eq_dec k (endIndex x)) as [->|Hne].
    + rewrite state_eta. exact Hc.
    + apply Hnone. lia.
Qed.

(** A greedy star over one character stops at the last place where the
    rest of the pattern succeeds. *)
Lemma greedy_class_last p c z : forall fuel x,
  endIndex x <= length input ->
  length input - endIndex x < fuel ->
  repeatMatcher (matcher input (Class p)) true [] c fuel x = Some z ->
  exists e, endIndex x <= e /\ c (mkState e (captures x)) = Some z /\
            forall k, e < k ->
                      (forall i, endIndex x <= i < k ->
                                 exists ch, nth_error input i = Some ch /\ p ch = true) ->
                      c (mkState k (captures x)) = None.
Proof.
  induction fuel as [|fuel IH]; intros x Hx Hf H; [discriminate|].
  rewrite repeatMatcher_S in H. cbv zeta in H.
  rewrite clearCaptures_nil, matcher_Class in H.
  match type of H with
  | match charMatcher input p x ?d with _ => _ end = _ =>
      destruct (charMatcher input p x d) as [z'|] eqn:Hm
  end.
  - injection H as ->.
    destruct (charMatcher_step p x _ ltac:(rewrite Hm; discriminate))
      as [ch [Hn [Hp Hd]]].
    rewrite Hd in Hm. cbn [endIndex] in Hm.
    destruct (Nat.eqb_spec (S (endIndex x)) (endIndex x)) as [E|_]; [lia|].
    assert (Hlt : endIndex x < length input) by (apply nth_error_Some; congruence).
    apply IH in Hm; cbn [endIndex captures] in *; [|lia|lia].
    destruct Hm as [e [He [Hz Hnone]]].
    exists e. repeat split; [lia | exact Hz |].
    intros k Hk Hrun. apply Hnone; [exact Hk|]. intros i Hi. apply Hrun. lia.
  - exists (endIndex x). rewrite state_eta.
    repeat split; [lia | exact H |].
    intros k Hk Hrun.
    destruct (c (mkState k (captures x))) as [z'|] eqn:Hck; [|reflexivity].
    exfalso.
    destruct (Hrun (endIndex x)) as [ch [Hn Hp]]; [lia|].
    assert (Hlt : endIndex x < length input) by (apply nth_error_Some; congruence).
    set (x1 := mkState (S (endIndex x)) (captures x)).
    assert (HM : Matches (Star true (Class p)) x1 (mkState k (captures x))).
    { unfold x1. replace k with (S (endIndex x) + (k - S (endIndex x))) by lia.
      apply Matches_star_class_intro. intros i Hi. apply Hrun. lia. }
    pose proof (matcher_complete _ _ _ HM c) as Hne.
    rewrite Hck in Hne.
    specialize (Hne ltac:(simpl; lia) ltac:(discriminate)).
    rewrite matcher_Star in Hne. cbn [groupsOf] in Hne.
    rewrite (repeatMatcher_fuel input (Class p) true c _ fuel x1) in Hne
      by (simpl; lia).
    unfold charMatcher in Hm. rewrite Hn, Hp in Hm. cbn [endIndex] in Hm.
    destruct (Nat.eqb_spec (S (endIndex x)) (endIndex x)) as [E|_]; [lia|].
    exact (Hne Hm).
Qed.

Lemma matcher_Seq r1 r2 x c :
  matcher input (Seq r1 r2) x c = matcher input r1 x (fun y => matcher input r2 y c).
Proof. reflexivity. Qed.

Lemma matcher_Group n r x c :
  matcher input (Group n r) x c
  = matcher input r x (fun y => c (setCapture n (endIndex x, endIndex y) y)).
Proof. reflexivity. Qed.

(** Every element of the iteration is a result of the matcher at its
    start. *)
Lemma matchAllFrom_matcher r : forall fuel i j y,
  In (j, y) (matchAllFrom input r fuel i) ->
  matcher input r (mkState j []) (fun y => Some y) = Some y.
Proof.
  induction fuel as [|fuel IH]; intros i j y Hin; simpl in Hin; [contradiction|].
  destruct (regExpExec input r i) as [[j0 y0]|] eqn:He; [|contradiction].
  destruct Hin as [Heq | Hin].
  - injection Heq as -> ->. unfold regExpExec in He.
    apply searchFrom_sound in He. apply He.
  - eapply IH. exact Hin.
Qed.

Lemma slice_one (i : nat) (ch : char) :
  nth_error input i = Some ch -> slice input i (S i) = [ch].
Proof.
  intros H. replace (S i) with (i + 1) by lia.
  rewrite (slice_cons_nth input _ _ _ H).
  unfold slice. rewrite Nat.add_0_r, Nat.sub_diag. reflexivity.
Qed.

Lemma slice_Forall (P : char -> Prop) : forall n i,
  (forall k, i <= k < i + n -> exists ch, nth_error input k = Some ch /\ P ch) ->
  Forall P (slice input i (i + n)).
Proof.
  induction n as [|n IH]; intros i H.
  - unfold slice. rewrite Nat.add_0_r, Nat.sub_diag. constructor.
  - destruct (H i) as [ch [Hn Hp]]; [lia|].
    rewrite (slice_cons_nth input _ _ _ Hn). constructor; [exact Hp|].
    apply IH. intros k Hk. apply H. lia.
Qed.

End Input.

(** ** The pattern of the program *)

Lemma MERMAID_RE_split :
  MERMAID_RE
  = Seq LineStart
      (Seq (lits (lit "```mermaid"))
         (Seq (Star true (Class (fun c => negb (char_eqb c LF))))
            (Seq (Lit LF) (Seq BODY_RE CLOSING_RE)))).
Proof. reflexivity. Qed.

Lemma anyChar (c : char) : isSpace c || negb (isSpace c) = true.
Proof. destruct (isSpace c); reflexivity. Qed.

(** The description of a block is exact: what it describes is a match. *)
Lemma fenced_Matches input j y :
  fenced input j y -> Matches input MERMAID_RE (mkState j []) y.
Proof.
  intros [a [q [Hc [Hs [Ht [Ha [Hlf [Hinfo [Haq [Hqs [Htq [Hqe [Hws He]]]]]]]]]]]]].
  pose proof (textAt_in_input input q (lit "```") Htq ltac:(discriminate)) as Hq.
  simpl length in Hq.
  rewrite MERMAID_RE_split.
  eapply MSeq; [apply MLineStart; exact Hs|].
  eapply MSeq; [apply Matches_lits_intro; exact Ht|].
  simpl length.
  apply MSeq with (y := mkState (j + 10 + (a - 1 - (j + 10))) []).
  { apply Matches_star_class_intro. intros k Hk.
    destruct (Hinfo k) as [ch [Hn Hne]]; [lia|].
    exists ch. split; [exact Hn|].
    destruct (char_eqb ch LF) eqn:E; [|reflexivity].
    apply char_eqb_eq in E. contradiction. }
  replace (j + 10 + (a - 1 - (j + 10))) with (a - 1) by lia.
  apply MSeq with (y := mkState a []).
  { pose proof (MLit input LF (mkState (a - 1) []) Hlf) as HL.
    simpl in HL. replace (S (a - 1)) with a in HL by lia. exact HL. }
  apply MSeq with (y := mkState q [(1, (a, q))]).
  { unfold BODY_RE.
    pose proof (MGroup input 1
                  (Star false (Class (fun c => isSpace c || negb (isSpace c))))
                  (mkState a []) (mkState q [])) as HG.
    apply HG. replace q with (a + (q - a)) by lia.
    apply Matches_star_class_intro. intros k Hk.
    destruct (nth_error input k) as [ch|] eqn:Hn.
    - exists ch. split; [reflexivity | apply anyChar].
    - apply nth_error_None in Hn. lia. }
  rewrite <- (state_eta y), Hc.
  apply closingFenceTo_Matches. repeat split; assumption.
Qed.

(** A result of the matcher for [MERMAID_RE]: the body ends at the first
    closing fence line, and the match reaches as far as a closing fence
    line can. *)
Lemma MERMAID_RE_priority input j y :
  matcher input MERMAID_RE (mkState j []) (fun y => Some y) = Some y ->
  exists a q,
    captures y = [(1, (a, q))] /\ a <= q /\
    closingFenceTo input q (endIndex y) /\
    (forall k, a <= k < q -> ~ closingFenceAt input k) /\
    (forall e, closingFenceTo input q e -> e <= endIndex y).
Proof.
  rewrite MERMAID_RE_split. intros H.
  rewrite matcher_Seq in H. apply matcher_sound in H. destruct H as [x1 [H1 H]].
  inversion H1; subst. clear H1.
  rewrite matcher_Seq in H. apply matcher_sound in H. destruct H as [x2 [H2 H]].
  apply Matches_lits in H2. destruct H2 as [_ ->]. cbn [endIndex captures] in H.
  rewrite matcher_Seq in H. apply matcher_sound in H. destruct H as [x3 [H3 H]].
  apply Matches_star_class in H3. destruct H3 as [Hc3 [_ _]]. cbn [captures] in Hc3.
  rewrite matcher_Seq in H. apply matcher_sound in H. destruct H as [x4 [H4 H]].
  inversion H4; subst. clear H4. rewrite Hc3 in H.
  set (a := S (endIndex x3)) in *.
  rewrite matcher_Seq in H. unfold BODY_RE in H.
  rewrite matcher_Group, matcher_Star in H. cbn [groupsOf endIndex] in H.
  apply lazy_class_first in H. cbn [endIndex captures] in H.
  destruct H as [q [Haq [Hq Hfirst]]].
  assert (Hset : forall k, setCapture 1 (a, k) (mkState k []) = mkState k [(1, (a, k))])
    by reflexivity.
  rewrite Hset in Hq.
  pose proof Hq as Hclose.
  apply matcher_sound in Hclose. destruct Hclose as [y' [Hy' Hid]].
  injection Hid as ->.
  apply Matches_closingFenceTo in Hy'. cbn [endIndex captures] in Hy'.
  destruct Hy' as [Hfence Hcaps].
  pose proof (textAt_in_input input q (lit "```")
                (proj1 (proj2 Hfence)) ltac:(discriminate)) as Hqlen.
  simpl length in Hqlen.
  exists a, q. split; [exact Hcaps|]. split; [exact Haq|].
  split; [exact Hfence|]. split.
  - intros k Hk [e Hke].
    specialize (Hfirst k Hk). rewrite Hset in Hfirst.
    apply (closingFenceTo_Matches input k e [(1, (a, k))]) in Hke.
    apply (matcher_complete input _ _ _ Hke (fun y0 => Some y0)) in Hfirst;
      [exact Hfirst | simpl; lia | discriminate].
  - intros e He.
    destruct (Nat.le_gt_cases e (endIndex y)) as [Hle | Hgt]; [exact Hle|].
    exfalso. unfold CLOSING_RE in Hq. simpl seqOf in Hq.
    rewrite matcher_Seq in Hq. apply matcher_sound in Hq. destruct Hq as [z1 [Hz1 Hq]].
    inversion Hz1; subst. clear Hz1.
    rewrite matcher_Seq in Hq. apply matcher_sound in Hq. destruct Hq as [z2 [Hz2 Hq]].
    apply Matches_lits in Hz2. destruct Hz2 as [_ ->]. cbn [endIndex captures] in Hq.
    simpl length in Hq.
    rewrite matcher_Seq, matcher_Star in Hq. cbn [groupsOf endIndex] in Hq.
    apply greedy_class_last in Hq; cbn [endIndex captures] in *; [|lia|lia].
    destruct Hq as [e0 [He0 [Hz Hlast]]].
    simpl in Hz.
    destruct (atLineEnd input e0); [|discriminate].
    injection Hz as <-. cbn [endIndex] in Hgt.
    destruct He as [_ [_ [Hle3 [Hrun Hend]]]].
    specialize (Hlast e Hgt Hrun). simpl in Hlast.
    rewrite Hend in Hlast. discriminate.
Qed.

(** A block that [fenced] describes starts inside a located match. *)
Lemma fenced_located (content : str) (j : nat) (y : MatchState) :
  fenced content j y ->
  exists m, In m (matchAll content MERMAID_RE) /\ spanStart m <= j < spanEnd m.
Proof.
  intros Hf.
  assert (Hj : j + 10 <= length content).
  { destruct Hf as [a [q [_ [_ [Ht _]]]]].
    apply (textAt_in_input content j (lit "```mermaid") Ht). discriminate. }
  apply fenced_Matches in Hf.
  pose proof (matcher_complete content _ _ _ Hf (fun y0 => Some y0)) as Hm.
  specialize (Hm ltac:(simpl; lia) ltac:(discriminate)).
  destruct (matchAllFrom_covers content MERMAID_RE (S (length content)) 0 j)
    as [j' [y' [Hin [Hle Hcov]]]]; [lia | lia | lia | exact Hm |].
  fold (matchStates content MERMAID_RE) in Hin.
  destruct (chained_In content _ _ _ _ _ (matchStates_chained content MERMAID_RE) Hin)
    as [_ [Hjy [Hy HM]]].
  apply MERMAID_RE_fenced in HM.
  destruct HM as [a [q [_ [_ [_ [Ha [_ [_ [Haq [_ [_ [Hq _]]]]]]]]]]]].
  exists (toMatch content j' y'). split.
  - unfold matchAll. apply (in_map (fun p => toMatch content (fst p) (snd p)) _ _ Hin).
  - pose proof (spanOf_toMatch content j' y' Hjy Hy) as Hs.
    unfold spanOf in Hs. injection Hs as Hs. rewrite Hs.
    change (spanStart (toMatch content j' y')) with j'. lia.
Qed.

End BlockFacts.
Import BlockFacts.

(** X1. The body of a located block ends at the first closing fence line:
    in every match, group 1 reaches from the line after the opening fence to
    a closing fence line (the fence token at the start of a line, followed
    by white space only up to the end of a line), and no closing fence line
    stands at an index of the body. *)
Theorem body_ends_at_first_closing_fence :
  forall content : str,
    Forall (fun p => exists a q,
                captures (snd p) = [(1, (a, q))] /\ a <= q /\
                closingFenceTo content q (endIndex (snd p)) /\
                forall k, a <= k < q -> ~ closingFenceAt content k)
           (matchStates content MERMAID_RE).
Proof.
  intros content. apply Forall_forall. intros [j y] Hin.
  apply matchAllFrom_matcher in Hin. apply MERMAID_RE_priority in Hin.
  destruct Hin as [a [q [H1 [H2 [H3 [H4 _]]]]]].
  exists a, q. auto.
Qed.

Module TailFacts.

(** From [e] to [k] there is white space only, or a character that is
    none. *)
Lemma white_or_not (input : str) (e : nat) : forall k,
  k <= length input ->
  (forall i, e <= i < k ->
             exists ch, nth_error input i = Some ch /\ isSpace ch = true)
  \/ (exists i ch, e <= i < k /\ nth_error input i = Some ch /\ isSpace ch = false).
Proof.
  induction k as [|k IH]; intros Hk; [left; intros i Hi; lia|].
  destruct IH as [Hall | [i [ch [Hi [Hn Hc]]]]]; [lia | |].
  - destruct (Nat.le_gt_cases e k) as [Hek | Hek]; [|left; intros i Hi; lia].
    destruct (nth_error input k) as [ch|] eqn:Hn;
      [|apply nth_error_None in Hn; lia].
    destruct (isSpace ch) eqn:Hc.
    + left. intros i Hi. destruct (Nat.eq_dec i k) as [->|Hne].
      * exists ch. auto.
      * apply Hall. lia.
    + right. exists k, ch. repeat split; auto.
  - right. exists i, ch. repeat split; auto; lia.
Qed.

Lemma atLineEnd_inside (input : str) (k : nat) :
  atLineEnd input k = true -> k <= length input.
Proof.
  unfold atLineEnd. destruct (Nat.eqb_spec k (length input)) as [->|_]; [lia|].
  destruct (nth_error input k) eqn:Hn; [|discriminate].
  intros _. apply Nat.lt_le_incl. apply nth_error_Some. congruence.
Qed.

End TailFacts.
Import TailFacts.

(** X2. A match ends at the last line end that is reached from its
    closing fence through white space only.  The match ends at such a line
    end, that is, at the end of the document or in front of a line
    terminator, which stays outside the match; no such line end lies beyond
    the match; and between the end of the match and any later line end
    there stands a character that is not white space.  So a match that
    does not end the document ends in front of a line terminator that stays
    in place, and the line after this terminator is not blank: the blank
    lines below the fence are taken, the line terminator in front of the
    text that follows them is not. *)
Theorem match_takes_trailing_white_space :
  forall content : str,
    Forall (fun p => exists q,
                closingFence (snd p) = Some q
                /\ closingFenceTo content q (endIndex (snd p))
                /\ (forall e, closingFenceTo content q e -> e <= endIndex (snd p))
                /\ (forall k, endIndex (snd p) < k ->
                              atLineEnd content k = true ->
                              exists i ch,
                                endIndex (snd p) <= i < k
                                /\ nth_error content i = Some ch
                                /\ isSpace ch = false))
           (matchStates content MERMAID_RE).
Proof.
  intros content. apply Forall_forall. intros [j y] Hin.
  apply matchAllFrom_matcher in Hin. apply MERMAID_RE_priority in Hin.
  destruct Hin as [a [q [H1 [_ [Hto [_ Hlast]]]]]].
  cbn [snd]. exists q. split; [unfold closingFence; rewrite H1; reflexivity|].
  split; [exact Hto|]. split; [exact Hlast|].
  intros k Hk Hend.
  destruct (white_or_not content (endIndex y) k (atLineEnd_inside content k Hend))
    as [Hall | Hsome]; [exfalso | exact Hsome].
  destruct Hto as [Hs [Ht [Hle [Hws _]]]].
  assert (Hreach : closingFenceTo content q k).
  { repeat split; [exact Hs | exact Ht | lia | | exact Hend].
    intros i Hi. destruct (Nat.lt_ge_cases i (endIndex y)) as [Hlt | Hge].
    - apply Hws. lia.
    - apply Hall. lia. }
  apply Hlast in Hreach. lia.
Qed.

Example closing_fence_samples :
  let doc (s : string) := lit ("```mermaid" ++ Demo.NL ++ "A" ++ Demo.NL ++ s) in
  (* a line of text after the fence line: the match ends with the fence,
     and the line break in front of the text stays *)
  map spanOf (matchAll (doc ("```" ++ Demo.NL ++ "mid")%string) MERMAID_RE)
  = [(0, 16)]
  (* an empty line after the fence line: its line break is taken, the one
     in front of the text is not *)
  /\ map spanOf (matchAll (doc ("```" ++ Demo.NL ++ Demo.NL ++ "next")%string) MERMAID_RE)
     = [(0, 17)]
  (* trailing blanks and empty lines at the end of the document are taken *)
  /\ map spanOf (matchAll (doc ("```  " ++ Demo.NL ++ Demo.NL)%string) MERMAID_RE) = [(0, 20)]
  (* a fence followed by text closes nothing: the next fence line does *)
  /\ map m_1 (matchAll (doc ("```js" ++ Demo.NL ++ "```" ++ Demo.NL ++ "B" ++ Demo.NL
                              ++ "```")%string) MERMAID_RE)
     = [Some (lit ("A" ++ Demo.NL ++ "```js" ++ Demo.NL))].
Proof. vm_compute. repeat split. Qed.

(** X3. The anatomy of a match: [match[0]] is the opening fence, an info
    text without line feed, a line feed, the body, the closing fence and
    white space; [match[1]] is the body; and the code handed to the renderer
    is the body without the white space at its two ends, white space being
    all that the trimming removes. *)
Theorem match_anatomy :
  forall content : str,
    Forall (fun m => exists info body tail,
                m_0 m = lit "```mermaid" ++ info ++ [LF] ++ body ++ lit "```" ++ tail
                /\ m_1 m = Some body
                /\ Forall (fun c => c <> LF) info
                /\ Forall (fun c => isSpace c = true) tail
                /\ trimmed (codeOf m)
                /\ exists l r,
                     body = l ++ codeOf m ++ r
                     /\ Forall (fun c => isSpace c = true) l
                     /\ Forall (fun c => isSpace c = true) r)
           (matchAll content MERMAID_RE).
Proof.
  intros content. unfold matchAll. apply Forall_map. apply Forall_forall.
  intros [j y] Hin. cbn [fst snd].
  destruct (chained_In content _ _ _ _ _ (matchStates_chained content MERMAID_RE) Hin)
    as [_ [Hjy [Hy HM]]].
  apply MERMAID_RE_fenced in HM.
  destruct HM as [a [q [Hc [Hs [Ht [Ha [Hlf [Hinfo [Haq [Hqs [Htq [Hqe [Hws He]]]]]]]]]]]]].
  exists (slice content (j + 10) (a - 1)), (slice content a q),
         (slice content (q + 3) (endIndex y)).
  unfold codeOf, toMatch. cbn [m_0 m_1]. rewrite Hc. cbn [getCapture Nat.eqb].
  split; [|split; [reflexivity|split; [|split; [|split]]]].
  - rewrite <- (slice_app_slice content j (j + 10) (endIndex y)) by lia.
    rewrite <- (slice_app_slice content (j + 10) (a - 1) (endIndex y)) by lia.
    rewrite <- (slice_app_slice content (a - 1) a (endIndex y)) by lia.
    rewrite <- (slice_app_slice content a q (endIndex y)) by lia.
    rewrite <- (slice_app_slice content q (q + 3) (endIndex y)) by lia.
    pose proof (slice_one content (a - 1) LF Hlf) as Hone.
    replace (S (a - 1)) with a in Hone by lia. rewrite Hone.
    unfold textAt in Ht, Htq. simpl length in Ht, Htq. rewrite Ht, Htq.
    reflexivity.
  - replace (a - 1) with (j + 10 + (a - 1 - (j + 10))) by lia.
    apply slice_Forall. intros k Hk. apply Hinfo. lia.
  - replace (endIndex y) with (q + 3 + (endIndex y - (q + 3))) by lia.
    apply slice_Forall. intros k Hk. apply Hws. lia.
  - apply trim_trimmed.
  - apply trim_split.
Qed.

Module DocumentFacts.

Lemma nth_error_at {A} (l1 : list A) (x : A) (l2 : list A) :
  nth_error (l1 ++ x :: l2) (length l1) = Some x.
Proof. rewrite nth_error_app2, Nat.sub_diag by lia. reflexivity. Qed.

Lemma slice_at (l1 f l2 : str) :
  slice (l1 ++ f ++ l2) (length l1) (length l1 + length f) = f.
Proof.
  unfold slice. rewrite skipn_app, skipn_all, Nat.sub_diag. simpl.
  replace (length l1 + length f - length l1) with (length f) by lia.
  rewrite firstn_app, firstn_all, Nat.sub_diag. simpl. apply app_nil_r.
Qed.

Lemma endsLine_cases (s : str) :
  endsLine s = true ->
  s = [] \/ exists p c, s = p ++ [c] /\ isLineTerminator c = true.
Proof.
  unfold endsLine. intros H. destruct (rev s) as [|c r] eqn:E.
  - left. apply (f_equal (@rev char)) in E. rewrite rev_involutive in E. exact E.
  - right. exists (rev r), c. split; [|exact H].
    rewrite <- (rev_involutive s), E. reflexivity.
Qed.

Lemma atLineStart_after (l1 : str) (c : char) (l2 : str) :
  isLineTerminator c = true -> atLineStart (l1 ++ c :: l2) (S (length l1)) = true.
Proof. intros H. unfold atLineStart. rewrite nth_error_at. exact H. Qed.

Lemma atLineEnd_before (l1 : str) (c : char) (l2 : str) :
  isLineTerminator c = true -> atLineEnd (l1 ++ c :: l2) (length l1) = true.
Proof.
  intros H. unfold atLineEnd. rewrite nth_error_at, H.
  destruct (Nat.eqb _ _); reflexivity.
Qed.

Lemma atLineEnd_end (l : str) : atLineEnd l (length l) = true.
Proof. unfold atLineEnd. rewrite Nat.eqb_refl. reflexivity. Qed.

Ltac reshape := unfold withBlock; rewrite <- ?app_assoc; reflexivity.
Ltac measure := rewrite ?length_app; simpl; lia.

(** The block of [withBlock] is a block as [fenced] describes it. *)
Lemma withBlock_fenced pre info body post :
  endsLine pre = true ->
  forallb (fun c => negb (char_eqb c LF)) info = true ->
  endsLine body = true ->
  startsBreak post = true ->
  let j := length pre in
  let a := j + 10 + length info + 1 in
  let q := a + length body in
  fenced (withBlock pre info body post) j (mkState (q + 3) [(1, (a, q))]).
Proof.
  intros Hpre Hinfo Hbody Hpost j a q.
  exists a, q. cbn [captures endIndex].
  split; [reflexivity|]. split; [|split; [|split; [|split; [|split; [|split; [|split;
    [|split; [|split; [|split]]]]]]]]].
  - (* the opening fence starts a line *)
    destruct (endsLine_cases pre Hpre) as [-> | [p [c [-> Hc]]]]; [reflexivity|].
    replace (withBlock (p ++ [c]) info body post)
      with (p ++ c :: lit "```mermaid" ++ info ++ [LF] ++ body ++ lit "```" ++ post)
      by reshape.
    replace j with (S (length p)) by (unfold j; measure).
    apply atLineStart_after. exact Hc.
  - (* the opening fence *)
    unfold textAt. apply slice_at.
  - unfold a. lia.
  - (* the line feed that ends the opening line *)
    replace (withBlock pre info body post)
      with ((pre ++ lit "```mermaid" ++ info) ++ LF :: body ++ lit "```" ++ post)
      by reshape.
    replace (a - 1) with (length (pre ++ lit "```mermaid" ++ info))
      by (unfold a, j; measure).
    apply nth_error_at.
  - (* the info text *)
    intros k Hk. unfold withBlock.
    rewrite nth_error_app2 by (unfold j in *; lia).
    rewrite nth_error_app2 by (simpl; unfold j in *; lia).
    assert (Hk' : k - length pre - length (lit "```mermaid") < length info)
      by (simpl; unfold a, j in *; lia).
    rewrite nth_error_app1 by exact Hk'.
    destruct (nth_error info (k - length pre - length (lit "```mermaid")))
      as [ch|] eqn:Hn; [|apply nth_error_None in Hn; lia].
    exists ch. split; [reflexivity|].
    rewrite forallb_forall in Hinfo.
    specialize (Hinfo ch (nth_error_In _ _ Hn)).
    intros ->. rewrite char_eqb_refl in Hinfo. discriminate.
  - unfold q. lia.
  - (* the closing fence starts a line *)
    destruct (endsLine_cases body Hbody) as [-> | [b [c [-> Hc]]]].
    + replace (withBlock pre info [] post)
        with ((pre ++ lit "```mermaid" ++ info) ++ LF :: lit "```" ++ post)
        by reshape.
      replace q with (S (length (pre ++ lit "```mermaid" ++ info)))
        by (unfold q, a, j; measure).
      apply atLineStart_after. reflexivity.
    + replace (withBlock pre info (b ++ [c]) post)
        with ((pre ++ lit "```mermaid" ++ info ++ [LF] ++ b) ++ c :: lit "```" ++ post)
        by reshape.
      replace q with (S (length (pre ++ lit "```mermaid" ++ info ++ [LF] ++ b)))
        by (unfold q, a, j; measure).
      apply atLineStart_after. exact Hc.
  - (* the closing fence *)
    unfold textAt.
    replace (withBlock pre info body post)
      with ((pre ++ lit "```mermaid" ++ info ++ [LF] ++ body) ++ lit "```" ++ post)
      by reshape.
    replace q with (length (pre ++ lit "```mermaid" ++ info ++ [LF] ++ body))
      by (unfold q, a, j; measure).
    apply slice_at.
  - lia.
  - intros k Hk. lia.
  - (* the closing fence ends a line *)
    destruct post as [|p0 post'].
    + replace (q + 3) with (length (withBlock pre info body []))
        by (unfold withBlock, q, a, j; measure).
      apply atLineEnd_end.
    + replace (withBlock pre info body (p0 :: post'))
        with ((pre ++ lit "```mermaid" ++ info ++ [LF] ++ body ++ lit "```")
              ++ p0 :: post')
        by reshape.
      replace (q + 3)
        with (length (pre ++ lit "```mermaid" ++ info ++ [LF] ++ body ++ lit "```"))
        by (unfold q, a, j; measure).
      apply atLineEnd_before. exact Hpost.
Qed.

End DocumentFacts.
Import DocumentFacts.

(** X4. No block is missed.  When a document holds, at the start of a line,
    an opening fence with any info text, then a body, then a closing fence
    at the start of a line and followed by a line break or by the end of the
    document, then the start of this block lies in the span of one of the
    matches: its own, or that of an earlier block still open at that
    place. *)
Theorem every_block_located :
  forall pre info body post : str,
    endsLine pre = true ->
    forallb (fun c => negb (char_eqb c LF)) info = true ->
    endsLine body = true ->
    startsBreak post = true ->
    exists m,
      In m (matchAll (withBlock pre info body post) MERMAID_RE)
      /\ spanStart m <= length pre < spanEnd m.
Proof.
  intros pre info body post Hpre Hinfo Hbody Hpost.
  pose proof (withBlock_fenced pre info body post Hpre Hinfo Hbody Hpost) as Hf.
  cbv zeta in Hf.
  exact (fenced_located _ _ _ Hf).
Qed.

Lemma every_block_located_witness :
  exists m,
    In m (matchAll (withBlock (lit ("# T" ++ Demo.NL)) (lit " flow")
                              (lit ("A" ++ Demo.NL)) (lit (Demo.NL ++ "end")))
                   MERMAID_RE)
    /\ spanStart m <= 4 < spanEnd m.
Proof.
  exact (every_block_located (lit ("# T" ++ Demo.NL)) (lit " flow")
           (lit ("A" ++ Demo.NL)) (lit (Demo.NL ++ "end"))
           eq_refl eq_refl eq_refl eq_refl).
Defined.

(* ================================================================== *)
(** * The files a run touches *)
(* ================================================================== *)

Module DisciplineFacts.

Section Emits.

Variable rt : Runtime.

Lemma emitsOnly_impl {A} (p q : Event -> Prop) (m : M rt A) :
  (forall ev, p ev -> q ev) -> emitsOnly p m -> emitsOnly q m.
Proof.
  intros Hpq Hm st. destruct (Hm st) as [evs [Ht Hp]].
  exists evs. split; [exact Ht|]. eapply Forall_impl; [exact Hpq | exact Hp].
Qed.

End Emits.

Section File.

Variable rt : Runtime.
Variable cfg : Config.
Variable page : Page rt.
Variable filePath : str.

Local Abbreviation inLoop := (loopEvent cfg filePath).
Local Abbreviation allowed := (fileEvent cfg filePath).

Ltac emits :=
  repeat first
    [ exact I
    | progress unfold consoleLog, consoleError, consoleWarn, stdoutWrite, stderrWrite
    | emits_step ].

Lemma renderDiagram_discipline code :
  trimmed code -> emitsOnly inLoop (renderDiagram cfg page code).
Proof.
  intros Hc. unfold renderDiagram. emits; [exact Hc|].
  destruct (fmt cfg) eqn:Hf; emits; [simpl; rewrite Hf; auto|].
  match goal with |- emitsOnly _ (match ?el with _ => _ end) => destruct el end; emits.
  simpl. exact Hf.
Qed.

Lemma renderReplacement_discipline i code :
  trimmed code -> emitsOnly inLoop (renderReplacement cfg page filePath i code).
Proof.
  intros Hc. unfold renderReplacement.
  apply emitsOnly_bind; [apply renderDiagram_discipline; exact Hc|].
  intros [svgText shot]. destruct (fmt cfg) eqn:Hf; emits.
  destruct shot; emits. destruct (mode cfg) eqn:Hm; emits.
  simpl. rewrite Hf, Hm. repeat split. exists i. reflexivity.
Qed.

Lemma diagramStep_discipline ms i acc :
  emitsOnly inLoop (diagramStep cfg page filePath ms i acc).
Proof.
  unfold diagramStep. destruct acc as [result failures].
  destruct (nth_error ms i) as [m|]; emits.
  destruct (m_1 m); emits.
  apply renderReplacement_discipline. apply trim_trimmed.
Qed.

Lemma diagramLoop_discipline ms : forall k acc,
  emitsOnly inLoop (diagramLoop cfg page filePath ms k acc).
Proof.
  induction k as [|k IH]; intros acc; simpl.
  - apply emitsOnly_ret.
  - apply emitsOnly_bind; [apply diagramStep_discipline | exact IH].
Qed.

Lemma loopEvent_fileEvent ev : inLoop ev -> allowed ev.
Proof.
  destruct ev as [op ok | |]; simpl; auto.
  destruct op; simpl; auto; try contradiction.
  destruct f; simpl; auto; contradiction.
Qed.

Lemma processFile_discipline :
  emitsOnly allowed (processFile cfg page filePath).
Proof.
  unfold processFile. emits; [reflexivity|].
  match goal with |- emitsOnly _ (if ?b then _ else _) => destruct b end; emits.
  - destruct (fmt cfg) eqn:Hf, (mode cfg) eqn:Hm; emits.
    simpl. rewrite Hf, Hm. auto.
  - eapply emitsOnly_impl; [apply loopEvent_fileEvent | apply diagramLoop_discipline].
  - match goal with |- emitsOnly _ (let '(_, _) := ?a in _) => destruct a as [result failures] end.
    emits; [reflexivity|]. destruct (Nat.ltb 0 failures); emits.
Qed.

End File.

End DisciplineFacts.

Import DisciplineFacts PathFacts.

(** X5. Whatever the runtime answers, [processFile] reads no file but its
    own, writes no text but its output, writes no other file but numbered
    images in the folder of the images and makes no other folder (both with
    [--files] in the raster format only), queries and captures the rendered
    element in the raster format only, hands only trimmed code to the
    renderer, and calls neither [stat] nor the browser. *)
Theorem processFile_touches_only_its_files :
  forall (rt : Runtime) (cfg : Config) (page : Page rt) (filePath : str)
         (st : State rt),
    exists evs,
      trace (fst (processFile cfg page filePath st)) = trace st ++ evs
      /\ Forall (fileEvent cfg filePath) evs.
Proof.
  intros rt cfg page filePath st.
  exact (processFile_discipline rt cfg page filePath st).
Qed.

Lemma fileWrites_app tr1 tr2 :
  fileWrites (tr1 ++ tr2) = fileWrites tr1 ++ fileWrites tr2.
Proof. apply flat_map_app. Qed.

(** X6. [processFile] never writes to the file it reads: for a document
    [name.e] in a normalized absolute folder, the output path and the paths
    of the images all differ from the path of the document. *)
Theorem source_never_overwritten :
  forall (rt : Runtime) (cfg : Config) (page : Page rt)
         (segs : list str) (name e : str) (st : State rt),
    Forall plain segs ->
    name <> [] -> noSlash name = true ->
    noSlash e = true -> forallb Path.notDot e = true ->
    name ++ Path.DOT :: e <> [Path.DOT; Path.DOT] ->
    let filePath := absPath (segs ++ [name ++ Path.DOT :: e]) in
    exists writes,
      fileWrites (trace (fst (processFile cfg page filePath st)))
      = fileWrites (trace st) ++ writes
      /\ Forall (fun w => fst (fst w) <> filePath) writes.
Proof.
  intros rt cfg page segs name e st Hsegs Hname Hns Hes Hed Hdd filePath.
  destruct (processFile_discipline rt cfg page filePath st) as [evs [Ht Hall]].
  exists (fileWrites evs). rewrite Ht, fileWrites_app. split; [reflexivity|].
  clear Ht. subst filePath.
  pose proof (absPath_snoc segs (name ++ Path.DOT :: e)) as Hsrc.
  pose proof (absPath_snoc segs (lit "mermaid")) as Hmer.
  induction Hall as [|ev evs Hev _ IH]; [constructor|].
  unfold fileWrites in *. simpl. apply Forall_app. split; [|exact IH].
  destruct ev as [op ok| |]; try constructor.
  destruct op; try constructor; [|constructor].
  cbn [fst]. destruct f as [result | shot]; simpl in Hev.
  - subst s.
    rewrite (outPathOf_source cfg segs name e Hsegs Hname Hns Hes Hed Hdd).
    rewrite !absPath_snoc. intros H.
    apply app_inv_head in H. injection H as H. apply app_inv_head in H.
    apply (f_equal (@length char)) in H. rewrite length_app in H.
    unfold suffix in H. destruct (fmt cfg); simpl in H; lia.
  - destruct Hev as [_ [_ [i ->]]].
    rewrite (imagePath_source segs name e Hsegs Hname Hns Hes Hed Hdd i).
    change (segs ++ [lit "mermaid"; name ++ lit "-" ++ ofNat (i + 1) ++ lit ".jpg"])
      with (segs ++ [lit "mermaid"] ++ [name ++ lit "-" ++ ofNat (i + 1) ++ lit ".jpg"]).
    rewrite app_assoc, (absPath_snoc (segs ++ [lit "mermaid"])).
    assert (Hdir : match segs ++ [lit "mermaid"] with
                   | [] => []
                   | _ :: _ => absPath (segs ++ [lit "mermaid"])
                   end
                   = match segs with [] => [] | _ :: _ => absPath segs end
                     ++ Path.SLASH :: lit "mermaid").
    { rewrite <- Hmer. destruct segs; reflexivity. }
    rewrite Hdir. intros H. apply (fun H => eq_trans H Hsrc) in H.
    rewrite <- app_assoc in H.
    apply app_inv_head in H. injection H as H.
    pose proof (source_noSlash name e Hns Hes) as Hno.
    rewrite <- H in Hno. unfold noSlash in Hno.
    cbn [forallb] in Hno. discriminate.
Qed.

Lemma source_never_overwritten_witness :
  let rt := Demo.healthy in
  let cfg := Demo.config jpg files in
  let st := Demo.start rt 0 in
  exists writes,
    fileWrites (trace (fst (processFile cfg (tt : Page rt) (lit "/docs/a.md") st)))
    = fileWrites (trace st) ++ writes
    /\ Forall (fun w => fst (fst w) <> lit "/docs/a.md") writes.
Proof.
  apply (source_never_overwritten Demo.healthy (Demo.config jpg files) tt
           [lit "docs"] (lit "a") (lit "md") (Demo.start Demo.healthy 0)).
  - repeat constructor; discriminate.
  - discriminate.
  - reflexivity.
  - reflexivity.
  - reflexivity.
  - discriminate.
Defined.

Import PathFacts.

Module ExtensionFacts.
Import Path.

Lemma extname_none (path f : str) :
  lastComponent path = f ->
  forallb notDot (tl f) = true ->
  extname path = [].
Proof.
  intros Hl Hd. unfold extname. rewrite Hl.
  destruct f as [|c t]; [reflexivity|]. simpl tl in Hd. simpl rev.
  rewrite dropWhile_app_all by (rewrite forallb_rev; exact Hd).
  simpl. destruct (notDot c); reflexivity.
Qed.

Lemma basename_empty_suffix (path : str) :
  basename path (Some []) = lastComponent path.
Proof. reflexivity. Qed.

End ExtensionFacts.
Import ExtensionFacts.

(** X7. A document whose name has no extension for [path.extname] (no dot
    after its first character, as [README] or a dot file) gets the marker
    appended to its whole name. *)
Theorem output_name_without_extension :
  forall (cfg : Config) (segs : list str) (f : str),
    Forall plain segs ->
    f <> [] -> noSlash f = true ->
    forallb Path.notDot (tl f) = true ->
    outPathOf cfg (absPath (segs ++ [f])) = absPath (segs ++ [f ++ suffix cfg]).
Proof.
  intros cfg segs f Hsegs Hne Hns Hd.
  pose proof (lastComponent_absPath segs f Hne Hns) as Hl.
  pose proof (extname_none _ f Hl Hd) as He.
  unfold outPathOf, baseOf. rewrite He, basename_empty_suffix, Hl, app_nil_r.
  rewrite (dirname_absPath segs f Hsegs Hne Hns).
  apply join_absPath; [exact Hsegs|].
  assert (Hlen : 12 <= length (f ++ suffix cfg)).
  { rewrite length_app. unfold suffix. destruct (fmt cfg); simpl; lia. }
  repeat split.
  - intros H. rewrite H in Hlen. simpl in Hlen. lia.
  - rewrite noSlash_app, Hns. unfold suffix. destruct (fmt cfg); reflexivity.
  - intros H. rewrite H in Hlen. simpl in Hlen. lia.
  - intros H. rewrite H in Hlen. simpl in Hlen. lia.
Qed.

Lemma output_name_without_extension_witness :
  outPathOf (Demo.config jpg b64) (absPath [lit "docs"; lit "README"])
  = absPath [lit "docs"; lit "README" ++ suffix (Demo.config jpg b64)].
Proof.
  apply (output_name_without_extension (Demo.config jpg b64) [lit "docs"] (lit "README")).
  - repeat constructor; discriminate.
  - discriminate.
  - reflexivity.
  - reflexivity.
Defined.

Example output_name_of_dot_file :
  outPathOf (Demo.config svg b64) (lit "/docs/.md") = lit "/docs/.md_mermaid2svg"
  /\ collectMarkdownFiles (lit "/docs") [FileEntry (lit ".md")] = [lit "/docs/.md"]
  /\ endsWith (lit ".md_mermaid2svg") (lit ".md") = false.
Proof. vm_compute. repeat split. Qed.

(* ================================================================== *)
(** * Failures that end the run *)
(* ================================================================== *)

Module ExitFacts.

Section Monad.

Variable rt : Runtime.

Lemma harmless_faithful {A} (m : M rt A) : harmless m -> faithful m.
Proof.
  intros H st. destruct (H st) as [evs [Ht [Hf Hok]]].
  exists evs. rewrite Hf, Hok. auto.
Qed.

Lemma harmless_ret {A} (a : A) : harmless (@ret rt A a).
Proof. intros st. exists []. simpl. rewrite app_nil_r. auto. Qed.

Lemma harmless_emit ev : notFatal ev -> harmless (@emit rt ev).
Proof.
  intros H st. exists [ev]. simpl. unfold notFatal in H. rewrite H. auto.
Qed.

Lemma harmless_bind {A B} (m : M rt A) (k : A -> M rt B) :
  harmless m -> (forall a, harmless (k a)) -> harmless (bind m k).
Proof.
  intros Hm Hk st. unfold bind.
  destruct (Hm st) as [e1 [H1 [F1 O1]]].
  destruct (m st) as [st1 [e | a]]; simpl in *; [discriminate|].
  destruct (Hk a st1) as [e2 [H2 [F2 O2]]].
  exists (e1 ++ e2). rewrite H2, H1, app_assoc, existsb_app, F1, F2. auto.
Qed.

Lemma faithful_bind {A B} (m : M rt A) (k : A -> M rt B) :
  faithful m -> (forall a, faithful (k a)) -> faithful (bind m k).
Proof.
  intros Hm Hk st. unfold bind.
  destruct (Hm st) as [e1 [H1 O1]].
  destruct (m st) as [st1 [e | a]]; simpl in *.
  - exists e1. auto.
  - destruct (Hk a st1) as [e2 [H2 O2]].
    exists (e1 ++ e2). rewrite H2, H1, app_assoc, existsb_app.
    split; [reflexivity|].
    destruct (existsb isFatal e1); [discriminate | exact O2].
Qed.

Lemma faithful_call {A} op (f : World rt -> World rt * (Error + A)) :
  fatalOp op = true -> faithful (call op f).
Proof.
  intros Hop st. unfold call. destruct (f (world st)) as [w r].
  exists [Call op (isOk r)]. simpl. split; [reflexivity|].
  destruct r; simpl; [rewrite Hop|]; reflexivity.
Qed.

Lemma faithful_tryFinally {A} (m : M rt A) (c : M rt unit) :
  faithful m -> faithful c -> faithful (tryFinally m c).
Proof.
  intros Hm Hc st. unfold tryFinally.
  destruct (Hm st) as [e1 [H1 O1]].
  destruct (m st) as [st1 r]; simpl in *.
  destruct (Hc st1) as [e2 [H2 O2]].
  exists (e1 ++ e2). rewrite existsb_app.
  destruct (c st1) as [st2 [e | u]]; simpl in *;
    rewrite H2, H1, app_assoc; (split; [reflexivity|]).
  - destruct (existsb isFatal e2); [|discriminate]. rewrite orb_true_r. reflexivity.
  - destruct (existsb isFatal e2); [discriminate|]. rewrite orb_false_r. exact O1.
Qed.

(** A [try] whose body makes no fatal call and whose handler is harmless
    is harmless. *)
Lemma harmless_tryCatch {A} (m : M rt A) (h : Error -> M rt A) :
  emitsOnly notFatal m -> (forall e, harmless (h e)) -> harmless (tryCatch m h).
Proof.
  intros Hm Hh st. unfold tryCatch.
  destruct (Hm st) as [e1 [H1 P1]].
  assert (F1 : existsb isFatal e1 = false).
  { clear H1. induction P1 as [|ev evs Hev _ IH]; [reflexivity|].
    simpl. rewrite Hev, IH. reflexivity. }
  destruct (m st) as [st1 [e | a]]; simpl in *.
  - destruct (Hh e st1) as [e2 [H2 [F2 O2]]].
    exists (e1 ++ e2). rewrite H2, H1, app_assoc, existsb_app, F1, F2. auto.
  - exists e1. auto.
Qed.

End Monad.

Ltac step :=
  lazymatch goal with
  | |- harmless (ret _) => apply harmless_ret
  | |- harmless (emit _) => apply harmless_emit; reflexivity
  | |- harmless (bind _ _) => apply harmless_bind
  | |- faithful (ret _) => apply harmless_faithful, harmless_ret
  | |- faithful (emit _) => apply harmless_faithful, harmless_emit; reflexivity
  | |- faithful (call _ _) => apply faithful_call; reflexivity
  | |- faithful (bind _ _) => apply faithful_bind
  | |- faithful (tryFinally _ _) => apply faithful_tryFinally
  | |- faithful _ => fail
  | |- harmless _ => fail
  | |- forall _, _ => intro
  end.

Ltac steps :=
  repeat first
    [ progress unfold consoleLog, consoleError, consoleWarn, stdoutWrite, stderrWrite
    | step ].

Section Program.

Variable rt : Runtime.
Variable cfg : Config.
Variable page : Page rt.

Lemma loopEvent_notFatal filePath ev : loopEvent cfg filePath ev -> notFatal ev.
Proof.
  destruct ev as [op ok | |]; simpl; try reflexivity.
  destruct op; simpl; try contradiction; destruct ok; try reflexivity.
  destruct f; [contradiction | reflexivity].
Qed.

Lemma renderReplacement_notFatal filePath i code :
  trimmed code ->
  emitsOnly notFatal (renderReplacement cfg page filePath i code).
Proof.
  intros Hc. eapply emitsOnly_impl; [apply (loopEvent_notFatal filePath)|].
  apply renderReplacement_discipline. exact Hc.
Qed.

(** The loop body never throws when the match and its group are there. *)
Lemma diagramStep_harmless filePath ms i m acc :
  nth_error ms i = Some m -> m_1 m <> None ->
  harmless (diagramStep cfg page filePath ms i acc).
Proof.
  intros Hm Hg. unfold diagramStep. destruct acc as [result failures].
  rewrite Hm. destruct (m_1 m) as [g|]; [|congruence].
  steps. apply harmless_tryCatch.
  - apply emitsOnly_bind; [apply renderReplacement_notFatal, trim_trimmed|].
    intros repl. unfold consoleLog.
    apply emitsOnly_bind; [apply emitsOnly_emit; reflexivity|].
    intros _. apply emitsOnly_ret.
  - intros e. steps.
Qed.

Lemma diagramLoop_harmless filePath ms :
  Forall (fun m => m_1 m <> None) ms ->
  forall k acc, k <= length ms ->
                harmless (diagramLoop cfg page filePath ms k acc).
Proof.
  intros Hg. induction k as [|k IH]; intros acc Hk; simpl.
  - apply harmless_ret.
  - destruct (nth_error ms k) as [m|] eqn:Hm;
      [|apply nth_error_None in Hm; lia].
    apply harmless_bind.
    + apply (diagramStep_harmless filePath ms k m acc Hm).
      rewrite Forall_forall in Hg. apply Hg. eapply nth_error_In. exact Hm.
    + intros acc'. apply IH. lia.
Qed.

(** [processFile] throws exactly when reading the file, making the folder
    or writing the output fails. *)
Lemma processFile_faithful filePath :
  faithful (processFile cfg page filePath).
Proof.
  unfold processFile. steps.
  match goal with |- faithful (if ?b then _ else _) => destruct b end; steps.
  - destruct (fmt cfg), (mode cfg); steps.
  - apply harmless_faithful. apply diagramLoop_harmless.
    + apply matchAll_groups.
    + apply Nat.le_refl.
  - match goal with |- faithful (let '(_, _) := ?a in _) => destruct a as [result failures] end.
    steps. destruct (Nat.ltb 0 failures); steps.
Qed.

Lemma fileLoop_faithful : forall (fileList : list str) (processed : nat),
  faithful (rt := rt) (fileLoop cfg page fileList processed).
Proof.
  induction fileList as [|file rest IH]; intros processed; simpl.
  - steps.
  - apply faithful_bind; [apply processFile_faithful | intros b; apply IH].
Qed.

Lemma initPage_faithful (browser : Browser rt) : faithful (initPage cfg browser).
Proof.
  unfold initPage. steps.
  intros st. unfold tryCatch, call, throw.
  destruct (waitForFunction rt _ (world st)) as [w [e | u]];
    simpl; eexists; simpl; split; reflexivity.
Qed.

Lemma pageClose_harmless :
  harmless (tryCatch (call OpPageClose (pageClose rt page)) (fun _ => ret tt)).
Proof.
  apply harmless_tryCatch.
  - apply emitsOnly_call. intros ok. destruct ok; reflexivity.
  - intros e. apply harmless_ret.
Qed.

End Program.

Lemma main_faithful (rt : Runtime) (cfg : Config) : faithful (@main rt cfg).
Proof.
  unfold main. steps.
  match goal with |- faithful (if ?b then _ else _) => destruct b end; steps.
  - apply initPage_faithful.
  - apply fileLoop_faithful.
  - apply harmless_faithful, pageClose_harmless.
Qed.

End ExitFacts.
Import ExitFacts.

(* ================================================================== *)
(** * The life of the browser *)
(* ================================================================== *)

Module LifeFacts.

Lemma isPrint_browserFree ev : isPrint ev -> browserFree ev.
Proof. destruct ev; simpl; [contradiction | auto | auto]. Qed.

Lemma isPrint_inSession ev : isPrint ev -> inSession ev.
Proof. destruct ev; simpl; [contradiction | auto | auto]. Qed.

Lemma lifecycle_pre pre evs :
  Forall browserFree pre -> lifecycle evs -> lifecycle (pre ++ evs).
Proof.
  intros Hpre [H | [[p [q [-> [Hp Hq]]]] | [p [r [-> [Hp Hr]]]]]].
  - left. apply Forall_app. auto.
  - right. left. exists (pre ++ p), q. rewrite app_assoc.
    repeat split; [apply Forall_app; auto | exact Hq].
  - right. right. exists (pre ++ p), r. rewrite app_assoc.
    repeat split; [apply Forall_app; auto | exact Hr].
Qed.

Lemma lifecycle_post evs post :
  lifecycle evs -> Forall isPrint post -> lifecycle (evs ++ post).
Proof.
  intros [H | [[p [q [-> [Hp Hq]]]] | [p [r [-> [Hp Hr]]]]]] Hpost.
  - left. apply Forall_app. split; [exact H|].
    eapply Forall_impl; [apply isPrint_browserFree | exact Hpost].
  - right. left. exists p, (q ++ post). rewrite <- app_assoc.
    repeat split; [exact Hp | apply Forall_app; auto].
  - right. right. exists p, (r ++ post). rewrite <- app_assoc.
    repeat split; [exact Hp|].
    destruct Hr as [mid [ok [q [-> [Hmid Hq]]]]].
    exists mid, ok, (q ++ post). rewrite <- app_assoc.
    repeat split; [exact Hmid | apply Forall_app; auto].
Qed.

Section Monad.

Variable rt : Runtime.

Lemma runs_free {A} (m : M rt A) : emitsOnly browserFree m -> runs lifecycle m.
Proof.
  intros H st. destruct (H st) as [evs [Ht Hp]]. exists evs. split; [exact Ht|].
  left. exact Hp.
Qed.

Lemma runs_bind_free {A B} (m : M rt A) (k : A -> M rt B) :
  emitsOnly browserFree m -> (forall a, runs lifecycle (k a)) ->
  runs lifecycle (bind m k).
Proof.
  intros Hm Hk st. unfold bind.
  destruct (Hm st) as [e1 [H1 P1]].
  destruct (m st) as [st1 [e | a]]; simpl in H1.
  - exists e1. split; [exact H1 | left; exact P1].
  - destruct (Hk a st1) as [e2 [H2 P2]].
    exists (e1 ++ e2). rewrite H2, H1, app_assoc. split; [reflexivity|].
    apply lifecycle_pre; assumption.
Qed.

(** After the launch: a failed launch ends the events, a successful one
    opens a session that [k] has to end. *)
Lemma runs_launch {B} (k : Browser rt -> M rt B) :
  (forall browser, runs sessionEnd (k browser)) ->
  runs lifecycle (bind (call OpLaunch (launch rt)) k).
Proof.
  intros Hk st. unfold bind, call.
  destruct (launch rt (world st)) as [w [e | browser]]; simpl.
  - exists [Call OpLaunch false]. split; [reflexivity|].
    right. left. exists [], []. repeat split; constructor.
  - destruct (Hk browser (mkSt rt w (trace st ++ [Call OpLaunch true])))
      as [evs [Ht He]].
    exists (Call OpLaunch true :: evs). rewrite Ht. simpl.
    rewrite <- app_assoc. split; [reflexivity|].
    right. right. exists [], evs. repeat split; [constructor | exact He].
Qed.

(** [try { body } finally { browser.close() }], then messages. *)
Lemma runs_session {A B} (body : M rt A) (browser : Browser rt) (k : A -> M rt B) :
  emitsOnly inSession body -> (forall a, emitsOnly isPrint (k a)) ->
  runs sessionEnd
       (bind (tryFinally body (call OpBrowserClose (browserClose rt browser))) k).
Proof.
  intros Hb Hk st. unfold bind, tryFinally, call.
  destruct (Hb st) as [mid [Hmid Pmid]].
  destruct (body st) as [st1 r]; simpl in Hmid.
  destruct (browserClose rt browser (world st1)) as [w [e | u]]; simpl.
  - exists (mid ++ [Call OpBrowserClose false]). rewrite Hmid, app_assoc.
    split; [reflexivity|]. exists mid, false, []. repeat split; [exact Pmid | constructor].
  - destruct r as [e | a].
    + exists (mid ++ [Call OpBrowserClose true]). simpl. rewrite Hmid, app_assoc.
      split; [reflexivity|]. exists mid, true, []. repeat split; [exact Pmid | constructor].
    + destruct (Hk a (mkSt rt w (trace st1 ++ [Call OpBrowserClose true])))
        as [post [Hpost Ppost]].
      exists (mid ++ Call OpBrowserClose true :: post).
      rewrite Hpost. simpl. rewrite Hmid, <- !app_assoc.
      split; [reflexivity|]. exists mid, true, post. auto.
Qed.

End Monad.

Section Program.

Variable rt : Runtime.
Variable cfg : Config.

Ltac emits :=
  repeat first
    [ exact I
    | reflexivity
    | progress unfold consoleLog, consoleError, consoleWarn, stdoutWrite, stderrWrite
    | emits_step ].

Lemma fileEvent_inSession filePath ev : fileEvent cfg filePath ev -> inSession ev.
Proof.
  destruct ev as [op ok | |]; simpl; auto. destruct op; simpl; auto.
Qed.

Lemma fileLoop_inSession (page : Page rt) : forall (fileList : list str) (processed : nat),
  emitsOnly (rt := rt) inSession (fileLoop cfg page fileList processed).
Proof.
  induction fileList as [|file rest IH]; intros processed; simpl.
  - apply emitsOnly_ret.
  - apply emitsOnly_bind; [|intros b; apply IH].
    eapply emitsOnly_impl; [apply fileEvent_inSession | apply processFile_discipline].
Qed.

Lemma initPage_inSession (browser : Browser rt) :
  emitsOnly inSession (initPage cfg browser).
Proof. unfold initPage. emits. Qed.

Lemma main_lifecycle : runs lifecycle (@main rt cfg).
Proof.
  unfold main.
  apply runs_bind_free; [emits|]. intros _.
  apply runs_bind_free; [emits|]. intros info.
  match goal with |- runs _ (if ?b then _ else _) => destruct b end.
  - apply runs_free. emits.
  - apply runs_bind_free; [emits|]. intros _.
    apply runs_launch. intros browser.
    apply runs_session.
    + emits; [apply initPage_inSession | apply fileLoop_inSession].
    + intros processed. emits.
Qed.

(** The option checks only print. *)
Lemma startup_prints values : emitsOnly isPrint (@startup rt values).
Proof.
  unfold startup, help.
  destruct (v_version values); [emits|].
  destruct (v_help values || negb (truthy (v_md values))); [emits|].
  destruct (v_svg values && v_jpg values); [emits|].
  destruct (v_b64 values && v_files values); [emits|].
  destruct (v_svg values && v_files values); [emits|].
  destruct (Scale.scaleOf (v_scale values)) as [s|]; [|emits].
  intros st. destruct (existsSync rt _ (world st)).
  - exists []. simpl. rewrite app_nil_r. auto.
  - eexists. simpl. split; [reflexivity|]. repeat constructor.
Qed.

End Program.

End LifeFacts.
Import LifeFacts.

(* ================================================================== *)
(** * Runs of the script *)
(* ================================================================== *)

(** X8. The life of the browser.  In every run, either the browser is
    never asked for; or its launch fails and only messages follow; or it is
    launched and then closed exactly once, every other call to the browser
    and to its page lying between the launch and the close, after which only
    messages are written. *)
Theorem browser_closed_once :
  forall (rt : Runtime) (values : Values) (st : State rt),
    exists evs,
      trace (fst (run values st)) = trace st ++ evs /\ lifecycle evs.
Proof.
  intros rt values st. unfold run, bind.
  destruct (startup_prints rt values st) as [out [Hout Pout]].
  destruct (startup values st) as [st1 [e | [code | cfg]]]; simpl in Hout.
  - exists out. split; [exact Hout|]. left.
    eapply Forall_impl; [apply isPrint_browserFree | exact Pout].
  - exists out. split; [exact Hout|]. left.
    eapply Forall_impl; [apply isPrint_browserFree | exact Pout].
  - unfold tryCatch, bind.
    destruct (main_lifecycle rt cfg st1) as [evs [Hevs Pevs]].
    assert (Hpre : Forall browserFree out)
      by (eapply Forall_impl; [apply isPrint_browserFree | exact Pout]).
    destruct (main cfg st1) as [st2 [e | u]]; simpl in *.
    + exists (out ++ evs ++ [Stderr ((lit "Fatal: " ++ e) ++ [LF])]).
      rewrite Hevs, Hout, <- !app_assoc. split; [reflexivity|].
      apply lifecycle_pre; [exact Hpre|].
      apply lifecycle_post; [exact Pevs | repeat constructor].
    + exists (out ++ evs). rewrite Hevs, Hout, <- app_assoc.
      split; [reflexivity|]. apply lifecycle_pre; assumption.
Qed.

Lemma isPrint_notFatal evs : Forall isPrint evs -> existsb isFatal evs = false.
Proof.
  induction 1 as [|ev evs Hev _ IH]; [reflexivity|].
  simpl. rewrite IH. destruct ev; [contradiction | reflexivity | reflexivity].
Qed.

Lemma startup_code (rt : Runtime) (values : Values) (st : State rt) :
  match snd (startup values st) with
  | inl _ => False
  | inr (inl code) => code = (if v_version values || v_help values then 0 else 1)%Z
  | inr (inr _) => True
  end.
Proof.
  unfold startup, help, consoleLog, consoleError, bind, emit, ret.
  destruct (v_version values); [reflexivity|].
  destruct (v_help values); [reflexivity|]. simpl.
  destruct (truthy (v_md values)); [|reflexivity]. simpl.
  destruct (v_svg values && v_jpg values); [reflexivity|].
  destruct (v_b64 values && v_files values); [reflexivity|].
  destruct (v_svg values && v_files values); [reflexivity|].
  destruct (Scale.scaleOf (v_scale values)); [|reflexivity].
  destruct (existsSync rt _ (world st)); [exact I | reflexivity].
Qed.

(** X9. How the script ends.  When [parseArgs] throws, the script ends on
    this exception, uncaught, and has printed and called nothing.  When
    [parseArgs] returns, no exception leaves the script: it ends with the
    exit status 0 or 1.  Once the options are accepted the status is 1
    exactly when one of the calls that no [try] of the loop body covers has
    failed: [stat], [readFile], [mkdir], the writing of an output, the
    launch, the opening and the preparation of the page, [browser.close].
    The failure of a render, of a capture, of the writing of an image or of
    [page.close] never changes the exit status.  Here the call [stat]
    stands for [stat] together with the [readdir] calls of the walk, whose
    listing is part of its answer: the walk prints nothing and calls
    nothing else, and a throw of either reaches [main().catch] alike. *)
Theorem exit_status_reflects_fatal_calls :
  forall (rt : Runtime) (parseArgs : list str -> Error + Values)
         (argv : list str) (st : State rt),
    match parseArgs argv with
    | inl err => script parseArgs argv st = (st, inl err)
    | inr values =>
        exists evs code,
          trace (fst (script parseArgs argv st)) = trace st ++ evs
          /\ snd (script parseArgs argv st) = inr code
          /\ (code = 0 \/ code = 1)%Z
          /\ (existsb isFatal evs = true -> code = 1%Z)
          /\ (forall cfg, snd (startup values st) = inr (inr cfg) ->
                          code = if existsb isFatal evs then 1%Z else 0%Z)
    end.
Proof.
  intros rt parseArgs argv st. unfold script.
  destruct (parseArgs argv) as [err | values]; [reflexivity|].
  unfold run, bind.
  destruct (startup_prints rt values st) as [out [Hout Pout]].
  pose proof (startup_code rt values st) as Hcode.
  pose proof (isPrint_notFatal out Pout) as Fout.
  destruct (startup values st) as [st1 [e | [code | cfg]]]; simpl in Hout, Hcode.
  - contradiction.
  - exists out, code. simpl. rewrite Fout.
    repeat split; try assumption; try discriminate.
    subst code. destruct (v_version values || v_help values); auto.
  - unfold tryCatch, bind.
    destruct (main_faithful rt cfg st1) as [evs [Hevs Hok]].
    destruct (main cfg st1) as [st2 [e | u]]; simpl in *.
    + exists (out ++ evs ++ [Stderr ((lit "Fatal: " ++ e) ++ [LF])]), 1%Z.
      rewrite Hevs, Hout, <- !app_assoc, !existsb_app, Fout.
      destruct (existsb isFatal evs); [|discriminate]. simpl.
      repeat split; auto.
    + exists (out ++ evs), 0%Z.
      rewrite Hevs, Hout, <- !app_assoc, !existsb_app, Fout.
      destruct (existsb isFatal evs); [discriminate|]. simpl.
      repeat split; auto. discriminate.
Qed.

(** X10. A folder that holds, at any depth, no file the walk selects: the
    run writes the banner and [No markdown files found.], returns normally
    and never launches the browser. *)
Theorem nothing_to_scan :
  forall (rt : Runtime) (cfg : Config) (st : State rt) (w : World rt)
         (entries : list Dirent),
    stat rt (mdPath cfg) (world st) = (w, inr (IsDirectory entries)) ->
    (forall full name,
        ListedFile (mdPath cfg) entries full name -> eligible name = false) ->
    main cfg st
    = (mkSt rt w (trace st ++ [Stderr (BANNER ++ [LF]);
                               Call (OpStat (mdPath cfg)) true;
                               Stdout (lit "No markdown files found." ++ [LF])]),
       inr tt).
Proof.
  intros rt cfg st w entries Hstat Hnone.
  assert (Hfiles : collectMarkdownFiles (mdPath cfg) entries = []).
  { destruct (collectMarkdownFiles (mdPath cfg) entries) as [|full rest] eqn:E;
      [reflexivity|].
    assert (Hin : In full (collectMarkdownFiles (mdPath cfg) entries))
      by (rewrite E; left; reflexivity).
    apply collectMarkdownFiles_entries in Hin.
    - destruct Hin as [name [Hl He]]. rewrite (Hnone full name Hl) in He. discriminate.
    - apply Forall_forall. intros entry _. apply collectEntry_spec. }
  unfold main, bind, stderrWrite, consoleLog, emit, call. cbn [world trace].
  rewrite Hstat. cbn [isOk filesOf]. rewrite Hfiles. cbn [length Nat.eqb world trace].
  rewrite <- !app_assoc. reflexivity.
Qed.

Lemma nothing_to_scan_witness :
  let entries := [ FileEntry (lit "a_mermaid2svg.md");
                   FileEntry (lit "notes.txt");
                   DirEntry (lit "img") [ FileEntry (lit "b_mermaid2jpg.md") ] ] in
  let rt := folderOf entries in
  let cfg := Build_Config (lit "/docs") jpg b64 2 in
  main cfg (Demo.start rt 0)
  = (mkSt rt 1 [Stderr (BANNER ++ [LF]);
                Call (OpStat (lit "/docs")) true;
                Stdout (lit "No markdown files found." ++ [LF])],
     inr tt).
Proof.
  intros entries rt cfg.
  apply (nothing_to_scan rt cfg (Demo.start rt 0) 1 entries).
  - reflexivity.
  - intros full name H. inversion H as [d es n Hin | d es sub subs f n Hin Hsub]; subst.
    + simpl in Hin. destruct Hin as [E | [E | [E | []]]].
      * injection E as <-. reflexivity.
      * injection E as <-. reflexivity.
      * discriminate.
    + simpl in Hin. destruct Hin as [E | [E | [E | []]]]; try discriminate.
      injection E as <- <-.
      inversion Hsub as [d es n Hin | d es sub' subs' f n Hin Hsub']; subst.
      * simpl in Hin. destruct Hin as [E | []]. injection E as <-. reflexivity.
      * simpl in Hin. destruct Hin as [E | []]. discriminate.
Defined.

(** X11. When Mermaid does not load into the page, whatever the error of
    [waitForFunction], [main] reads no markdown file, does not call
    [page.close], closes the browser, and throws the fixed message of
    [initPage], or the error of [browser.close] when that call fails as
    well. *)
Theorem mermaid_load_failure :
  forall (rt : Runtime) (cfg : Config) (st : State rt)
         (w1 w2 w3 w4 w5 : World rt) (info : Stats)
         (browser : Browser rt) (page : Page rt) (e : Error),
    stat rt (mdPath cfg) (world st) = (w1, inr info) ->
    filesOf cfg info <> [] ->
    launch rt w1 = (w2, inr browser) ->
    newPage rt browser (scale cfg) w2 = (w3, inr page) ->
    setContent rt page PAGE_HTML w3 = (w4, inr tt) ->
    waitForFunction rt page w4 = (w5, inl e) ->
    let events :=
      [ Stderr (BANNER ++ [LF]);
        Call (OpStat (mdPath cfg)) true;
        Stdout ((ofNat (length (filesOf cfg info))
                 ++ lit " markdown file(s) to scan. Launching browser...") ++ [LF]);
        Call OpLaunch true;
        Call (OpNewPage (scale cfg)) true;
        Call (OpSetContent PAGE_HTML) true;
        Call OpWaitForFunction false ] in
    match browserClose rt browser w5 with
    | (w6, inr _) =>
        main cfg st
        = (mkSt rt w6 (trace st ++ events ++ [Call OpBrowserClose true]),
           inl LOAD_FAILURE)
    | (w6, inl e') =>
        main cfg st
        = (mkSt rt w6 (trace st ++ events ++ [Call OpBrowserClose false]), inl e')
    end.
Proof.
  intros rt cfg st w1 w2 w3 w4 w5 info browser page e
         Hstat Hfiles Hlaunch Hpage Hcontent Hwait events.
  unfold main, bind, stderrWrite, consoleLog, emit, call. cbn [world trace].
  rewrite Hstat. cbn [isOk world trace].
  destruct (filesOf cfg info) as [|f fs] eqn:Hf; [congruence|].
  cbn [length Nat.eqb world trace]. rewrite Hlaunch. cbn [isOk world trace].
  unfold tryFinally, initPage, bind, call, tryCatch, throw. cbn [world trace].
  rewrite Hpage. cbn [isOk world trace]. rewrite Hcontent. cbn [isOk world trace].
  rewrite Hwait. cbn [isOk world trace fst snd].
  destruct (browserClose rt browser w5) as [w6 [e' | u]];
    cbn [isOk world trace]; unfold events; rewrite <- !app_assoc; reflexivity.
Qed.

Lemma mermaid_load_failure_witness :
  let rt := offline in
  let cfg := Demo.config jpg b64 in
  main cfg (Demo.start rt 0)
  = (mkSt rt 6 ([] ++ [ Stderr (BANNER ++ [LF]);
                        Call (OpStat Demo.docPath) true;
                        Stdout ((ofNat 1
                                 ++ lit " markdown file(s) to scan. Launching browser...")
                                ++ [LF]);
                        Call OpLaunch true;
                        Call (OpNewPage 2) true;
                        Call (OpSetContent PAGE_HTML) true;
                        Call OpWaitForFunction false ]
                    ++ [Call OpBrowserClose true]),
     inl LOAD_FAILURE).
Proof.
  exact (mermaid_load_failure offline (Demo.config jpg b64) (Demo.start offline 0)
           1 2 3 4 5 IsFile tt tt (lit "Timeout 30000ms exceeded")
           eq_refl ltac:(discriminate) eq_refl eq_refl eq_refl eq_refl).
Defined.

(** X12. The checks of the options never throw and never change the
    world.  When they accept they write nothing; when they refuse they write
    one text, to standard output for [--version], [--help] and a missing
    [--md], to standard error otherwise, and the exit status is 0 exactly
    for [--version] and [--help]. *)
Theorem startup_refusals :
  forall (rt : Runtime) (values : Values) (st : State rt),
    world (fst (startup values st)) = world st
    /\ match snd (startup values st) with
       | inl _ => False
       | inr (inr cfg) => trace (fst (startup values st)) = trace st
       | inr (inl code) =>
           code = (if v_version values || v_help values then 0 else 1)%Z
           /\ exists text,
                trace (fst (startup values st))
                = trace st
                  ++ [if v_version values || v_help values
                         || negb (truthy (v_md values))
                      then Stdout text else Stderr text]
       end.
Proof.
  intros rt values st.
  unfold startup, help, consoleLog, consoleError, bind, emit, ret.
  destruct (v_version values); [simpl; eauto|].
  destruct (v_help values); [simpl; eauto|]. simpl.
  destruct (truthy (v_md values)); [|simpl; eauto]. simpl.
  destruct (v_svg values && v_jpg values); [simpl; eauto|].
  destruct (v_b64 values && v_files values); [simpl; eauto|].
  destruct (v_svg values && v_files values); [simpl; eauto|].
  destruct (Scale.scaleOf (v_scale values)); [|simpl; eauto].
  destruct (existsSync rt _ (world st)); simpl; eauto.
Qed.



(** X14. What makes a diagram fail: a call of the loop body that threw
    (the render, the element query, the capture, the writing of the image),
    or, in the raster format, an element query that found nothing.  The test
    [!jpg] of the loop body therefore never fires. *)
Theorem diagram_failure_causes :
  forall (rt : Runtime) (cfg : Config) (page : Page rt) (filePath : str)
         (i : nat) (code : str) (st : State rt) (err : Error),
    snd (renderReplacement cfg page filePath i code st) = inl err ->
    (exists tr op,
        trace (fst (renderReplacement cfg page filePath i code st))
        = tr ++ [Call op false]
        /\ fatalOp op = false)
    \/ (fmt cfg = jpg
        /\ err = lit "SVG element not found after rendering"
        /\ exists tr,
             trace (fst (renderReplacement cfg page filePath i code st))
             = tr ++ [Call (OpQuerySelector (lit "svg")) true]).
Proof.
  intros rt cfg page filePath i code st err.
  unfold renderReplacement, renderDiagram, bind, call, throw, ret.
  destruct (evaluate rt page code (world st)) as [w1 [e1 | svgText]]; cbn [isOk world trace].
  { intros _. left. eexists _, _. simpl. split; reflexivity. }
  destruct (fmt cfg) eqn:Hf; cbn [isOk world trace fst snd]; [discriminate|].
  destruct (querySelector rt page (lit "svg") w1) as [w2 [e2 | [el|]]];
    cbn [isOk world trace fst snd].
  - intros _. left. eexists _, _. simpl. split; reflexivity.
  - destruct (screenshot rt el w2) as [w3 [e3 | shot]]; cbn [isOk world trace fst snd].
    + intros _. left. eexists _, _. simpl. split; reflexivity.
    + destruct (mode cfg); cbn [isOk world trace fst snd]; [discriminate|].
      destruct (writeFile rt _ (Bytes shot) w3) as [w4 [e4 | u]];
        cbn [isOk world trace fst snd]; [|discriminate].
      intros _. left. eexists _, _. simpl. split; reflexivity.
  - intros H. injection H as <-. right. repeat split. eexists. reflexivity.
Qed.

Lemma diagram_failure_causes_witness :
  let rt := Demo.broken in
  let res := renderReplacement (Demo.config svg b64) (tt : Page rt) Demo.docPath 0
                               (lit "A") (Demo.start rt 0) in
  (exists tr op, trace (fst res) = tr ++ [Call op false] /\ fatalOp op = false)
  \/ (fmt (Demo.config svg b64) = jpg
      /\ lit "Parse error" = lit "SVG element not found after rendering"
      /\ exists tr, trace (fst res) = tr ++ [Call (OpQuerySelector (lit "svg")) true]).
Proof.
  exact (diagram_failure_causes Demo.broken (Demo.config svg b64) tt Demo.docPath 0
           (lit "A") (Demo.start Demo.broken 0) (lit "Parse error") eq_refl).
Defined.

Import ScaleFacts PathFacts.

Module PrefixFacts.
Import Scale.

Lemma trimStart_spaces ws s :
  forallb isSpace ws = true -> trimStart (ws ++ s) = trimStart s.
Proof.
  induction ws as [|c ws IH]; simpl; [reflexivity|].
  intros H. apply andb_true_iff in H. destruct H as [Hc Hws].
  rewrite Hc. apply IH. exact Hws.
Qed.

Lemma digitsValue_app s rest : forall acc,
  forallb isDigit s = true ->
  digitsValue (s ++ rest) acc = digitsValue rest (digitsValue s acc).
Proof.
  induction s as [|c s IH]; intros acc H; simpl in *; [reflexivity|].
  apply andb_true_iff in H. destruct H as [Hc Hs]. rewrite Hc.
  apply IH. exact Hs.
Qed.

Lemma digitsValue_stop rest v :
  match rest with c :: _ => isDigit c = false | [] => True end ->
  digitsValue rest (Some v) = Some v.
Proof.
  destruct rest as [|c rest]; simpl; [reflexivity|]. intros ->. reflexivity.
Qed.

Lemma head_app_digit s rest :
  match s with c :: _ => isDigit c | [] => false end = true ->
  match s ++ rest with c :: _ => isDigit c | [] => false end = true.
Proof. destruct s; simpl; [discriminate | auto]. Qed.

End PrefixFacts.
Import PrefixFacts.

(** X15. [--scale] is read as [parseInt] reads it: white space in front
    and whatever follows the leading digits are ignored, so that [ 3.7x]
    gives the scale 3. *)
Theorem scale_reads_decimal_prefix :
  forall (ws : str) (n : nat) (rest : str),
    forallb isSpace ws = true ->
    match rest with c :: _ => Scale.isDigit c = false | [] => True end ->
    Scale.scaleOf (Some (ws ++ ofNat n ++ rest))
    = Some (Z.max 1 (Z.min 4 (Z.of_nat n))).
Proof.
  intros ws n rest Hws Hrest.
  unfold Scale.scaleOf, Scale.parseInt10.
  rewrite (trimStart_spaces ws _ Hws).
  pose proof (head_app_digit (ofNat n) rest (ofNat_head n)) as Hhead.
  rewrite (trimStart_digit _ Hhead), (splitSign_digit _ Hhead).
  rewrite (digitsValue_app (ofNat n) rest None (ofNat_digits n)).
  rewrite digitsValue_ofNat, (digitsValue_stop rest _ Hrest).
  rewrite Z.mul_1_l. reflexivity.
Qed.

Lemma scale_reads_decimal_prefix_witness :
  Scale.scaleOf (Some (lit " " ++ ofNat 3 ++ lit ".7x")) = Some 3%Z.
Proof.
  exact (scale_reads_decimal_prefix (lit " ") 3 (lit ".7x") eq_refl eq_refl).
Defined.

Module CountFacts.

Lemma outputsWritten_app a b :
  outputsWritten (a ++ b) = outputsWritten a + outputsWritten b.
Proof. unfold outputsWritten. rewrite filter_app, length_app. reflexivity. Qed.

Lemma filesRead_app a b : filesRead (a ++ b) = filesRead a ++ filesRead b.
Proof. apply flat_map_app. Qed.

Lemma loopEvent_noOutput cfg filePath evs :
  Forall (loopEvent cfg filePath) evs ->
  outputsWritten evs = 0 /\ filesRead evs = [].
Proof.
  induction 1 as [|ev evs Hev _ [IH1 IH2]]; [split; reflexivity|].
  change (ev :: evs) with ([ev] ++ evs).
  rewrite outputsWritten_app, filesRead_app, IH1, IH2.
  destruct ev as [op ok | |]; try (split; reflexivity).
  destruct op; try (split; reflexivity); try contradiction.
  destruct f; [contradiction | split; reflexivity].
Qed.

Section File.

Variable rt : Runtime.
Variable cfg : Config.
Variable page : Page rt.
Variable filePath : str.

Lemma ensureDir_outputs st :
  exists evs,
    trace (fst (ensureDir rt cfg filePath st)) = trace st ++ evs
    /\ outputsWritten evs = 0 /\ filesRead evs = [].
Proof.
  unfold ensureDir.
  destruct (fmt cfg), (mode cfg);
    try (exists []; simpl; rewrite app_nil_r; repeat split; reflexivity).
  destruct (mkdir rt _ (world st)) as [w r]. simpl.
  eexists. repeat split; reflexivity.
Qed.

Lemma finish_outputs result failures st :
  exists evs,
    trace (fst (finish rt cfg filePath result failures st)) = trace st ++ evs
    /\ filesRead evs = []
    /\ match snd (finish rt cfg filePath result failures st) with
       | inr b => b = true /\ outputsWritten evs = 1
       | inl _ => True
       end.
Proof.
  unfold finish, called, printed.
  destruct (writeFile rt _ (Text result) (world st)) as [w [e | u]]; simpl.
  - eexists. repeat split; reflexivity.
  - destruct (Nat.ltb 0 failures); simpl; rewrite <- !app_assoc;
      eexists; repeat split; reflexivity.
Qed.

(** [processFile] reads its file once, and the file counts exactly when
    its output has been written. *)
Lemma processFile_outputs st :
  exists evs,
    trace (fst (processFile cfg page filePath st)) = trace st ++ evs
    /\ filesRead evs = [filePath]
    /\ match snd (processFile cfg page filePath st) with
       | inr b => outputsWritten evs = if b then 1 else 0
       | inl _ => True
       end.
Proof.
  rewrite processFile_unfold.
  destruct (readFile rt filePath (world st)) as [w1 [e | content]].
  - eexists. simpl. repeat split; reflexivity.
  - cbv zeta.
    destruct (Nat.eqb (length (matchAll content MERMAID_RE)) 0).
    + eexists. simpl. repeat split; reflexivity.
    + set (header := [Call (OpReadFile filePath) true;
                      Stdout (headerText filePath
                                (length (matchAll content MERMAID_RE)))]).
      set (st1 := printed rt (called rt st w1 (OpReadFile filePath) true)
                          (Stdout (headerText filePath
                                     (length (matchAll content MERMAID_RE))))).
      assert (H1 : trace st1 = trace st ++ header).
      { unfold st1, header, printed, called. simpl. rewrite <- app_assoc. reflexivity. }
      destruct (ensureDir_outputs st1) as [e2 [H2 [C2 R2]]].
      destruct (ensureDir rt cfg filePath st1) as [st2 [e | u]]; cbn [fst] in H2.
      * exists (header ++ e2).
        cbn [fst snd]. rewrite H2, H1, <- app_assoc, filesRead_app, R2.
        repeat split; reflexivity.
      * destruct (diagramLoop_discipline rt cfg page filePath
                    (matchAll content MERMAID_RE)
                    (length (matchAll content MERMAID_RE)) (content, 0) st2)
          as [e3 [H3 P3]].
        apply loopEvent_noOutput in P3. destruct P3 as [C3 R3].
        destruct (diagramLoop cfg page filePath _ _ (content, 0) st2)
          as [st3 [e | [result failures]]]; cbn [fst] in H3.
        -- exists (header ++ e2 ++ e3).
           cbn [fst snd]. rewrite H3, H2, H1, <- !app_assoc, !filesRead_app, R2, R3.
           repeat split; reflexivity.
        -- destruct (finish_outputs result failures st3) as [e4 [H4 [R4 C4]]].
           exists (header ++ e2 ++ e3 ++ e4).
           rewrite H4, H3, H2, H1, <- !app_assoc, !filesRead_app, R2, R3, R4.
           split; [reflexivity|]. split; [reflexivity|].
           destruct (snd (finish rt cfg filePath result failures st3)) as [e | b];
             [exact I|].
           destruct C4 as [-> C4].
           rewrite !outputsWritten_app, C2, C3, C4. reflexivity.
Qed.

End File.

Section Loop.

Variable rt : Runtime.
Variable cfg : Config.
Variable page : Page rt.

Lemma fileLoop_outputs : forall (fileList : list str) (processed : nat) (st : State rt),
  exists evs,
    trace (fst (fileLoop cfg page fileList processed st)) = trace st ++ evs
    /\ match snd (fileLoop cfg page fileList processed st) with
       | inr k => k = processed + outputsWritten evs /\ filesRead evs = fileList
       | inl _ => exists rest, fileList = filesRead evs ++ rest
       end.
Proof.
  induction fileList as [|file rest IH]; intros processed st.
  - exists []. simpl. rewrite app_nil_r. split; [reflexivity|].
    unfold outputsWritten. simpl. split; [lia | reflexivity].
  - simpl. unfold bind.
    destruct (processFile_outputs rt cfg page file st) as [e1 [H1 [R1 C1]]].
    destruct (processFile cfg page file st) as [st1 [e | b]]; simpl in H1, C1.
    + exists e1. simpl. split; [exact H1|]. exists rest. rewrite R1. reflexivity.
    + destruct (IH (if b then processed + 1 else processed) st1) as [e2 [H2 C2]].
      exists (e1 ++ e2). rewrite H2, H1, app_assoc. split; [reflexivity|].
      rewrite filesRead_app, R1.
      destruct (snd (fileLoop cfg page rest _ st1)) as [e | k].
      * destruct C2 as [rest' ->]. exists rest'. reflexivity.
      * destruct C2 as [-> ->]. rewrite outputsWritten_app, C1.
        split; [destruct b; lia | reflexivity].
Qed.

End Loop.

End CountFacts.
Import CountFacts.

Module AccountFacts.

Lemma idle_events evs :
  Forall idle evs -> filesRead evs = [] /\ outputsWritten evs = 0.
Proof.
  induction 1 as [|ev evs [Hr Ho] _ [IH1 IH2]]; [split; reflexivity|].
  change (ev :: evs) with ([ev] ++ evs).
  rewrite filesRead_app, outputsWritten_app, Hr, IH1, IH2.
  unfold outputsWritten. simpl. rewrite Ho. split; reflexivity.
Qed.

Section Monad.

Variable rt : Runtime.
Variable fileList : list str.

Lemma account_pre {A} (m : M rt A) (k : A -> M rt nat) :
  emitsOnly idle m -> (forall a, account fileList (k a)) ->
  account fileList (bind m k).
Proof.
  intros Hm Hk st. unfold bind.
  destruct (Hm st) as [e1 [H1 P1]]. apply idle_events in P1. destruct P1 as [R1 O1].
  destruct (m st) as [st1 [e | a]]; simpl in H1.
  - exists e1. simpl. rewrite R1. split; [exact H1|]. split; [|exact I].
    exists fileList. split; [reflexivity | discriminate].
  - destruct (Hk a st1) as [e2 [H2 [Hr Hc]]].
    exists (e1 ++ e2). rewrite H2, H1, app_assoc, filesRead_app, R1.
    split; [reflexivity|]. split; [exact Hr|].
    destruct (snd (k a st1)); [exact I|].
    rewrite outputsWritten_app, O1. exact Hc.
Qed.

(** What follows the loop changes nothing when it reads nothing, writes
    no output and hands the count on. *)
Lemma account_post (m : M rt nat) (k : nat -> M rt nat) :
  account fileList m ->
  (forall a, emitsOnly idle (k a)) ->
  (forall a st, match snd (k a st) with inr b => b = a | inl _ => True end) ->
  account fileList (bind m k).
Proof.
  intros Hm Hk Hv st. unfold bind.
  destruct (Hm st) as [e1 [H1 [[rest [Hr Hall]] Hc]]].
  destruct (m st) as [st1 [e | a]]; simpl in H1, Hall, Hc.
  - exists e1. simpl. split; [exact H1|]. split; [|exact I].
    exists rest. split; [exact Hr | discriminate].
  - destruct (Hk a st1) as [e2 [H2 P2]]. apply idle_events in P2.
    destruct P2 as [R2 O2]. specialize (Hv a st1).
    exists (e1 ++ e2). rewrite H2, H1, app_assoc, filesRead_app, R2, app_nil_r.
    split; [reflexivity|]. split.
    + exists rest. split; [exact Hr|]. intros _. apply Hall. reflexivity.
    + destruct (snd (k a st1)) as [e | b]; [exact I|].
      rewrite outputsWritten_app, O2, Nat.add_0_r. congruence.
Qed.

Lemma account_tryFinally (m : M rt nat) (c : M rt unit) :
  account fileList m -> emitsOnly idle c -> account fileList (tryFinally m c).
Proof.
  intros Hm Hc st. unfold tryFinally.
  destruct (Hm st) as [e1 [H1 [[rest [Hr Hall]] Hk]]].
  destruct (m st) as [st1 r]; simpl in H1, Hall, Hk.
  destruct (Hc st1) as [e2 [H2 P2]]. apply idle_events in P2.
  destruct P2 as [R2 O2].
  exists (e1 ++ e2). rewrite filesRead_app, R2, app_nil_r.
  destruct (c st1) as [st2 [e | u]]; simpl in *;
    rewrite H2, H1, app_assoc; (split; [reflexivity|]).
  - split; [|exact I]. exists rest. split; [exact Hr | discriminate].
  - split; [exists rest; split; [exact Hr | exact Hall]|].
    destruct r as [e | k]; [exact I|].
    rewrite outputsWritten_app, O2, Nat.add_0_r. exact Hk.
Qed.

End Monad.

Section Session.

Variable rt : Runtime.
Variable cfg : Config.

Ltac idles :=
  repeat first
    [ progress unfold consoleLog, consoleError, consoleWarn, stdoutWrite, stderrWrite
    | emits_step
    | match goal with
      | |- idle (Call _ ?ok) => destruct ok; split; reflexivity
      | |- idle _ => split; reflexivity
      end ].

Lemma initPage_idle (browser : Browser rt) : emitsOnly idle (initPage cfg browser).
Proof. unfold initPage. idles. Qed.

Lemma account_fileLoop (page : Page rt) (fileList : list str) :
  account fileList (fileLoop cfg page fileList 0).
Proof.
  intros st.
  destruct (fileLoop_outputs rt cfg page fileList 0 st) as [evs [Ht Hk]].
  exists evs. split; [exact Ht|].
  destruct (snd (fileLoop cfg page fileList 0 st)) as [e | k]; simpl.
  - split; [|exact I]. destruct Hk as [rest Hr]. exists rest.
    split; [exact Hr | discriminate].
  - destruct Hk as [Hk Hr]. split; [|exact Hk].
    exists []. rewrite app_nil_r. auto.
Qed.

(** The session of [main]: the page, the loop over the files, the closing
    of the page and of the browser. *)
Lemma account_session (browser : Browser rt) (fileList : list str) :
  account fileList
    (tryFinally
       (bind (initPage cfg browser) (fun page =>
        bind (fileLoop cfg page fileList 0) (fun processed =>
        bind (tryCatch (call OpPageClose (pageClose rt page)) (fun _ => ret tt))
             (fun _ => ret processed))))
       (call OpBrowserClose (browserClose rt browser))).
Proof.
  apply account_tryFinally; [|idles].
  apply account_pre; [apply initPage_idle|]. intros page.
  apply account_post; [apply account_fileLoop | intros a; idles |].
  intros a st. unfold bind, tryCatch, call, ret.
  destruct (pageClose rt page (world st)) as [w [e | u]]; reflexivity.
Qed.

(** [main], call by call. *)
Lemma main_unfold (st : State rt) :
  main cfg st
  = let st0 := printed rt st (Stderr (BANNER ++ [LF])) in
    match stat rt (mdPath cfg) (world st) with
    | (w, inl e) => (called rt st0 w (OpStat (mdPath cfg)) false, inl e)
    | (w, inr info) =>
        let st1 := called rt st0 w (OpStat (mdPath cfg)) true in
        match filesOf cfg info with
        | [] => (printed rt st1 (Stdout (lit "No markdown files found." ++ [LF])),
                 inr tt)
        | f :: fs =>
            let st2 :=
              printed rt st1
                (Stdout ((ofNat (length (f :: fs))
                          ++ lit " markdown file(s) to scan. Launching browser...")
                         ++ [LF])) in
            match launch rt w with
            | (w2, inl e) => (called rt st2 w2 OpLaunch false, inl e)
            | (w2, inr browser) =>
                match tryFinally
                        (bind (initPage cfg browser) (fun page =>
                         bind (fileLoop cfg page (f :: fs) 0) (fun processed =>
                         bind (tryCatch (call OpPageClose (pageClose rt page))
                                        (fun _ => ret tt))
                              (fun _ => ret processed))))
                        (call OpBrowserClose (browserClose rt browser))
                        (called rt st2 w2 OpLaunch true) with
                | (st4, inl e) => (st4, inl e)
                | (st4, inr k) =>
                    (printed rt st4 (Stdout (doneText k ++ [LF])), inr tt)
                end
            end
        end
    end.
Proof.
  unfold main, stderrWrite, consoleLog, printed, called.
  unfold bind at 1 2. unfold emit at 1. unfold call at 1. cbn [world trace].
  destruct (stat rt (mdPath cfg) (world st)) as [w [e | info]]; [reflexivity|].
  cbn [isOk]. destruct (filesOf cfg info) as [|f fs]; [reflexivity|].
  cbn [length Nat.eqb]. unfold bind at 1 2. unfold emit at 1. unfold call at 1.
  cbn [world trace].
  destruct (launch rt w) as [w2 [e | browser]]; [reflexivity|].
  cbn [isOk]. unfold bind at 1.
  match goal with
  | |- context [tryFinally ?body ?close ?s] =>
      destruct (tryFinally body close s) as [st4 [e | k]]
  end; reflexivity.
Qed.

(** The account of [main], once [stat] has answered. *)
Lemma main_account (st : State rt) (w : World rt) (info : Stats) :
  stat rt (mdPath cfg) (world st) = (w, inr info) ->
  exists evs,
    trace (fst (main cfg st)) = trace st ++ evs
    /\ (exists rest, filesOf cfg info = filesRead evs ++ rest
                     /\ (isOk (snd (main cfg st)) = true -> rest = []))
    /\ (isOk (snd (main cfg st)) = true ->
        exists before last,
          evs = before ++ [Stdout (last ++ [LF])]
          /\ (last = lit "No markdown files found." /\ outputsWritten before = 0
              \/ last = doneText (outputsWritten before))).
Proof.
  intros Hstat. rewrite main_unfold, Hstat. cbv zeta.
  destruct (filesOf cfg info) as [|f fs] eqn:Hf.
  - exists [Stderr (BANNER ++ [LF]); Call (OpStat (mdPath cfg)) true;
            Stdout (lit "No markdown files found." ++ [LF])].
    cbn [fst snd isOk].
    split; [unfold printed, called; cbn [world trace]; rewrite <- !app_assoc;
            reflexivity|].
    split.
    + exists []. split; [reflexivity | intros _; reflexivity].
    + intros _. exists [Stderr (BANNER ++ [LF]); Call (OpStat (mdPath cfg)) true],
                       (lit "No markdown files found.").
      split; [reflexivity | left; split; reflexivity].
  - set (pre := [Stderr (BANNER ++ [LF]); Call (OpStat (mdPath cfg)) true;
                 Stdout ((ofNat (length (f :: fs))
                          ++ lit " markdown file(s) to scan. Launching browser...")
                         ++ [LF])]).
    destruct (launch rt w) as [w2 [e | browser]].
    + exists (pre ++ [Call OpLaunch false]).
      cbn [fst snd isOk].
      split; [unfold printed, called, pre; cbn [world trace];
              rewrite <- !app_assoc; reflexivity|].
      split; [|intros H; discriminate H].
      exists (f :: fs). split; [reflexivity | intros H; discriminate H].
    + match goal with
      | |- context [tryFinally ?body ?close ?s] =>
          destruct (account_session browser (f :: fs) s) as [evs [Ht [Hr Hk]]];
          destruct (tryFinally body close s) as [st4 [e | k]]
      end; cbn [fst snd isOk] in *.
      * exists (pre ++ Call OpLaunch true :: evs).
        split; [rewrite Ht; unfold printed, called, pre; cbn [world trace];
                rewrite <- !app_assoc; reflexivity|].
        split; [|intros H; discriminate H].
        destruct Hr as [rest [Hr _]]. exists rest.
        split; [exact Hr | intros H; discriminate H].
      * exists (pre ++ Call OpLaunch true :: evs ++ [Stdout (doneText k ++ [LF])]).
        split; [unfold printed at 1; cbn [world trace]; rewrite Ht;
                unfold printed, called, pre; cbn [world trace];
                rewrite <- !app_assoc; reflexivity|].
        unfold pre.
        assert (Hreads : filesRead
                           ([Stderr (BANNER ++ [LF]); Call (OpStat (mdPath cfg)) true;
                             Stdout ((ofNat (length (f :: fs))
                                      ++ lit " markdown file(s) to scan. Launching browser...")
                                     ++ [LF])]
                            ++ Call OpLaunch true :: evs
                               ++ [Stdout (doneText k ++ [LF])])
                         = filesRead evs).
        { change (Call OpLaunch true :: evs ++ [Stdout (doneText k ++ [LF])])
            with ([Call OpLaunch true] ++ evs ++ [Stdout (doneText k ++ [LF])]).
          rewrite !filesRead_app. simpl. apply app_nil_r. }
        rewrite Hreads. split.
        -- destruct Hr as [rest [Hr Hall]]. exists rest. split; [exact Hr | exact Hall].
        -- intros _.
           exists ([Stderr (BANNER ++ [LF]); Call (OpStat (mdPath cfg)) true;
                    Stdout ((ofNat (length (f :: fs))
                             ++ lit " markdown file(s) to scan. Launching browser...")
                            ++ [LF]);
                    Call OpLaunch true] ++ evs), (doneText k).
           split; [rewrite <- app_assoc; reflexivity|]. right.
           rewrite outputsWritten_app.
           change (outputsWritten [Stderr (BANNER ++ [LF]);
                                   Call (OpStat (mdPath cfg)) true;
                                   Stdout ((ofNat (length (f :: fs))
                                            ++ lit " markdown file(s) to scan. Launching browser...")
                                           ++ [LF]);
                                   Call OpLaunch true]) with 0.
           simpl. rewrite <- Hk. reflexivity.
Qed.

End Session.

End AccountFacts.
Import AccountFacts.

(** X16. A run of [main] that returns ends with a message on the standard
    output: either that no markdown file was found, and then no output file
    was written, or the [Done] message, whose count is the number of output
    files the run has written. *)
Theorem done_message_counts_outputs :
  forall (rt : Runtime) (cfg : Config) (st st' : State rt),
    main cfg st = (st', inr tt) ->
    exists before last,
      trace st' = trace st ++ before ++ [Stdout (last ++ [LF])]
      /\ (last = lit "No markdown files found." /\ outputsWritten before = 0
          \/ last = doneText (outputsWritten before)).
Proof.
  intros rt cfg st st' H.
  assert (Hok : isOk (snd (main cfg st)) = true) by (rewrite H; reflexivity).
  destruct (stat rt (mdPath cfg) (world st)) as [w [e | info]] eqn:Hstat.
  - exfalso. rewrite main_unfold, Hstat in H. discriminate H.
  - destruct (main_account rt cfg st w info Hstat) as [evs [Ht [_ Hlast]]].
    destruct (Hlast Hok) as [before [last [-> Hl]]].
    exists before, last. rewrite H in Ht. split; [exact Ht | exact Hl].
Qed.

Lemma done_message_counts_outputs_witness :
  let rt := Demo.healthy in
  let cfg := Demo.config svg b64 in
  exists before last,
    trace (fst (main cfg (Demo.start rt 0)))
    = [] ++ before ++ [Stdout (last ++ [LF])]
    /\ (last = lit "No markdown files found." /\ outputsWritten before = 0
        \/ last = doneText (outputsWritten before)).
Proof.
  intros rt cfg.
  apply (done_message_counts_outputs rt cfg (Demo.start rt 0)
           (fst (main cfg (Demo.start rt 0)))).
  vm_compute. reflexivity.
Defined.

Example done_message_sample :
  let rt := Demo.healthy in
  exists tr,
    trace (fst (main (Demo.config svg b64) (Demo.start rt 0)))
    = tr ++ [Stdout (doneText 1 ++ [LF])]
    /\ outputsWritten tr = 1
    /\ filesRead tr = [Demo.docPath].
Proof.
  intros rt.
  exists (removelast (trace (fst (main (Demo.config svg b64) (Demo.start rt 0))))).
  repeat split; vm_compute; reflexivity.
Qed.

(** X17. Once [stat] has answered, [main] reads the selected files in
    their order, each once, and reads nothing else; the files read are a
    starting piece of the selection, and the whole of it when [main]
    returns. *)
Theorem selected_files_read_once :
  forall (rt : Runtime) (cfg : Config) (st : State rt) (w : World rt) (info : Stats),
    stat rt (mdPath cfg) (world st) = (w, inr info) ->
    exists evs rest,
      trace (fst (main cfg st)) = trace st ++ evs
      /\ filesOf cfg info = filesRead evs ++ rest
      /\ (isOk (snd (main cfg st)) = true -> rest = []).
Proof.
  intros rt cfg st w info Hstat.
  destruct (main_account rt cfg st w info Hstat) as [evs [Ht [[rest [Hr Hall]] _]]].
  exists evs, rest. auto.
Qed.

Lemma selected_files_read_once_witness :
  let rt := folderOf [ FileEntry (lit "a.md"); FileEntry (lit "a_mermaid2svg.md");
                       DirEntry (lit "sub") [ FileEntry (lit "b.md") ] ] in
  let cfg := Build_Config (lit "/docs") svg b64 2 in
  exists evs rest,
    trace (fst (main cfg (Demo.start rt 0))) = [] ++ evs
    /\ [lit "/docs/a.md"; lit "/docs/sub/b.md"] = filesRead evs ++ rest
    /\ (isOk (snd (main cfg (Demo.start rt 0))) = true -> rest = []).
Proof.
  intros rt cfg.
  exact (selected_files_read_once rt cfg (Demo.start rt 0) 1
           (IsDirectory [ FileEntry (lit "a.md"); FileEntry (lit "a_mermaid2svg.md");
                          DirEntry (lit "sub") [ FileEntry (lit "b.md") ] ])
           eq_refl).
Defined.

(* ================================================================== *)
(** * The scale, as the option is read *)
(* ================================================================== *)

(** ** What [parseInt] reads *)

Module ReadingFacts.
Import Scale.







End ReadingFacts.

(** ** The page of a session *)

Module PageFacts.



Section Pages.

Variable rt : Runtime.
Variable cfg : Config.



End Pages.


End PageFacts.

Import ReadingFacts PageFacts.




(** Runs with [--scale 7], [abc], [ +03.9] and [-3]. *)
Example device_scale_factor_sample :
  let rt := Demo.healthy in
  let values s :=
    Build_Values (Some Demo.docPath) false false false false (Some s) false false in
  let tr s := trace (fst (run (values s) (Demo.start rt 0))) in
  (launched (tr (lit "7")) = true
   /\ newPageScales (tr (lit "7")) = [4%Z]
   /\ snd (run (values (lit "7")) (Demo.start rt 0)) = inr 0%Z)
  /\ (launched (tr (lit "abc")) = false
      /\ newPageScales (tr (lit "abc")) = []
      /\ snd (run (values (lit "abc")) (Demo.start rt 0)) = inr 1%Z)
  /\ newPageScales (tr (lit " +03.9")) = [3%Z]
  /\ newPageScales (tr (lit "-3")) = [1%Z].
Proof. vm_compute. repeat split. Qed.
